(** * GskPath: paths, path points and the SVG path-data parser

    A shallow embedding of [gsk/gskpath.c] and [gsk/gskpathpoint.c].

    - [gsize] values are integers modulo [2^64], [int] values integers
      modulo [2^32] read as signed; the wrap-around is written out.
    - [gboolean] results are [bool]: a C result is [true] when it is
      non-zero.
    - A [GskPath] owns a copy of its contours; the flexible array member
      [contours[]] is a list and [n_contours] is its length.
    - The contour implementation, the bounding boxes, the path builder and
      GLib live outside these two files.  They are reached through the
      classes [GskContourClass] and [ParserEnv] below, so that every result
      holds for any implementation of them. *)

From Stdlib Require Import ZArith QArith List Ascii String Bool Lia Lqa Permutation.
Import ListNotations.

Set Implicit Arguments.

#[local] Open Scope Z_scope.

(* ================================================================== *)
(** * Machine integers *)

Definition G_MAXSIZE : Z := 2 ^ 64 - 1.

(** Arithmetic on [gsize] is arithmetic modulo [2^64]. *)
Definition gsize_wrap (n : Z) : Z := n mod 2 ^ 64.

(** Arithmetic on [int]: the value modulo [2^32], read as a signed
    two's complement number. *)
Definition int_wrap (n : Z) : Z := (n + 2 ^ 31) mod 2 ^ 32 - 2 ^ 31.

Definition G_MININT : Z := - 2 ^ 31.
Definition G_MAXINT : Z := 2 ^ 31 - 1.

(* ================================================================== *)
(** * gskpathpoint.c *)

Module PathPoint.

(** [GskRealPathPoint]: the contour, the index of the operation inside the
    contour and the parameter [t] on that operation.  The parameter is a
    real number of the interval [[0, 1]]; it is modelled by a rational. *)
Record GskRealPathPoint : Type := mkPoint {
  contour : Z;
  idx : Z;
  t : Q
}.

Definition Qltb (a b : Q) : bool :=
  match Qcompare a b with Lt => true | _ => false end.

Definition gsk_path_point_equal (p1 p2 : GskRealPathPoint) : bool :=
  if contour p1 =? contour p2 then
    if ((idx p1 =? idx p2) && Qeq_bool (t p1) (t p2))
       || ((gsize_wrap (idx p1 + 1) =? idx p2)
           && Qeq_bool (t p1) 1 && Qeq_bool (t p2) 0)
       || ((idx p1 =? gsize_wrap (idx p2 + 1))
           && Qeq_bool (t p1) 0 && Qeq_bool (t p2) 1)
    then true
    else false
  else false.

Definition gsk_path_point_compare (p1 p2 : GskRealPathPoint) : Z :=
  if gsk_path_point_equal p1 p2 then 0
  else if contour p1 <? contour p2 then -1
  else if contour p1 >? contour p2 then 1
  else if idx p1 <? idx p2 then -1
  else if idx p1 >? idx p2 then 1
  else if Qltb (t p1) (t p2) then -1
  else if Qltb (t p2) (t p1) then 1
  else 0.

(** A path point as the queries of gskpath.c produce it: both indices are
    [gsize] values, the operation index leaves room for its successor, and
    the parameter lies in [[0, 1]]. *)
Definition valid_point (p : GskRealPathPoint) : Prop :=
  0 <= contour p <= G_MAXSIZE /\
  0 <= idx p < G_MAXSIZE /\
  (0 <= t p <= 1)%Q.

(** The three components agree. *)
Definition same_triple (p q : GskRealPathPoint) : Prop :=
  contour p = contour q /\ idx p = idx q /\ (t p == t q)%Q.

(** [p] is the end of an operation and [q] the start of the next one of
    the same contour. *)
Definition boundary_pair (p q : GskRealPathPoint) : Prop :=
  contour p = contour q /\ idx p + 1 = idx q /\
  (t p == 1)%Q /\ (t q == 0)%Q.

(** Lexicographic comparison of the triples (contour, idx, t). *)
Definition sign_of (c : comparison) : Z :=
  match c with Lt => -1 | Eq => 0 | Gt => 1 end.

Definition lex_compare (p q : GskRealPathPoint) : Z :=
  match contour p ?= contour q with
  | Eq => match idx p ?= idx q with
          | Eq => sign_of (Qcompare (t p) (t q))
          | c => sign_of c
          end
  | c => sign_of c
  end.

(** Distance of a point from the start of its contour, counted in
    operations. *)
Definition position (p : GskRealPathPoint) : Q := (inject_Z (idx p) + t p)%Q.

End PathPoint.

(* ================================================================== *)
(** * gskpath.c: the path aggregate *)

(** [GskFillRule] *)
Inductive GskFillRule : Type :=
| GSK_FILL_RULE_WINDING
| GSK_FILL_RULE_EVEN_ODD.

(** The interface of a contour that gskpath.c relies on
    (gskcontourprivate.h), with the types it mentions.  [GSK_PATH_FLAT] and
    [GSK_PATH_CLOSED] are the values of [GskPathFlags].
    Out-parameters are returned: [gsk_contour_get_bounds] gives the box it
    stores, [gsk_contour_get_stroke_bounds] gives its boolean result
    together with the box found in the out-parameter afterwards. *)
Class GskContourClass : Type := {
  GskContour : Type;
  graphene_point_t : Type;
  graphene_rect_t : Type;
  GskBoundingBox : Type;
  GskStroke : Type;
  GSK_PATH_FLAT : Z;
  GSK_PATH_CLOSED : Z;
  graphene_rect_zero : graphene_rect_t;
  gsk_bounding_box_union : GskBoundingBox -> GskBoundingBox -> GskBoundingBox;
  gsk_bounding_box_to_rect : GskBoundingBox -> graphene_rect_t;
  gsk_contour_get_flags : GskContour -> Z;
  gsk_contour_get_n_ops : GskContour -> Z;
  gsk_contour_get_bounds : GskContour -> GskBoundingBox;
  gsk_contour_get_stroke_bounds : GskContour -> GskStroke -> bool * GskBoundingBox;
  gsk_contour_get_winding : GskContour -> graphene_point_t -> Z;
  gsk_contour_print : GskContour -> list ascii
}.

Section Path.

Context {CC : GskContourClass}.

Import PathPoint.

Record GskPath : Type := mkPath {
  ref_count : Z;
  flags : Z;
  contours : list GskContour
}.

Definition n_contours (self : GskPath) : Z := Z.of_nat (List.length (contours self)).

(** The first loop of [gsk_path_new_from_contours]: the flags of every
    contour are and-ed into the accumulator. *)
Fixpoint collect_flags (flags : Z) (l : list GskContour) : Z :=
  match l with
  | [] => flags
  | contour :: next => collect_flags (Z.land flags (gsk_contour_get_flags contour)) next
  end.

(** The second loop copies the contours, in order. *)
Fixpoint copy_contours (l : list GskContour) : list GskContour :=
  match l with
  | [] => []
  | contour :: next => contour :: copy_contours next
  end.

Definition gsk_path_new_from_contours (contours : list GskContour) : GskPath :=
  let flags := collect_flags (Z.lor GSK_PATH_CLOSED GSK_PATH_FLAT) contours in
  {| ref_count := 1; flags := flags; contours := copy_contours contours |}.

Definition gsk_path_get_contour (self : GskPath) (i : nat) : option GskContour :=
  nth_error (contours self) i.

Definition gsk_path_get_flags (self : GskPath) : Z := flags self.

Definition gsk_path_get_n_contours (self : GskPath) : Z := n_contours self.

Definition gsk_path_is_empty (self : GskPath) : bool := n_contours self =? 0.

Definition gsk_path_is_closed (self : GskPath) : bool :=
  if negb (n_contours self =? 1) then false
  else
    match gsk_path_get_contour self 0 with
    | Some c0 => negb (Z.land (gsk_contour_get_flags c0) GSK_PATH_CLOSED =? 0)
    | None => false
    end.

(** The loop of [gsk_path_get_bounds] over the contours 1 .. n-1. *)
Fixpoint union_bounds (b : GskBoundingBox) (l : list GskContour) : GskBoundingBox :=
  match l with
  | [] => b
  | c :: l' => union_bounds (gsk_bounding_box_union b (gsk_contour_get_bounds c)) l'
  end.

(** The result pairs the returned boolean with the rectangle stored in
    [bounds]. *)
Definition gsk_path_get_bounds (self : GskPath) : bool * graphene_rect_t :=
  if n_contours self =? 0 then (false, graphene_rect_zero)
  else
    match contours self with
    | c0 :: others =>
        let b := gsk_contour_get_bounds c0 in
        (true, gsk_bounding_box_to_rect (union_bounds b others))
    | [] => (false, graphene_rect_zero)
    end.

Fixpoint union_stroke_bounds (stroke : GskStroke) (b : GskBoundingBox)
    (l : list GskContour) : GskBoundingBox :=
  match l with
  | [] => b
  | c :: l' =>
      let (ok, tmp) := gsk_contour_get_stroke_bounds c stroke in
      union_stroke_bounds stroke (if ok then gsk_bounding_box_union b tmp else b) l'
  end.

Definition gsk_path_get_stroke_bounds (self : GskPath) (stroke : GskStroke)
    : bool * graphene_rect_t :=
  if n_contours self =? 0 then (false, graphene_rect_zero)
  else
    match contours self with
    | c0 :: others =>
        let b := snd (gsk_contour_get_stroke_bounds c0 stroke) in
        (true, gsk_bounding_box_to_rect (union_stroke_bounds stroke b others))
    | [] => (false, graphene_rect_zero)
    end.

(** The loop of [gsk_path_in_fill]: [winding += gsk_contour_get_winding]. *)
Fixpoint sum_winding (winding : Z) (point : graphene_point_t)
    (l : list GskContour) : Z :=
  match l with
  | [] => winding
  | c :: l' => sum_winding (int_wrap (winding + gsk_contour_get_winding c point)) point l'
  end.

Definition gsk_path_in_fill (self : GskPath) (point : graphene_point_t)
    (fill_rule : GskFillRule) : bool :=
  let winding := sum_winding 0 point (contours self) in
  match fill_rule with
  | GSK_FILL_RULE_EVEN_ODD => negb (Z.land winding 1 =? 0)
  | GSK_FILL_RULE_WINDING => negb (winding =? 0)
  end.

Definition gsk_path_get_start_point (self : GskPath) : option GskRealPathPoint :=
  if n_contours self =? 0 then None
  else Some {| contour := 0; idx := 1; t := 0 |}.

Definition gsk_path_get_end_point (self : GskPath) : option GskRealPathPoint :=
  if n_contours self =? 0 then None
  else
    match gsk_path_get_contour self (Z.to_nat (gsize_wrap (n_contours self - 1))) with
    | Some last =>
        Some {| contour := gsize_wrap (n_contours self - 1);
                idx := gsize_wrap (gsk_contour_get_n_ops last - 1);
                t := 1 |}
    | None => None
    end.

(** [gsk_path_print]: the contours in order, one space between two. *)
Fixpoint print_contours (i : nat) (l : list GskContour) (string : list ascii)
    : list ascii :=
  match l with
  | [] => string
  | c :: l' =>
      let string := if (0 <? i)%nat then string ++ [" "%char] else string in
      print_contours (S i) l' (string ++ gsk_contour_print c)
  end.

Definition gsk_path_print (self : GskPath) (string : list ascii) : list ascii :=
  print_contours 0 (contours self) string.

(** The mathematical sum of the winding numbers of the contours, in
    contour order. *)
Definition total_winding (self : GskPath) (point : graphene_point_t) : Z :=
  fold_left (fun acc c => acc + gsk_contour_get_winding c point) (contours self) 0.

(** A flag is set in a flags value when all of its bits are. *)
Definition flag_set (flag flags : Z) : Prop := Z.land flags flag = flag.

(** The bitwise AND of the {CLOSED, FLAT} flags of the contours. *)
Definition and_of_flags (l : list GskContour) : Z :=
  fold_right (fun c acc => Z.land (gsk_contour_get_flags c) acc)
             (Z.lor GSK_PATH_CLOSED GSK_PATH_FLAT) l.

(** The union of the bounds of a non-empty sequence of contours. *)
Definition bounds_union (c0 : GskContour) (others : list GskContour) : GskBoundingBox :=
  fold_left gsk_bounding_box_union (map gsk_contour_get_bounds others)
            (gsk_contour_get_bounds c0).

End Path.

(* ================================================================== *)
(** * gskpath.c: the parser of SVG path data *)

(** What the parser takes from outside gskpath.c: the C type [double]
    with the arithmetic done on it, and two functions of GLib.
    [g_ascii_strtod s] gives the converted value together with the number
    of characters it has consumed, that is the distance of the end pointer
    from [s]; it is 0 when no conversion could be done. *)
Class ParserEnv : Type := {
  double : Type;
  d_zero : double;
  d_two : double;
  d_add : double -> double -> double;
  d_sub : double -> double -> double;
  d_mul : double -> double -> double;
  d_ltb : double -> double -> bool;
  g_ascii_isspace : ascii -> bool;
  g_ascii_strtod : list ascii -> double * nat;
  g_ascii_isspace_nul : g_ascii_isspace "000"%char = false;
  g_ascii_strtod_bound : forall s, (snd (g_ascii_strtod s) <= List.length s)%nat
}.

Section Parser.

Context {PE : ParserEnv}.

(** The terminator of a C string. *)
Definition NUL : ascii := "000"%char.

(** A pointer [p] into the string that is parsed: the characters from
    [*p] on, and the character [p[-1]], which does not exist while [p] is
    at the start of the string.  The list holds the characters in front of
    the terminator, so [*p] is [NUL] once the list is exhausted. *)
Record cursor : Type := mkCursor {
  before : option ascii;
  chars : list ascii
}.

(** [*p] *)
Definition peek (p : cursor) : ascii :=
  match chars p with
  | c :: _ => c
  | [] => NUL
  end.

(** [p++] *)
Definition next (p : cursor) : cursor :=
  match chars p with
  | c :: l => {| before := Some c; chars := l |}
  | [] => p
  end.

(** [p + n] *)
Fixpoint advance (n : nat) (p : cursor) : cursor :=
  match n with
  | O => p
  | S n' => advance n' (next p)
  end.

Fixpoint skip_whitespace_from (before : option ascii) (l : list ascii) : cursor :=
  match l with
  | c :: l' =>
      if g_ascii_isspace c then skip_whitespace_from (Some c) l'
      else {| before := before; chars := l |}
  | [] => {| before := before; chars := [] |}
  end.

Definition skip_whitespace (p : cursor) : cursor :=
  skip_whitespace_from (before p) (chars p).

Definition skip_optional_comma (p : cursor) : cursor :=
  let p := skip_whitespace p in
  if Ascii.eqb (peek p) "," then next p else p.

(** The parsing functions return the pointer as they leave it, and the
    value they have stored when they return [TRUE]. *)
Definition parse_number (p : cursor) : cursor * option double :=
  let (c, e) := g_ascii_strtod (chars p) in
  if Nat.eqb e 0 then (p, None)
  else (skip_optional_comma (advance e p), Some c).

Definition parse_coordinate (p : cursor) : cursor * option double :=
  parse_number p.

Definition parse_coordinate_pair (p : cursor) : cursor * option (double * double) :=
  let o := p in
  match parse_coordinate p with
  | (_, None) => (o, None)
  | (p, Some xx) =>
      match parse_coordinate p with
      | (_, None) => (o, None)
      | (p, Some yy) => (p, Some (xx, yy))
      end
  end.

Definition parse_nonnegative_number (p : cursor) : cursor * option double :=
  let o := p in
  match parse_number p with
  | (p, None) => (p, None)
  | (p, Some n) => if d_ltb n d_zero then (o, None) else (p, Some n)
  end.

(** [strchr] of the C library tells whether it finds the character; it
    does find the terminator. *)
Fixpoint strchr (str : string) (c : ascii) : bool :=
  match str with
  | EmptyString => Ascii.eqb c NUL
  | String a str' => Ascii.eqb a c || strchr str' c
  end.

Definition _strchr (str : string) (c : ascii) : bool :=
  if Ascii.eqb c NUL then false else strchr str c.

Definition parse_flag (p : cursor) : cursor * option bool :=
  let p := skip_whitespace p in
  if _strchr "01" (peek p)
  then (skip_optional_comma (next p), Some (Ascii.eqb (peek p) "1"))
  else (p, None).

(** The result is the boolean returned, the pointer and the command:
    the character found becomes the command. *)
Definition parse_command (p : cursor) (cmd : ascii) : bool * cursor * ascii :=
  let allowed :=
    if Ascii.eqb cmd "X" then "mM"%string
    else "mMhHvVzZlLcCsStTqQaAeE"%string in
  let p := skip_whitespace p in
  if _strchr allowed (peek p) then (true, next p, peek p)
  else (false, p, cmd).

(** The path builder is known by the calls it receives, in order. *)
Inductive builder_call : Type :=
| gsk_path_builder_close
| gsk_path_builder_move_to (x y : double)
| gsk_path_builder_line_to (x y : double)
| gsk_path_builder_quad_to (x1 y1 x2 y2 : double)
| gsk_path_builder_cubic_to (x1 y1 x2 y2 x3 y3 : double)
| gsk_path_builder_svg_arc_to (rx ry x_axis_rotation : double)
    (large_arc sweep : bool) (x y : double)
| gsk_path_builder_arc_to (x1 y1 x2 y2 : double).

Definition GskPathBuilder : Type := list builder_call.

(** The variables of [gsk_path_parse] that live across iterations. *)
Record parser_state : Type := mkState {
  builder : GskPathBuilder;
  x : double;
  y : double;
  prev_x1 : double;
  prev_y1 : double;
  path_x : double;
  path_y : double;
  p : cursor;
  cmd : ascii;
  after_comma : bool
}.

(** The block [if (_strchr ("zZ", prev_cmd)) { move_to (x, y); path_x = x;
    path_y = y; }] that opens a new contour when a drawing command follows
    a close.  It gives the builder and the start of the contour. *)
Definition reopen (prev_cmd : ascii) (st : parser_state)
    : GskPathBuilder * double * double :=
  if _strchr "zZ" prev_cmd
  then (builder st ++ [gsk_path_builder_move_to (x st) (y st)], x st, y st)
  else (builder st, path_x st, path_y st).

(** [x1 += x] for the lowercase commands. *)
Definition rel (lower : ascii) (cmd : ascii) (v base : double) : double :=
  if Ascii.eqb cmd lower then d_add v base else v.

(** The [switch (cmd)] of the loop; [None] is [goto error].  [st] holds
    the pointer and the command as [parse_command] has left them. *)
Definition gsk_path_parse_switch (prev_cmd : ascii) (repeat : bool)
    (st : parser_state) : option parser_state :=
  let c := cmd st in
  let ac := after_comma st in
  if Ascii.eqb c "X" then None
  else if Ascii.eqb c "Z" || Ascii.eqb c "z" then
    if repeat then None
    else Some (mkState (builder st ++ [gsk_path_builder_close])
                 (path_x st) (path_y st) (prev_x1 st) (prev_y1 st)
                 (path_x st) (path_y st) (p st) c ac)
  else if Ascii.eqb c "M" || Ascii.eqb c "m" then
    match parse_coordinate_pair (p st) with
    | (p, Some (x1, y1)) =>
        let x1 := rel "m" c x1 (x st) in
        let y1 := rel "m" c y1 (y st) in
        if repeat then
          Some (mkState (builder st ++ [gsk_path_builder_line_to x1 y1])
                  x1 y1 (prev_x1 st) (prev_y1 st) (path_x st) (path_y st) p c ac)
        else
          let (path_x, path_y) :=
            if _strchr "zZX" prev_cmd then (x1, y1) else (path_x st, path_y st) in
          Some (mkState (builder st ++ [gsk_path_builder_move_to x1 y1])
                  x1 y1 (prev_x1 st) (prev_y1 st) path_x path_y p c ac)
    | (_, None) => None
    end
  else if Ascii.eqb c "L" || Ascii.eqb c "l" then
    match parse_coordinate_pair (p st) with
    | (p, Some (x1, y1)) =>
        let x1 := rel "l" c x1 (x st) in
        let y1 := rel "l" c y1 (y st) in
        let '(b, path_x, path_y) := reopen prev_cmd st in
        Some (mkState (b ++ [gsk_path_builder_line_to x1 y1])
                x1 y1 (prev_x1 st) (prev_y1 st) path_x path_y p c ac)
    | (_, None) => None
    end
  else if Ascii.eqb c "H" || Ascii.eqb c "h" then
    match parse_coordinate (p st) with
    | (p, Some x1) =>
        let x1 := rel "h" c x1 (x st) in
        let '(b, path_x, path_y) := reopen prev_cmd st in
        Some (mkState (b ++ [gsk_path_builder_line_to x1 (y st)])
                x1 (y st) (prev_x1 st) (prev_y1 st) path_x path_y p c ac)
    | (_, None) => None
    end
  else if Ascii.eqb c "V" || Ascii.eqb c "v" then
    match parse_coordinate (p st) with
    | (p, Some y1) =>
        let y1 := rel "v" c y1 (y st) in
        let '(b, path_x, path_y) := reopen prev_cmd st in
        Some (mkState (b ++ [gsk_path_builder_line_to (x st) y1])
                (x st) y1 (prev_x1 st) (prev_y1 st) path_x path_y p c ac)
    | (_, None) => None
    end
  else if Ascii.eqb c "C" || Ascii.eqb c "c" then
    match parse_coordinate_pair (p st) with
    | (p, Some (x0, y0)) =>
      match parse_coordinate_pair p with
      | (p, Some (x1, y1)) =>
        match parse_coordinate_pair p with
        | (p, Some (x2, y2)) =>
            let x0 := rel "c" c x0 (x st) in
            let y0 := rel "c" c y0 (y st) in
            let x1 := rel "c" c x1 (x st) in
            let y1 := rel "c" c y1 (y st) in
            let x2 := rel "c" c x2 (x st) in
            let y2 := rel "c" c y2 (y st) in
            let '(b, path_x, path_y) := reopen prev_cmd st in
            Some (mkState (b ++ [gsk_path_builder_cubic_to x0 y0 x1 y1 x2 y2])
                    x2 y2 x1 y1 path_x path_y p c ac)
        | (_, None) => None
        end
      | (_, None) => None
      end
    | (_, None) => None
    end
  else if Ascii.eqb c "S" || Ascii.eqb c "s" then
    match parse_coordinate_pair (p st) with
    | (p, Some (x1, y1)) =>
      match parse_coordinate_pair p with
      | (p, Some (x2, y2)) =>
          let x1 := rel "s" c x1 (x st) in
          let y1 := rel "s" c y1 (y st) in
          let x2 := rel "s" c x2 (x st) in
          let y2 := rel "s" c y2 (y st) in
          let (x0, y0) :=
            if _strchr "CcSs" prev_cmd
            then (d_sub (d_mul d_two (x st)) (prev_x1 st),
                  d_sub (d_mul d_two (y st)) (prev_y1 st))
            else (x st, y st) in
          let '(b, path_x, path_y) := reopen prev_cmd st in
          Some (mkState (b ++ [gsk_path_builder_cubic_to x0 y0 x1 y1 x2 y2])
                  x2 y2 x1 y1 path_x path_y p c ac)
      | (_, None) => None
      end
    | (_, None) => None
    end
  else if Ascii.eqb c "Q" || Ascii.eqb c "q" then
    match parse_coordinate_pair (p st) with
    | (p, Some (x1, y1)) =>
      match parse_coordinate_pair p with
      | (p, Some (x2, y2)) =>
          let x1 := rel "q" c x1 (x st) in
          let y1 := rel "q" c y1 (y st) in
          let x2 := rel "q" c x2 (x st) in
          let y2 := rel "q" c y2 (y st) in
          let '(b, path_x, path_y) := reopen prev_cmd st in
          Some (mkState (b ++ [gsk_path_builder_quad_to x1 y1 x2 y2])
                  x2 y2 x1 y1 path_x path_y p c ac)
      | (_, None) => None
      end
    | (_, None) => None
    end
  else if Ascii.eqb c "T" || Ascii.eqb c "t" then
    match parse_coordinate_pair (p st) with
    | (p, Some (x2, y2)) =>
        let x2 := rel "t" c x2 (x st) in
        let y2 := rel "t" c y2 (y st) in
        let (x1, y1) :=
          if _strchr "QqTt" prev_cmd
          then (d_sub (d_mul d_two (x st)) (prev_x1 st),
                d_sub (d_mul d_two (y st)) (prev_y1 st))
          else (x st, y st) in
        let '(b, path_x, path_y) := reopen prev_cmd st in
        Some (mkState (b ++ [gsk_path_builder_quad_to x1 y1 x2 y2])
                x2 y2 x1 y1 path_x path_y p c ac)
    | (_, None) => None
    end
  else if Ascii.eqb c "A" || Ascii.eqb c "a" then
    match parse_nonnegative_number (p st) with
    | (p, Some rx) =>
      match parse_nonnegative_number p with
      | (p, Some ry) =>
        match parse_number p with
        | (p, Some x_axis_rotation) =>
          match parse_flag p with
          | (p, Some large_arc) =>
            match parse_flag p with
            | (p, Some sweep) =>
              match parse_coordinate_pair p with
              | (p, Some (x1, y1)) =>
                  let x1 := rel "a" c x1 (x st) in
                  let y1 := rel "a" c y1 (y st) in
                  let '(b, path_x, path_y) := reopen prev_cmd st in
                  Some (mkState
                          (b ++ [gsk_path_builder_svg_arc_to rx ry x_axis_rotation
                                   large_arc sweep x1 y1])
                          x1 y1 (prev_x1 st) (prev_y1 st) path_x path_y p c ac)
              | (_, None) => None
              end
            | (_, None) => None
            end
          | (_, None) => None
          end
        | (_, None) => None
        end
      | (_, None) => None
      end
    | (_, None) => None
    end
  else if Ascii.eqb c "E" || Ascii.eqb c "e" then
    match parse_coordinate_pair (p st) with
    | (p, Some (x1, y1)) =>
      match parse_coordinate_pair p with
      | (p, Some (x2, y2)) =>
          let x1 := rel "e" c x1 (x st) in
          let y1 := rel "e" c y1 (y st) in
          let x2 := rel "e" c x2 (x st) in
          let y2 := rel "e" c y2 (y st) in
          let '(b, path_x, path_y) := reopen prev_cmd st in
          Some (mkState (b ++ [gsk_path_builder_arc_to x1 y1 x2 y2])
                  x2 y2 x1 y1 path_x path_y p c ac)
      | (_, None) => None
      end
    | (_, None) => None
    end
  else None.

(** [(p > string) && p[-1] == ','] *)
Definition is_after_comma (p : cursor) : bool :=
  match before p with
  | Some c => Ascii.eqb c ","
  | None => false
  end.

(** One iteration of the [while] loop. *)
Definition gsk_path_parse_iteration (st : parser_state) : option parser_state :=
  let prev_cmd := cmd st in
  let '(found, p1, cmd1) := parse_command (p st) (cmd st) in
  let repeat := negb found in
  if after_comma st && negb repeat then None
  else
    match gsk_path_parse_switch prev_cmd repeat
            (mkState (builder st) (x st) (y st) (prev_x1 st) (prev_y1 st)
               (path_x st) (path_y st) p1 cmd1 (after_comma st)) with
    | Some st' =>
        Some (mkState (builder st') (x st') (y st') (prev_x1 st') (prev_y1 st')
                (path_x st') (path_y st') (p st') (cmd st') (is_after_comma (p st')))
    | None => None
    end.

(** What an iteration keeps of the state that the [switch] gives:
    [after_comma] is set anew. *)
Definition end_of_iteration (r : option parser_state) : option parser_state :=
  match r with
  | Some st' =>
      Some (mkState (builder st') (x st') (y st') (prev_x1 st') (prev_y1 st')
              (path_x st') (path_y st') (p st') (cmd st') (is_after_comma (p st')))
  | None => None
  end.

Inductive loop_result : Type :=
| Parsed (b : GskPathBuilder)
| Failed
| OutOfFuel.

(** The loop [while ( *p )] and what follows it.  Every iteration consumes
    a character, so that the length of the string bounds the number of
    iterations; [fuel] counts them down. *)
Fixpoint gsk_path_parse_loop (fuel : nat) (st : parser_state) : loop_result :=
  match fuel with
  | O => OutOfFuel
  | S fuel' =>
      if Ascii.eqb (peek (p st)) NUL then
        if after_comma st then Failed else Parsed (builder st)
      else
        match gsk_path_parse_iteration st with
        | Some st' => gsk_path_parse_loop fuel' st'
        | None => Failed
        end
  end.

Definition gsk_path_parse_start (string : list ascii) : parser_state :=
  mkState [] d_zero d_zero d_zero d_zero d_zero d_zero
    {| before := None; chars := string |} "X" false.

(** [gsk_path_parse]: [Some b] is the path that
    [gsk_path_builder_free_to_path] makes of the builder after the calls
    [b]; [None] is [NULL]. *)
Definition gsk_path_parse (string : list ascii) : option GskPathBuilder :=
  match gsk_path_parse_loop (S (List.length string)) (gsk_path_parse_start string) with
  | Parsed b => Some b
  | Failed | OutOfFuel => None
  end.

(** The states that the loop goes through from a given state. *)
Inductive reaches : parser_state -> parser_state -> Prop :=
| reaches_here (st : parser_state) : reaches st st
| reaches_iteration (st st' st'' : parser_state) :
    Ascii.eqb (peek (p st)) NUL = false ->
    gsk_path_parse_iteration st = Some st' ->
    reaches st' st'' ->
    reaches st st''.

(** ** The grammar

    The arguments of the commands, as the documentation of
    [gsk_path_parse] lists them: [M x y], [L x y], [H x], [V y],
    [Q x1 y1 x2 y2], [C x1 y1 x2 y2 x3 y3], [T x2 y2], [S x2 y2 x3 y3],
    [A rx ry r l s x y], [E x1 y1 x2 y2] and [Z]. *)
Inductive argument : Type :=
| Number
| NonNegative
| Flag.

Definition arguments (c : ascii) : option (list argument) :=
  if _strchr "Zz" c then Some []
  else if _strchr "HhVv" c then Some [Number]
  else if _strchr "MmLlTt" c then Some [Number; Number]
  else if _strchr "SsQqEe" c then Some [Number; Number; Number; Number]
  else if _strchr "Cc" c then Some [Number; Number; Number; Number; Number; Number]
  else if _strchr "Aa" c then
    Some [NonNegative; NonNegative; Number; Flag; Flag; Number; Number]
  else None.

(** Where the pointer is after an argument, if there is one. *)
Definition read_argument (a : argument) (p : cursor) : option cursor :=
  match a with
  | Number =>
      match parse_number p with (p', Some _) => Some p' | (_, None) => None end
  | NonNegative =>
      match parse_nonnegative_number p with
      | (p', Some _) => Some p'
      | (_, None) => None
      end
  | Flag =>
      match parse_flag p with (p', Some _) => Some p' | (_, None) => None end
  end.

Fixpoint read_arguments (l : list argument) (p : cursor) : option cursor :=
  match l with
  | [] => Some p
  | a :: l' =>
      match read_argument a p with
      | Some p' => read_arguments l' p'
      | None => None
      end
  end.

(** The syntax errors that an iteration can meet in the state [st]:
    - something else than [M] or [m] comes while no move has been seen;
    - a command letter comes after a comma;
    - no command letter comes after [Z] or [z];
    - the arguments of the command, given or repeated, are not all there:
      a number cannot be read, a flag is not [0] or [1], or something
      that is not an argument stands in their place. *)
Inductive syntax_error (st : parser_state) : Prop :=
| error_before_move :
    cmd st = "X"%char ->
    _strchr "mM" (peek (skip_whitespace (p st))) = false ->
    syntax_error st
| error_stray_comma (p1 : cursor) (c : ascii) :
    after_comma st = true ->
    parse_command (p st) (cmd st) = (true, p1, c) ->
    syntax_error st
| error_after_close (p1 : cursor) (c : ascii) :
    _strchr "Zz" (cmd st) = true ->
    parse_command (p st) (cmd st) = (false, p1, c) ->
    syntax_error st
| error_arguments (found : bool) (p1 : cursor) (c : ascii) (l : list argument) :
    parse_command (p st) (cmd st) = (found, p1, c) ->
    arguments c = Some l ->
    read_arguments l p1 = None ->
    syntax_error st.

End Parser.

(* ================================================================== *)
(** * An implementation of the interfaces *)

(** The functions above run once the interfaces are implemented.  Here a
    contour is a record of what the queries return, rational numbers stand
    for [double], and the conversion of numbers reads an optional sign,
    decimal digits and an optional fraction after the white space that
    [strtod] skips. *)
Module Sample.

Record box : Type := mkBox { min_x : Q; min_y : Q; max_x : Q; max_y : Q }.

Definition q_min (a b : Q) : Q := if Qle_bool a b then a else b.
Definition q_max (a b : Q) : Q := if Qle_bool a b then b else a.

Definition box_union (a b : box) : box :=
  {| min_x := q_min (min_x a) (min_x b); min_y := q_min (min_y a) (min_y b);
     max_x := q_max (max_x a) (max_x b); max_y := q_max (max_y a) (max_y b) |}.

(** A rectangle is an origin and a size. *)
Definition box_to_rect (b : box) : Q * Q * Q * Q :=
  (min_x b, min_y b, Qred (max_x b - min_x b), Qred (max_y b - min_y b)).

Record sample_contour : Type := mkContour {
  c_flags : Z;
  c_n_ops : Z;
  c_bounds : box;
  c_winding : Q * Q -> Z;
  c_text : list ascii
}.

#[export] Instance sample_contours : GskContourClass := {|
  GskContour := sample_contour;
  graphene_point_t := Q * Q;
  graphene_rect_t := Q * Q * Q * Q;
  GskBoundingBox := box;
  GskStroke := Q;
  GSK_PATH_FLAT := 1;
  GSK_PATH_CLOSED := 2;
  graphene_rect_zero := (0, 0, 0, 0)%Q;
  gsk_bounding_box_union := box_union;
  gsk_bounding_box_to_rect := box_to_rect;
  gsk_contour_get_flags := c_flags;
  gsk_contour_get_n_ops := c_n_ops;
  gsk_contour_get_bounds := c_bounds;
  gsk_contour_get_stroke_bounds := fun c w =>
    (true, {| min_x := min_x (c_bounds c) - w; min_y := min_y (c_bounds c) - w;
              max_x := max_x (c_bounds c) + w; max_y := max_y (c_bounds c) + w |});
  gsk_contour_get_winding := c_winding;
  gsk_contour_print := c_text
|}.

(** The closed triangle [M 0 0 L 10 0 L 10 10 Z]. *)
Definition triangle : sample_contour :=
  {| c_flags := 3;
     c_n_ops := 4;
     c_bounds := mkBox 0 0 10 10;
     c_winding := fun '(px, py) =>
       if Qle_bool 0 py && Qle_bool py px && Qle_bool px 10 then 1 else 0;
     c_text := list_ascii_of_string "M 0 0 L 10 0 L 10 10 Z" |}.

(** The single point [M 0 0]. *)
Definition point : sample_contour :=
  {| c_flags := 1;
     c_n_ops := 1;
     c_bounds := mkBox 0 0 0 0;
     c_winding := fun _ => 0;
     c_text := list_ascii_of_string "M 0 0" |}.

Definition empty_path : GskPath := gsk_path_new_from_contours [].
Definition triangle_path : GskPath := gsk_path_new_from_contours [triangle].
Definition point_path : GskPath := gsk_path_new_from_contours [point].
Definition two_triangles : GskPath := gsk_path_new_from_contours [triangle; triangle].

(** White space for [g_ascii_isspace]: space, tab, line feed, form feed
    and carriage return. *)
Definition is_space (c : ascii) : bool :=
  existsb (Ascii.eqb c) [" "; "009"; "010"; "012"; "013"]%char.

Definition digit (c : ascii) : option Z :=
  let n := Z.of_nat (nat_of_ascii c) in
  if (48 <=? n) && (n <=? 57) then Some (n - 48) else None.

Fixpoint count_spaces (l : list ascii) : nat :=
  match l with
  | c :: l' => if is_space c then S (count_spaces l') else O
  | [] => O
  end.

(** The value of the leading digits, after those of [acc], and their
    number. *)
Fixpoint read_digits (l : list ascii) (acc : Z) : Z * nat :=
  match l with
  | c :: l' =>
      match digit c with
      | Some d => let (v, n) := read_digits l' (10 * acc + d) in (v, S n)
      | None => (acc, O)
      end
  | [] => (acc, O)
  end.

Definition sign_length (l : list ascii) : bool * nat :=
  match l with
  | c :: _ =>
      if Ascii.eqb c "-" then (true, 1%nat)
      else if Ascii.eqb c "+" then (false, 1%nat)
      else (false, O)
  | [] => (false, O)
  end.

Definition strtod (s : list ascii) : Q * nat :=
  let n0 := count_spaces s in
  let s0 := skipn n0 s in
  let (negative, n1) := sign_length s0 in
  let s1 := skipn n1 s0 in
  let (int_part, n2) := read_digits s1 0 in
  let s2 := skipn n2 s1 in
  let '(mantissa, n3, dot) :=
    match s2 with
    | c :: s3 =>
        if Ascii.eqb c "." then
          let (v, n) := read_digits s3 int_part in (v, n, 1%nat)
        else (int_part, O, O)
    | [] => (int_part, O, O)
    end in
  if Nat.eqb (n2 + n3) 0 then (0%Q, O)
  else
    let v := Qred (inject_Z mantissa / inject_Z (10 ^ Z.of_nat n3)) in
    (if negative then Qopp v else v, (n0 + n1 + n2 + dot + n3)%nat).

Lemma count_spaces_bound (l : list ascii) : (count_spaces l <= List.length l)%nat.
Proof.
  induction l as [|c l IH]; simpl; [lia|].
  destruct (is_space c); simpl; lia.
Qed.

Lemma read_digits_bound (l : list ascii) (acc : Z) :
  (snd (read_digits l acc) <= List.length l)%nat.
Proof.
  revert acc. induction l as [|c l IH]; intros acc; [simpl; lia|].
  cbn [read_digits]. destruct (digit c) as [d|]; [|simpl; lia].
  specialize (IH (10 * acc + d)).
  destruct (read_digits l (10 * acc + d)). simpl in *. lia.
Qed.

Lemma sign_length_bound (l : list ascii) :
  (snd (sign_length l) <= List.length l)%nat.
Proof.
  destruct l as [|c l]; simpl; [lia|].
  destruct (Ascii.eqb c "-"); simpl; [lia|].
  destruct (Ascii.eqb c "+"); simpl; lia.
Qed.

Lemma strtod_bound (s : list ascii) : (snd (strtod s) <= List.length s)%nat.
Proof.
  unfold strtod.
  assert (H0 := count_spaces_bound s).
  assert (H1 := sign_length_bound (skipn (count_spaces s) s)).
  destruct (sign_length (skipn (count_spaces s) s)) as [negative n1].
  simpl in H1.
  assert (H2 := read_digits_bound (skipn n1 (skipn (count_spaces s) s)) 0).
  destruct (read_digits (skipn n1 (skipn (count_spaces s) s)) 0) as [int_part n2].
  simpl in H2.
  assert (L0 := length_skipn (count_spaces s) s).
  assert (L1 := length_skipn n1 (skipn (count_spaces s) s)).
  assert (L2 := length_skipn n2 (skipn n1 (skipn (count_spaces s) s))).
  destruct (skipn n2 (skipn n1 (skipn (count_spaces s) s))) as [|c s3].
  - destruct (Nat.eqb (n2 + 0) 0); simpl; lia.
  - destruct (Ascii.eqb c ".").
    + assert (H3 := read_digits_bound s3 int_part).
      destruct (read_digits s3 int_part) as [v n3]. simpl in H3, L2.
      destruct (Nat.eqb (n2 + n3) 0); simpl; lia.
    + destruct (Nat.eqb (n2 + 0) 0); simpl; lia.
Qed.

#[export] Instance sample_env : ParserEnv := {|
  double := Q;
  d_zero := 0%Q;
  d_two := 2%Q;
  d_add := fun a b => Qred (a + b);
  d_sub := fun a b => Qred (a - b);
  d_mul := fun a b => Qred (a * b);
  d_ltb := PathPoint.Qltb;
  g_ascii_isspace := is_space;
  g_ascii_strtod := strtod;
  g_ascii_isspace_nul := eq_refl;
  g_ascii_strtod_bound := strtod_bound
|}.

(** [gsk_path_parse] on a string literal. *)
Definition parse (s : string) : option GskPathBuilder :=
  gsk_path_parse (list_ascii_of_string s).

End Sample.

(* ================================================================== *)
(** * The calls that the parser makes *)

Section ParserCalls.

Context {PE : ParserEnv}.

Definition is_close (c : builder_call) : bool :=
  match c with
  | gsk_path_builder_close => true
  | _ => false
  end.

Definition is_move_to (c : builder_call) : bool :=
  match c with
  | gsk_path_builder_move_to _ _ => true
  | _ => false
  end.

(** The calls that add a line or a curve to the current contour. *)
Definition is_draw (c : builder_call) : bool :=
  match c with
  | gsk_path_builder_close | gsk_path_builder_move_to _ _ => false
  | _ => true
  end.

(** [a] stands directly in front of [b] in [l]. *)
Definition adjacent (a b : builder_call) (l : GskPathBuilder) : Prop :=
  exists l1 l2, l = l1 ++ a :: b :: l2.

(** The letters of the commands that draw. *)
Definition drawing_commands : string := "hHvVlLcCsStTqQaAeE".

(** The values that [cmd] takes: ['X'] before the first command, then the
    letter of a command. *)
Definition command_or_start (c : ascii) : Prop :=
  c = "X"%char \/ _strchr "mMhHvVzZlLcCsStTqQaAeE" c = true.

(** No call that draws comes directly after a close. *)
Definition no_draw_after_close (l : GskPathBuilder) : Prop :=
  forall a b, adjacent a b l -> is_close a = true -> is_draw b = false.

Definition starts_with_move_to (l : GskPathBuilder) : Prop :=
  match l with
  | [] => True
  | c :: _ => is_move_to c = true
  end.

Definition ends_with_close (l : GskPathBuilder) : Prop :=
  exists l', l = l' ++ [gsk_path_builder_close].

(** What holds of the state at the head of every iteration. *)
Definition parser_invariant (st : parser_state) : Prop :=
  command_or_start (cmd st) /\
  (builder st = [] <-> cmd st = "X"%char) /\
  starts_with_move_to (builder st) /\
  (ends_with_close (builder st) -> _strchr "zZ" (cmd st) = true) /\
  no_draw_after_close (builder st).

(** A string of white space. *)
Definition all_spaces (ws : list ascii) : Prop :=
  Forall (fun c => g_ascii_isspace c = true) ws.

End ParserCalls.

(* ================================================================== *)
(** * gskpath.c: reference counts, the closest point, unions *)

(** The query for the closest point of a contour (gskcontourprivate.h).
    It gets the threshold and gives, when a point of the contour is
    closer than that, the point and its distance; the point that it
    stores in [result] is left alone otherwise. *)
Class GskContourPointClass {CC : GskContourClass} : Type := {
  gsk_contour_get_closest_point :
    GskContour -> graphene_point_t -> Q ->
    option (PathPoint.GskRealPathPoint * Q)
}.

Section PathMore.

Context {CC : GskContourClass} {CP : GskContourPointClass}.

Import PathPoint.

Definition G_MAXUINT : Z := 2 ^ 32 - 1.

(** Arithmetic on [guint] is arithmetic modulo [2^32]. *)
Definition guint_wrap (n : Z) : Z := n mod 2 ^ 32.

(** [gsk_path_ref]: the path after the call. *)
Definition gsk_path_ref (self : GskPath) : GskPath :=
  {| ref_count := guint_wrap (ref_count self + 1);
     flags := flags self;
     contours := contours self |}.

(** [gsk_path_unref]: the path after the call, [None] when it has been
    freed. *)
Definition gsk_path_unref (self : GskPath) : option GskPath :=
  if negb (ref_count self >? 0) then Some self
  else
    let self' := {| ref_count := guint_wrap (ref_count self - 1);
                    flags := flags self;
                    contours := contours self |} in
    if ref_count self' >? 0 then Some self' else None.

(** A sequence of calls on one path. *)
Inductive ref_call : Type :=
| Ref
| Unref.

Fixpoint run_ref_calls (calls : list ref_call) (self : GskPath) : option GskPath :=
  match calls with
  | [] => Some self
  | Ref :: calls' => run_ref_calls calls' (gsk_path_ref self)
  | Unref :: calls' =>
      match gsk_path_unref self with
      | Some self' => run_ref_calls calls' self'
      | None => None
      end
  end.

(** References taken minus references dropped. *)
Fixpoint balance (calls : list ref_call) : Z :=
  match calls with
  | [] => 0
  | Ref :: calls' => 1 + balance calls'
  | Unref :: calls' => balance calls' - 1
  end.

Definition gsk_path_to_string (self : GskPath) : list ascii :=
  gsk_path_print self [].

(** The loop of [gsk_path_get_closest_point]: the values of [threshold]
    and of [result] when it ends.  [res] is [None] as long as [found] is
    [FALSE]. *)
Fixpoint closest_point_loop (i : Z) (l : list GskContour)
    (point : graphene_point_t) (threshold : Q)
    (res : option GskRealPathPoint) : Q * option GskRealPathPoint :=
  match l with
  | [] => (threshold, res)
  | c :: l' =>
      match gsk_contour_get_closest_point c point threshold with
      | Some (r, distance) =>
          closest_point_loop (int_wrap (i + 1)) l' point distance
            (Some {| contour := gsize_wrap i; idx := idx r; t := t r |})
      | None => closest_point_loop (int_wrap (i + 1)) l' point threshold res
      end
  end.

Definition gsk_path_get_closest_point (self : GskPath)
    (point : graphene_point_t) (threshold : Q) : option GskRealPathPoint :=
  if negb (Qle_bool 0 threshold) then None
  else snd (closest_point_loop 0 (contours self) point threshold None).

(** The value of [threshold] when the loop comes to the contour [j]. *)
Definition threshold_at (self : GskPath) (point : graphene_point_t)
    (threshold : Q) (j : nat) : Q :=
  fst (closest_point_loop 0 (firstn j (contours self)) point threshold None).

(** The paths that take part in a union, and the contours of the union. *)
Definition union_of (paths : list GskPath) : GskPath :=
  gsk_path_new_from_contours (flat_map contours paths).

(** The number of paths that hold the point by the even-odd rule. *)
Definition n_in_fill (paths : list GskPath) (point : graphene_point_t) : nat :=
  List.length
    (filter (fun q => gsk_path_in_fill q point GSK_FILL_RULE_EVEN_ODD) paths).

(** The boxes that the loop of [gsk_path_get_stroke_bounds] joins. *)
Definition stroke_boxes (stroke : GskStroke) (l : list GskContour)
    : list GskBoundingBox :=
  map snd (filter fst (map (fun c => gsk_contour_get_stroke_bounds c stroke) l)).

End PathMore.

(* ================================================================== *)
(** * gskpath.c: gsk_path_foreach and gsk_path_to_cairo *)

(** [GskPathOperation] *)
Inductive GskPathOperation : Type :=
| GSK_PATH_MOVE
| GSK_PATH_CLOSE
| GSK_PATH_LINE
| GSK_PATH_QUAD
| GSK_PATH_CUBIC
| GSK_PATH_ARC.

(** [GskPathForeachFlags] (gskpath.h) *)
Definition GSK_PATH_FOREACH_ALLOW_ONLY_LINES : Z := 0.
Definition GSK_PATH_FOREACH_ALLOW_QUAD : Z := Z.shiftl 1 0.
Definition GSK_PATH_FOREACH_ALLOW_CUBIC : Z := Z.shiftl 1 1.
Definition GSK_PATH_FOREACH_ALLOW_ARC : Z := Z.shiftl 1 2.

Definition ALLOW_ANY : Z :=
  Z.lor (Z.lor GSK_PATH_FOREACH_ALLOW_QUAD GSK_PATH_FOREACH_ALLOW_CUBIC)
        GSK_PATH_FOREACH_ALLOW_ARC.

Section Callbacks.

Context {CC : GskContourClass}.

(** A callback together with its [user_data]: a call takes the user data
    as they are and gives the boolean result and the user data as the call
    leaves them.  [n_pts] is the length of [pts]. *)
Definition GskPathForeachFunc (S : Type) : Type :=
  GskPathOperation -> list graphene_point_t -> S -> bool * S.

End Callbacks.

(** What [gsk_path_foreach] takes from the contours and the curves
    (gskcontourprivate.h, gskcurveprivate.h): the functions that walk a
    contour or approximate a curve and hand each piece to a callback, the
    arithmetic on the [float] coordinates of a point, and the default
    tolerance. *)
Class GskCurveClass {CC : GskContourClass} : Type := {
  float : Type;
  gdouble : Type;
  GskCurve : Type;
  gskpathop : Type;
  GskCurveLineReason : Type;
  GSK_PATH_TOLERANCE_DEFAULT : gdouble;
  f_of_int : Z -> float;
  f_add : float -> float -> float;
  f_mul : float -> float -> float;
  f_div : float -> float -> float;
  point_x : graphene_point_t -> float;
  point_y : graphene_point_t -> float;
  GRAPHENE_POINT_INIT : float -> float -> graphene_point_t;
  gsk_pathop_encode : GskPathOperation -> list graphene_point_t -> gskpathop;
  gsk_curve_init : gskpathop -> GskCurve;
  gsk_contour_foreach :
    forall S : Type, GskContour -> gdouble -> GskPathForeachFunc S -> S -> bool * S;
  gsk_curve_decompose :
    forall S : Type, GskCurve -> gdouble ->
      (graphene_point_t -> graphene_point_t -> float -> float ->
       GskCurveLineReason -> S -> bool * S) ->
      S -> bool * S;
  gsk_curve_decompose_curve :
    forall S : Type, GskCurve -> Z -> gdouble -> GskPathForeachFunc S -> S -> bool * S
}.

Arguments gsk_contour_foreach {CC _} [S].
Arguments gsk_curve_decompose {CC _} [S].
Arguments gsk_curve_decompose_curve {CC _} [S].

Section Foreach.

Context {CC : GskContourClass} {GC : GskCurveClass}.

Variable S : Type.

(** [pts[i]]; nothing is known of a read past the end of the array, it
    gives the origin here. *)
Definition pts_at (pts : list graphene_point_t) (i : nat) : graphene_point_t :=
  nth i pts (GRAPHENE_POINT_INIT (f_of_int 0) (f_of_int 0)).

Definition flag_allowed (flags flag : Z) : bool := negb (Z.land flags flag =? 0).

(** The fields [flags], [tolerance] and [func] of the trampoline are
    arguments; [user_data] is the state. *)
Definition gsk_path_foreach_trampoline_add_line (func : GskPathForeachFunc S)
    (from to : graphene_point_t) (from_progress to_progress : float)
    (reason : GskCurveLineReason) (user_data : S) : bool * S :=
  func GSK_PATH_LINE [from; to] user_data.

Definition gsk_path_foreach_trampoline_add_curve (func : GskPathForeachFunc S)
    (op : GskPathOperation) (pts : list graphene_point_t) (user_data : S)
    : bool * S :=
  func op pts user_data.

(** The cubic that stands for a quadratic curve. *)
Definition quad_as_cubic (pts : list graphene_point_t) : list graphene_point_t :=
  let third (a b : float) : float :=
    f_div (f_add a (f_mul (f_of_int 2) b)) (f_of_int 3) in
  [ pts_at pts 0;
    GRAPHENE_POINT_INIT (third (point_x (pts_at pts 0)) (point_x (pts_at pts 1)))
                        (third (point_y (pts_at pts 0)) (point_y (pts_at pts 1)));
    GRAPHENE_POINT_INIT (third (point_x (pts_at pts 2)) (point_x (pts_at pts 1)))
                        (third (point_y (pts_at pts 2)) (point_y (pts_at pts 1)));
    pts_at pts 2 ].

Definition gsk_path_foreach_trampoline (flags : Z) (tolerance : gdouble)
    (func : GskPathForeachFunc S)
    (op : GskPathOperation) (pts : list graphene_point_t) (user_data : S)
    : bool * S :=
  match op with
  | GSK_PATH_MOVE | GSK_PATH_CLOSE | GSK_PATH_LINE => func op pts user_data
  | GSK_PATH_QUAD =>
      if flag_allowed flags GSK_PATH_FOREACH_ALLOW_QUAD then func op pts user_data
      else if flag_allowed flags GSK_PATH_FOREACH_ALLOW_CUBIC then
        func GSK_PATH_CUBIC (quad_as_cubic pts) user_data
      else
        gsk_curve_decompose (gsk_curve_init (gsk_pathop_encode GSK_PATH_QUAD pts)) tolerance
          (gsk_path_foreach_trampoline_add_line func) user_data
  | GSK_PATH_CUBIC =>
      if flag_allowed flags GSK_PATH_FOREACH_ALLOW_CUBIC then func op pts user_data
      else
        let curve := gsk_curve_init (gsk_pathop_encode GSK_PATH_CUBIC pts) in
        if flag_allowed flags GSK_PATH_FOREACH_ALLOW_QUAD then
          gsk_curve_decompose_curve curve flags tolerance
            (gsk_path_foreach_trampoline_add_curve func) user_data
        else
          gsk_curve_decompose curve tolerance
            (gsk_path_foreach_trampoline_add_line func) user_data
  | GSK_PATH_ARC =>
      if flag_allowed flags GSK_PATH_FOREACH_ALLOW_ARC then func op pts user_data
      else
        let curve := gsk_curve_init (gsk_pathop_encode GSK_PATH_ARC pts) in
        if flag_allowed flags
             (Z.lor GSK_PATH_FOREACH_ALLOW_CUBIC GSK_PATH_FOREACH_ALLOW_QUAD) then
          gsk_curve_decompose_curve curve flags tolerance
            (gsk_path_foreach_trampoline_add_curve func) user_data
        else
          gsk_curve_decompose curve tolerance
            (gsk_path_foreach_trampoline_add_line func) user_data
  end.

(** The loop of [gsk_path_foreach_with_tolerance]. *)
Fixpoint foreach_contours (l : list GskContour) (tolerance : gdouble)
    (func : GskPathForeachFunc S) (user_data : S) : bool * S :=
  match l with
  | [] => (true, user_data)
  | c :: l' =>
      let (ok, user_data') := gsk_contour_foreach c tolerance func user_data in
      if negb ok then (false, user_data')
      else foreach_contours l' tolerance func user_data'
  end.

Definition gsk_path_foreach_with_tolerance (self : GskPath) (flags : Z)
    (tolerance : gdouble) (func : GskPathForeachFunc S) (user_data : S)
    : bool * S :=
  let func :=
    if negb (Z.land flags ALLOW_ANY =? ALLOW_ANY)
    then gsk_path_foreach_trampoline flags tolerance func
    else func in
  foreach_contours (contours self) tolerance func user_data.

Definition gsk_path_foreach (self : GskPath) (flags : Z)
    (func : GskPathForeachFunc S) (user_data : S) : bool * S :=
  gsk_path_foreach_with_tolerance self flags GSK_PATH_TOLERANCE_DEFAULT func user_data.

(** The operations that the flags let through. *)
Definition allowed (flags : Z) (op : GskPathOperation) : bool :=
  match op with
  | GSK_PATH_MOVE | GSK_PATH_CLOSE | GSK_PATH_LINE => true
  | GSK_PATH_QUAD => flag_allowed flags GSK_PATH_FOREACH_ALLOW_QUAD
  | GSK_PATH_CUBIC => flag_allowed flags GSK_PATH_FOREACH_ALLOW_CUBIC
  | GSK_PATH_ARC => flag_allowed flags GSK_PATH_FOREACH_ALLOW_ARC
  end.

(** [run] reaches the user data through calls of its callback with
    operations of [P] alone: what such calls keep true of the user data is
    true after [run]. *)
Definition calls_only (P : GskPathOperation -> bool)
    (run : GskPathForeachFunc S -> S -> bool * S) : Prop :=
  forall (I : S -> Prop) (func : GskPathForeachFunc S),
    (forall op pts s, P op = true -> I s -> I (snd (func op pts s))) ->
    forall s, I s -> I (snd (run func s)).

(** The same for the callback of [gsk_curve_decompose], which gets
    lines. *)
Definition adds_lines_only
    (run : (graphene_point_t -> graphene_point_t -> float -> float ->
            GskCurveLineReason -> S -> bool * S) -> S -> bool * S) : Prop :=
  forall (I : S -> Prop) add_line,
    (forall from to p1 p2 reason s, I s -> I (snd (add_line from to p1 p2 reason s))) ->
    forall s, I s -> I (snd (run add_line s)).

End Foreach.

Section Cairo.

Context {CC : GskContourClass} {GC : GskCurveClass}.

Inductive cairo_call : Type :=
| cairo_move_to (x y : float)
| cairo_close_path
| cairo_line_to (x y : float)
| cairo_curve_to (x1 y1 x2 y2 x3 y3 : float).

(** A cairo context: its tolerance, the calls made on it, and whether
    [g_assert_not_reached] has been reached. *)
Record cairo_t : Type := mkCairo {
  cairo_get_tolerance : gdouble;
  cairo_calls : list cairo_call;
  not_reached : bool
}.

Definition cairo_do (cr : cairo_t) (call : cairo_call) : cairo_t :=
  {| cairo_get_tolerance := cairo_get_tolerance cr;
     cairo_calls := cairo_calls cr ++ [call];
     not_reached := not_reached cr |}.

Definition gsk_path_to_cairo_add_op (op : GskPathOperation)
    (pts : list graphene_point_t) (cr : cairo_t) : bool * cairo_t :=
  match op with
  | GSK_PATH_MOVE =>
      (true, cairo_do cr (cairo_move_to (point_x (pts_at pts 0)) (point_y (pts_at pts 0))))
  | GSK_PATH_CLOSE => (true, cairo_do cr cairo_close_path)
  | GSK_PATH_LINE =>
      (true, cairo_do cr (cairo_line_to (point_x (pts_at pts 1)) (point_y (pts_at pts 1))))
  | GSK_PATH_CUBIC =>
      (true, cairo_do cr (cairo_curve_to
                            (point_x (pts_at pts 1)) (point_y (pts_at pts 1))
                            (point_x (pts_at pts 2)) (point_y (pts_at pts 2))
                            (point_x (pts_at pts 3)) (point_y (pts_at pts 3))))
  | GSK_PATH_QUAD | GSK_PATH_ARC =>
      (false, {| cairo_get_tolerance := cairo_get_tolerance cr;
                 cairo_calls := cairo_calls cr;
                 not_reached := true |})
  end.

Definition gsk_path_to_cairo (self : GskPath) (cr : cairo_t) : cairo_t :=
  snd (gsk_path_foreach_with_tolerance self GSK_PATH_FOREACH_ALLOW_CUBIC
         (cairo_get_tolerance cr) gsk_path_to_cairo_add_op cr).

End Cairo.

(* ================================================================== *)
(** * An implementation of the other interfaces *)

(** The closest point of a sample contour is the corner of its box with
    the least coordinates, at the sum of the distances along the axes; a
    contour is walked as one move, one curve of each kind and a close;
    curves are approximated by the line between their end points, or by a
    quadratic curve when the flags allow one. *)
Module SampleMore.

Import PathPoint Sample.

Definition q_abs (a : Q) : Q := if Qle_bool 0 a then a else Qred (- a).

Definition corner_distance (c : sample_contour) (pt : Q * Q) : Q :=
  Qred (q_abs (fst pt - min_x (c_bounds c)) + q_abs (snd pt - min_y (c_bounds c))).

#[export] Instance sample_points : GskContourPointClass := {|
  gsk_contour_get_closest_point := fun c pt threshold =>
    if Qle_bool (corner_distance c pt) threshold
    then Some ({| contour := 0; idx := 1; t := 0 |}, corner_distance c pt)
    else None
|}.

(** Calls [func] for each operation until it returns [FALSE]. *)
Fixpoint run_ops (S : Type) (ops : list (GskPathOperation * list (Q * Q)))
    (func : GskPathForeachFunc S) (s : S) : bool * S :=
  match ops with
  | [] => (true, s)
  | (op, pts) :: ops' =>
      let (ok, s') := func op pts s in
      if ok then run_ops ops' func s' else (false, s')
  end.

Definition contour_ops (c : sample_contour) : list (GskPathOperation * list (Q * Q)) :=
  let o := (min_x (c_bounds c), min_y (c_bounds c)) in
  let a := (max_x (c_bounds c), min_y (c_bounds c)) in
  let b := (max_x (c_bounds c), max_y (c_bounds c)) in
  let d := (min_x (c_bounds c), max_y (c_bounds c)) in
  [ (GSK_PATH_MOVE, [o]);
    (GSK_PATH_LINE, [o; a]);
    (GSK_PATH_QUAD, [a; b; d]);
    (GSK_PATH_CUBIC, [d; b; a; o]);
    (GSK_PATH_ARC, [o; a; b]);
    (GSK_PATH_CLOSE, [b; o]) ].

Definition ends (pts : list (Q * Q)) : list (Q * Q) :=
  [nth 0 pts (0, 0)%Q; last pts (0, 0)%Q].

#[export] Instance sample_curves : GskCurveClass := {|
  float := Q;
  gdouble := Q;
  GskCurve := list (Q * Q);
  gskpathop := GskPathOperation * list (Q * Q);
  GskCurveLineReason := unit;
  GSK_PATH_TOLERANCE_DEFAULT := (1 # 2)%Q;
  f_of_int := inject_Z;
  f_add := fun a b => Qred (a + b);
  f_mul := fun a b => Qred (a * b);
  f_div := fun a b => Qred (a / b);
  point_x := fst;
  point_y := snd;
  GRAPHENE_POINT_INIT := pair;
  gsk_pathop_encode := pair;
  gsk_curve_init := snd;
  gsk_contour_foreach := fun S c tolerance func s => run_ops (contour_ops c) func s;
  gsk_curve_decompose := fun S curve tolerance add_line s =>
    add_line (nth 0 curve (0, 0)%Q) (last curve (0, 0)%Q) 0%Q 1%Q tt s;
  gsk_curve_decompose_curve := fun S curve flags tolerance func s =>
    if flag_allowed flags GSK_PATH_FOREACH_ALLOW_QUAD
    then func GSK_PATH_QUAD
           [nth 0 curve (0, 0)%Q; nth 1 curve (0, 0)%Q; last curve (0, 0)%Q] s
    else func GSK_PATH_LINE (ends curve) s
|}.

(** The callback of [collect_path] in the tests, for the operations
    alone. *)
Definition collect_operation : GskPathForeachFunc (list GskPathOperation) :=
  fun op pts user_data => (true, user_data ++ [op]).

Lemma run_ops_calls (S : Type) (ops : list (GskPathOperation * list (Q * Q)))
    (P : GskPathOperation -> bool) :
  (forall op pts, In (op, pts) ops -> P op = true) ->
  calls_only P (fun func : GskPathForeachFunc S => run_ops ops func).
Proof.
  intros Hops I func Hfunc. induction ops as [|[op pts] ops IH]; intros s Hs.
  - exact Hs.
  - cbn [run_ops].
    assert (H := Hfunc op pts s (Hops op pts (or_introl eq_refl)) Hs).
    destruct (func op pts s) as [ok s']. cbn [snd] in H.
    destruct ok; [|exact H].
    apply IH; [|exact H]. intros op' pts' Hin. apply (Hops op' pts'). right. exact Hin.
Qed.

Lemma sample_contour_calls (S : Type) (c : GskContour) (tolerance : gdouble) :
  calls_only (fun _ => true) (@gsk_contour_foreach _ _ S c tolerance).
Proof. apply run_ops_calls. reflexivity. Qed.

Lemma sample_decompose_lines (S : Type) (curve : GskCurve) (tolerance : gdouble) :
  adds_lines_only (@gsk_curve_decompose _ _ S curve tolerance).
Proof. intros I add_line Hadd s Hs. apply Hadd. exact Hs. Qed.

Lemma sample_decompose_curve_flags (S : Type) (curve : GskCurve) (flags : Z)
    (tolerance : gdouble) :
  calls_only (allowed flags) (@gsk_curve_decompose_curve _ _ S curve flags tolerance).
Proof.
  intros I func Hfunc s Hs.
  change (I (snd (if flag_allowed flags GSK_PATH_FOREACH_ALLOW_QUAD
                  then func GSK_PATH_QUAD
                         [nth 0 curve (0, 0)%Q; nth 1 curve (0, 0)%Q;
                          last curve (0, 0)%Q] s
                  else func GSK_PATH_LINE (ends curve) s))).
  destruct (flag_allowed flags GSK_PATH_FOREACH_ALLOW_QUAD) eqn:Hq.
  - apply Hfunc; [exact Hq|exact Hs].
  - apply Hfunc; [reflexivity|exact Hs].
Qed.

End SampleMore.

(* ================================================================== *)
(** * Properties of path points *)

Module PathPointFacts.

Import PathPoint.

Lemma gsize_wrap_succ (n : Z) : 0 <= n < G_MAXSIZE -> gsize_wrap (n + 1) = n + 1.
Proof.
  unfold gsize_wrap, G_MAXSIZE. intros H. apply Z.mod_small. lia.
Qed.

Lemma inject_Z_succ_le (a b : Z) : a < b -> (inject_Z a + 1 <= inject_Z b)%Q.
Proof.
  intros H. assert (H1 : a + 1 <= b) by lia.
  rewrite Zle_Qle, inject_Z_plus in H1. exact H1.
Qed.

(** ** Equality *)

Lemma gsk_path_point_equal_true (p q : GskRealPathPoint) :
  gsk_path_point_equal p q = true <->
  contour p = contour q /\
  ((idx p = idx q /\ (t p == t q)%Q) \/
   (gsize_wrap (idx p + 1) = idx q /\ (t p == 1)%Q /\ (t q == 0)%Q) \/
   (idx p = gsize_wrap (idx q + 1) /\ (t p == 0)%Q /\ (t q == 1)%Q)).
Proof.
  unfold gsk_path_point_equal.
  destruct (Z.eqb_spec (contour p) (contour q)) as [Hc|Hc].
  - match goal with
    | |- (if ?b then true else false) = true <-> _ =>
        replace (if b then true else false) with b by (destruct b; reflexivity)
    end.
    rewrite !orb_true_iff, !andb_true_iff, !Z.eqb_eq, !Qeq_bool_iff. tauto.
  - split; [discriminate | tauto].
Qed.

Lemma gsk_path_point_equal_sym (p q : GskRealPathPoint) :
  gsk_path_point_equal p q = gsk_path_point_equal q p.
Proof.
  apply Bool.eq_true_iff_eq. rewrite !gsk_path_point_equal_true.
  intuition (auto; try (symmetry; assumption)).
Qed.

Lemma gsk_path_point_equal_false_contour (p q : GskRealPathPoint) :
  contour p <> contour q -> gsk_path_point_equal p q = false.
Proof.
  intros H. apply Bool.not_true_iff_false. rewrite gsk_path_point_equal_true. tauto.
Qed.

(** ** Comparison *)

(** When the points are not equal the result is the lexicographic
    comparison of the triples, whatever the triples are. *)
Lemma gsk_path_point_compare_lex (p q : GskRealPathPoint) :
  gsk_path_point_equal p q = false ->
  gsk_path_point_compare p q = lex_compare p q.
Proof.
  intros He. unfold gsk_path_point_compare, lex_compare. rewrite He.
  rewrite !Z.gtb_ltb.
  destruct (Z.compare_spec (contour p) (contour q)) as [Hc|Hc|Hc].
  - rewrite Hc, Z.ltb_irrefl.
    destruct (Z.compare_spec (idx p) (idx q)) as [Hi|Hi|Hi].
    + rewrite Hi, Z.ltb_irrefl. unfold Qltb.
      rewrite <- (Qcompare_antisym (t p) (t q)).
      destruct (t p ?= t q)%Q; reflexivity.
    + apply Z.ltb_lt in Hi. rewrite Hi. reflexivity.
    + assert (H1 : (idx p <? idx q) = false) by (apply Z.ltb_ge; lia).
      apply Z.ltb_lt in Hi. rewrite H1, Hi. reflexivity.
  - apply Z.ltb_lt in Hc. rewrite Hc. reflexivity.
  - assert (H1 : (contour p <? contour q) = false) by (apply Z.ltb_ge; lia).
    apply Z.ltb_lt in Hc. rewrite H1, Hc. reflexivity.
Qed.

Lemma lex_compare_antisym (p q : GskRealPathPoint) :
  lex_compare p q = - lex_compare q p.
Proof.
  unfold lex_compare.
  rewrite (Z.compare_antisym (contour q) (contour p)).
  rewrite (Z.compare_antisym (idx q) (idx p)).
  rewrite <- (Qcompare_antisym (t q) (t p)).
  destruct (contour q ?= contour p); simpl; try reflexivity.
  destruct (idx q ?= idx p); simpl; try reflexivity.
  destruct (t q ?= t p)%Q; reflexivity.
Qed.

Lemma lex_compare_zero (p q : GskRealPathPoint) :
  lex_compare p q = 0 <-> same_triple p q.
Proof.
  unfold lex_compare, same_triple.
  destruct (Z.compare_spec (contour p) (contour q)) as [Hc|Hc|Hc];
    try (simpl; split; [discriminate | lia]).
  destruct (Z.compare_spec (idx p) (idx q)) as [Hi|Hi|Hi];
    try (simpl; split; [discriminate | lia]).
  rewrite Qeq_alt.
  destruct (t p ?= t q)%Q; simpl; split; intros H;
    try discriminate; try tauto; destruct H as (_ & _ & H); discriminate.
Qed.

Lemma gsk_path_point_compare_values (p q : GskRealPathPoint) :
  gsk_path_point_compare p q = -1 \/
  gsk_path_point_compare p q = 0 \/
  gsk_path_point_compare p q = 1.
Proof.
  unfold gsk_path_point_compare.
  repeat match goal with
  | |- context [if ?b then _ else _] => destruct b
  end; auto.
Qed.

Lemma gsk_path_point_compare_zero (p q : GskRealPathPoint) :
  gsk_path_point_compare p q = 0 <-> gsk_path_point_equal p q = true.
Proof.
  destruct (gsk_path_point_equal p q) eqn:He.
  - unfold gsk_path_point_compare. rewrite He. tauto.
  - rewrite (gsk_path_point_compare_lex _ _ He), lex_compare_zero.
    split; [|discriminate].
    intros (H1 & H2 & H3).
    apply Bool.not_true_iff_false in He. exfalso. apply He.
    apply gsk_path_point_equal_true. tauto.
Qed.

Lemma gsk_path_point_compare_antisym (p q : GskRealPathPoint) :
  gsk_path_point_compare p q = - gsk_path_point_compare q p.
Proof.
  destruct (gsk_path_point_equal p q) eqn:He.
  - assert (He' := He). rewrite gsk_path_point_equal_sym in He'.
    apply gsk_path_point_compare_zero in He, He'. rewrite He, He'. reflexivity.
  - assert (He' := He). rewrite gsk_path_point_equal_sym in He'.
    rewrite (gsk_path_point_compare_lex _ _ He), (gsk_path_point_compare_lex _ _ He').
    apply lex_compare_antisym.
Qed.

(** ** The order on valid points *)

Lemma sign_of_le0 (c : comparison) : sign_of c <= 0 <-> c <> Gt.
Proof. destruct c; simpl; split; intros; try lia; congruence. Qed.

Lemma Qcompare_not_Gt (a b : Q) : (a ?= b)%Q <> Gt <-> (a <= b)%Q.
Proof.
  rewrite <- Qgt_alt. split.
  - apply Qnot_lt_le.
  - intros H H'. exact (Qlt_not_le _ _ H' H).
Qed.

(** On valid points of one contour, [equal] is equality of positions. *)
Lemma gsk_path_point_equal_position (p q : GskRealPathPoint) :
  valid_point p -> valid_point q ->
  (gsk_path_point_equal p q = true <->
   contour p = contour q /\ (position p == position q)%Q).
Proof.
  intros (_ & Hip & Htp) (_ & Hiq & Htq).
  rewrite gsk_path_point_equal_true, !gsize_wrap_succ by assumption.
  unfold position. split.
  - intros (Hc & [(Hi & Ht)|[(Hi & H1 & H0)|(Hi & H0 & H1)]]); split; trivial.
    + rewrite Hi, Ht. reflexivity.
    + rewrite <- Hi, inject_Z_plus, H1, H0. change (inject_Z 1) with 1%Q. lra.
    + rewrite Hi, inject_Z_plus, H1, H0. change (inject_Z 1) with 1%Q. lra.
  - intros (Hc & Hpos). split; trivial.
    destruct (Z.lt_total (idx p) (idx q)) as [Hlt|[Heq|Hgt]].
    + right; left.
      assert (H1 := inject_Z_succ_le Hlt).
      destruct (Z.eq_dec (idx p + 1) (idx q)) as [He|Hne].
      * rewrite <- He, inject_Z_plus in Hpos. change (inject_Z 1) with 1%Q in Hpos.
        repeat split; trivial; lra.
      * assert (H2 : idx p + 1 < idx q) by lia.
        apply inject_Z_succ_le in H2. rewrite inject_Z_plus in H2.
        change (inject_Z 1) with 1%Q in H2. lra.
    + left. rewrite Heq in Hpos. split; trivial. lra.
    + right; right.
      assert (H1 := inject_Z_succ_le Hgt).
      destruct (Z.eq_dec (idx q + 1) (idx p)) as [He|Hne].
      * rewrite <- He, inject_Z_plus in Hpos. change (inject_Z 1) with 1%Q in Hpos.
        repeat split; auto; lra.
      * assert (H2 : idx q + 1 < idx p) by lia.
        apply inject_Z_succ_le in H2. rewrite inject_Z_plus in H2.
        change (inject_Z 1) with 1%Q in H2. lra.
Qed.

(** On valid points the comparison orders by contour, then by position. *)
Lemma gsk_path_point_compare_le (p q : GskRealPathPoint) :
  valid_point p -> valid_point q ->
  (gsk_path_point_compare p q <= 0 <->
   contour p < contour q \/
   (contour p = contour q /\ (position p <= position q)%Q)).
Proof.
  intros Hp Hq.
  destruct (gsk_path_point_equal p q) eqn:He.
  - assert (H0 : gsk_path_point_compare p q = 0)
      by (apply gsk_path_point_compare_zero; exact He).
    apply (gsk_path_point_equal_position Hp Hq) in He. destruct He as [Hc Hpos].
    rewrite H0. split; [intros _|lia]. right. split; trivial. lra.
  - rewrite (gsk_path_point_compare_lex _ _ He).
    assert (Hne : ~ (contour p = contour q /\ (position p == position q)%Q)).
    { intros H. apply (gsk_path_point_equal_position Hp Hq) in H. congruence. }
    destruct Hp as (_ & Hip & Htp). destruct Hq as (_ & Hiq & Htq).
    unfold lex_compare, position in *.
    destruct (Z.compare_spec (contour p) (contour q)) as [Hc|Hc|Hc];
      simpl; try (split; intros; lia).
    destruct (Z.compare_spec (idx p) (idx q)) as [Hi|Hi|Hi]; simpl.
    + rewrite sign_of_le0, Qcompare_not_Gt. rewrite Hi.
      split.
      * intros H. right. split; trivial. lra.
      * intros [H|[_ H]]; [lia | lra].
    + split; [intros _|lia]. right. split; trivial.
      apply inject_Z_succ_le in Hi. lra.
    + split; [lia|]. intros [H|[_ H]]; [lia|].
      exfalso. apply Hne. split; trivial.
      assert (H1 := inject_Z_succ_le Hi). lra.
Qed.

Lemma gsk_path_point_compare_trans (p q r : GskRealPathPoint) :
  valid_point p -> valid_point q -> valid_point r ->
  gsk_path_point_compare p q <= 0 ->
  gsk_path_point_compare q r <= 0 ->
  gsk_path_point_compare p r <= 0.
Proof.
  intros Hp Hq Hr.
  rewrite (gsk_path_point_compare_le Hp Hq), (gsk_path_point_compare_le Hq Hr),
    (gsk_path_point_compare_le Hp Hr).
  intros [H1|[H1 H1']] [H2|[H2 H2']]; try (left; lia).
  right. split; [lia | lra].
Qed.

Lemma gsk_path_point_same_location (p q : GskRealPathPoint) :
  valid_point p -> valid_point q ->
  (gsk_path_point_equal p q = true <->
   same_triple p q \/ boundary_pair p q \/ boundary_pair q p).
Proof.
  intros (_ & Hip & _) (_ & Hiq & _).
  rewrite gsk_path_point_equal_true, !gsize_wrap_succ by assumption.
  unfold same_triple, boundary_pair. intuition (auto; try lia).
Qed.

(** ** Equality and order of locations *)

(** C4.  On path points (indices in range, parameter in [[0, 1]]),
    [gsk_path_point_equal] holds exactly when the triples
    (contour, idx, t) match or the two points are the two representations
    (i, s, 1) and (i, s + 1, 0) of one operation boundary; and
    [gsk_path_point_compare] is a total order on locations: it returns 0
    on equal points, the lexicographic comparison of the triples (which is
    then non-zero) on all others, and it is reflexive, antisymmetric up to
    [gsk_path_point_equal], transitive and total. *)
Theorem gsk_path_point_equal_and_order (p q r : GskRealPathPoint) :
  valid_point p -> valid_point q -> valid_point r ->
  (gsk_path_point_equal p q = true <->
     same_triple p q \/ boundary_pair p q \/ boundary_pair q p) /\
  (gsk_path_point_equal p q = true -> gsk_path_point_compare p q = 0) /\
  (gsk_path_point_equal p q = false ->
     gsk_path_point_compare p q = lex_compare p q /\ lex_compare p q <> 0) /\
  gsk_path_point_compare p p = 0 /\
  (gsk_path_point_compare p q <= 0 -> gsk_path_point_compare q p <= 0 ->
     gsk_path_point_equal p q = true) /\
  (gsk_path_point_compare p q <= 0 -> gsk_path_point_compare q r <= 0 ->
     gsk_path_point_compare p r <= 0) /\
  (gsk_path_point_compare p q <= 0 \/ gsk_path_point_compare q p <= 0).
Proof.
  intros Hp Hq Hr.
  assert (Hanti := gsk_path_point_compare_antisym p q).
  repeat split.
  - apply (gsk_path_point_same_location Hp Hq).
  - apply (gsk_path_point_same_location Hp Hq).
  - apply gsk_path_point_compare_zero.
  - apply gsk_path_point_compare_lex. assumption.
  - rewrite <- (gsk_path_point_compare_lex _ _ H), gsk_path_point_compare_zero.
    congruence.
  - apply gsk_path_point_compare_zero.
    apply gsk_path_point_equal_true. split; [reflexivity|]. left.
    split; reflexivity.
  - intros H1 H2. apply gsk_path_point_compare_zero. lia.
  - apply gsk_path_point_compare_trans; assumption.
  - lia.
Qed.

Lemma gsk_path_point_equal_and_order_witness :
  let p := mkPoint 0 1 1 in
  let q := mkPoint 0 2 0 in
  let r := mkPoint 0 2 (1 # 2) in
  valid_point p /\ valid_point q /\ valid_point r /\
  (gsk_path_point_equal p q = true <->
     same_triple p q \/ boundary_pair p q \/ boundary_pair q p) /\
  (gsk_path_point_equal p q = true -> gsk_path_point_compare p q = 0) /\
  (gsk_path_point_compare p q <= 0 -> gsk_path_point_compare q r <= 0 ->
     gsk_path_point_compare p r <= 0).
Proof.
  intros p q r.
  assert (Hp : valid_point p) by (vm_compute; intuition discriminate).
  assert (Hq : valid_point q) by (vm_compute; intuition discriminate).
  assert (Hr : valid_point r) by (vm_compute; intuition discriminate).
  repeat (split; [assumption|]).
  destruct (gsk_path_point_equal_and_order Hp Hq Hr)
    as (H1 & H2 & _ & _ & _ & H6 & _).
  exact (conj H1 (conj H2 H6)).
Defined.

(** C10.  Comparison and equality of path points agree.  On path points
    (indices in range, parameter a number of [[0, 1]])
    [gsk_path_point_compare] returns 0 exactly when [gsk_path_point_equal]
    holds, swapping the arguments negates the result, and two points of
    different contours are never equal and never compare as 0. *)
Theorem gsk_path_point_compare_consistent (p q : GskRealPathPoint) :
  valid_point p -> valid_point q ->
  (gsk_path_point_compare p q = 0 <-> gsk_path_point_equal p q = true) /\
  gsk_path_point_compare p q = - gsk_path_point_compare q p /\
  (contour p <> contour q ->
     gsk_path_point_equal p q = false /\ gsk_path_point_compare p q <> 0).
Proof.
  intros _ _.
  split; [apply gsk_path_point_compare_zero|].
  split; [apply gsk_path_point_compare_antisym|].
  intros Hc. assert (He := gsk_path_point_equal_false_contour _ _ Hc).
  split; [exact He|].
  rewrite gsk_path_point_compare_zero. congruence.
Qed.

Lemma gsk_path_point_compare_consistent_witness :
  let p := mkPoint 0 1 1 in
  let q := mkPoint 1 1 1 in
  valid_point p /\ valid_point q /\
  (gsk_path_point_compare p q = 0 <-> gsk_path_point_equal p q = true) /\
  gsk_path_point_compare p q = - gsk_path_point_compare q p /\
  (contour p <> contour q ->
     gsk_path_point_equal p q = false /\ gsk_path_point_compare p q <> 0).
Proof.
  intros p q.
  assert (Hp : valid_point p) by (vm_compute; intuition discriminate).
  assert (Hq : valid_point q) by (vm_compute; intuition discriminate).
  split; [exact Hp|]. split; [exact Hq|].
  exact (gsk_path_point_compare_consistent Hp Hq).
Defined.

End PathPointFacts.

(* ================================================================== *)
(** * Properties of the path aggregate *)

Section PathFacts.

Context {CC : GskContourClass}.

Import PathPoint.

Lemma n_contours_zero (self : GskPath) :
  (n_contours self =? 0) = true <-> contours self = [].
Proof.
  unfold n_contours. rewrite Z.eqb_eq.
  destruct (contours self); simpl; split; intros H; try reflexivity;
    try discriminate; lia.
Qed.

Lemma copy_contours_id (l : list GskContour) : copy_contours l = l.
Proof. induction l as [|c l IH]; simpl; [|rewrite IH]; reflexivity. Qed.

(** ** Flags *)

Lemma fold_right_land_acc (l : list GskContour) (acc x : Z) :
  fold_right (fun c a => Z.land (gsk_contour_get_flags c) a) (Z.land acc x) l =
  Z.land x (fold_right (fun c a => Z.land (gsk_contour_get_flags c) a) acc l).
Proof.
  induction l as [|d l IH]; simpl.
  - apply Z.land_comm.
  - rewrite IH, !Z.land_assoc. f_equal. apply Z.land_comm.
Qed.

Lemma collect_flags_and (l : list GskContour) (acc : Z) :
  collect_flags acc l =
  fold_right (fun c a => Z.land (gsk_contour_get_flags c) a) acc l.
Proof.
  revert acc. induction l as [|c l IH]; intros acc; simpl; [reflexivity|].
  rewrite IH. apply fold_right_land_acc.
Qed.

Lemma flag_set_land (flag a b : Z) :
  flag_set flag (Z.land a b) <-> flag_set flag a /\ flag_set flag b.
Proof.
  unfold flag_set. split.
  - intros H. split; apply Z.bits_inj'; intros n Hn;
      apply (f_equal (fun z => Z.testbit z n)) in H;
      rewrite !Z.land_spec in *; destruct (Z.testbit flag n);
      destruct (Z.testbit a n); destruct (Z.testbit b n);
      simpl in *; congruence.
  - intros [Ha Hb]. rewrite <- Z.land_assoc, Hb. exact Ha.
Qed.

Lemma flag_set_lor_l (a b : Z) : flag_set a (Z.lor a b).
Proof.
  unfold flag_set. apply Z.bits_inj'. intros n _.
  rewrite Z.land_spec, Z.lor_spec.
  destruct (Z.testbit a n), (Z.testbit b n); reflexivity.
Qed.

Lemma flag_set_lor_r (a b : Z) : flag_set b (Z.lor a b).
Proof. rewrite Z.lor_comm. apply flag_set_lor_l. Qed.

Lemma flag_set_and_of_flags (flag : Z) (l : list GskContour) :
  flag_set flag (Z.lor GSK_PATH_CLOSED GSK_PATH_FLAT) ->
  (flag_set flag (and_of_flags l) <->
   forall c, In c l -> flag_set flag (gsk_contour_get_flags c)).
Proof.
  intros H0. unfold and_of_flags. induction l as [|c l IH]; simpl.
  - split; [intros _ c []|intros _; exact H0].
  - rewrite flag_set_land, IH. split.
    + intros [Hc Hl] d [<-|Hd]; auto.
    + intros H. split; [apply H; left; reflexivity|].
      intros d Hd. apply H. right. exact Hd.
Qed.

(** C6.  The flags of a path built from a list of contours are the bitwise
    AND of [GSK_PATH_CLOSED | GSK_PATH_FLAT] with the flags of all its
    contours: each of the two flags is set in the path exactly when it is
    set in every contour, both are set when there is no contour, and
    [gsk_path_get_flags] returns this value for the contours that the path
    holds. *)
Theorem gsk_path_flags_and_of_contours (l : list GskContour) :
  let path := gsk_path_new_from_contours l in
  contours path = l /\
  gsk_path_get_flags path = and_of_flags (contours path) /\
  (flag_set GSK_PATH_CLOSED (gsk_path_get_flags path) <->
     forall c, In c l -> flag_set GSK_PATH_CLOSED (gsk_contour_get_flags c)) /\
  (flag_set GSK_PATH_FLAT (gsk_path_get_flags path) <->
     forall c, In c l -> flag_set GSK_PATH_FLAT (gsk_contour_get_flags c)) /\
  gsk_path_get_flags (gsk_path_new_from_contours []) =
    Z.lor GSK_PATH_CLOSED GSK_PATH_FLAT /\
  flag_set GSK_PATH_CLOSED (gsk_path_get_flags (gsk_path_new_from_contours [])) /\
  flag_set GSK_PATH_FLAT (gsk_path_get_flags (gsk_path_new_from_contours [])).
Proof.
  assert (Hflags : gsk_path_get_flags (gsk_path_new_from_contours l) = and_of_flags l).
  { unfold gsk_path_get_flags, gsk_path_new_from_contours, and_of_flags. simpl.
    apply collect_flags_and. }
  cbv zeta.
  change (contours (gsk_path_new_from_contours l)) with (copy_contours l).
  rewrite copy_contours_id. repeat split.
  - exact Hflags.
  - rewrite Hflags. apply flag_set_and_of_flags, flag_set_lor_l.
  - rewrite Hflags. apply flag_set_and_of_flags, flag_set_lor_l.
  - rewrite Hflags. apply flag_set_and_of_flags, flag_set_lor_r.
  - rewrite Hflags. apply flag_set_and_of_flags, flag_set_lor_r.
  - apply flag_set_lor_l.
  - apply flag_set_lor_r.
Qed.

(** ** Closed paths *)

(** C5.  [gsk_path_is_closed] holds exactly for the paths made of one
    contour whose flags have [GSK_PATH_CLOSED]; the path without contours
    is not closed, and no path of two or more contours is, whatever the
    flags of its contours are. *)
Theorem gsk_path_is_closed_single_contour (self : GskPath) :
  (gsk_path_is_closed self = true <->
     exists c, contours self = [c] /\
               Z.land (gsk_contour_get_flags c) GSK_PATH_CLOSED <> 0) /\
  (contours self = [] -> gsk_path_is_closed self = false) /\
  (forall c1 c2 others, contours self = c1 :: c2 :: others ->
     gsk_path_is_closed self = false).
Proof.
  unfold gsk_path_is_closed, gsk_path_get_contour, n_contours.
  destruct (contours self) as [|c1 [|c2 others]] eqn:Hc.
  - simpl. repeat split; try discriminate.
    intros (c & H & _). discriminate.
  - simpl. repeat split; try discriminate.
    + intros H. exists c1. split; [reflexivity|].
      apply negb_true_iff, Z.eqb_neq in H. exact H.
    + intros (c & H & Hf). injection H as <-.
      apply negb_true_iff, Z.eqb_neq. exact Hf.
  - replace (Z.of_nat (List.length (c1 :: c2 :: others)) =? 1) with false.
    + simpl. repeat split; try discriminate.
      intros (c & H & _). discriminate.
    + symmetry. apply Z.eqb_neq. simpl List.length. lia.
Qed.

(** ** Bounds *)

Lemma union_bounds_fold (l : list GskContour) (b : GskBoundingBox) :
  union_bounds b l =
  fold_left gsk_bounding_box_union (map gsk_contour_get_bounds l) b.
Proof.
  revert b. induction l as [|c l IH]; intros b; simpl; [reflexivity|apply IH].
Qed.

(** The boolean result of [gsk_path_get_stroke_bounds] follows the same
    rule. *)
Lemma gsk_path_get_stroke_bounds_empty (self : GskPath) (stroke : GskStroke) :
  (fst (gsk_path_get_stroke_bounds self stroke) = false <-> contours self = []) /\
  (contours self = [] ->
     gsk_path_get_stroke_bounds self stroke = (false, graphene_rect_zero)).
Proof.
  unfold gsk_path_get_stroke_bounds.
  destruct (n_contours self =? 0) eqn:Hn.
  - apply n_contours_zero in Hn. simpl. tauto.
  - destruct (contours self) as [|c0 others] eqn:Hc.
    + exfalso. apply Bool.not_true_iff_false in Hn. apply Hn.
      apply n_contours_zero. exact Hc.
    + simpl. split; [split|]; discriminate.
Qed.

(** C7.  [gsk_path_get_bounds] returns [FALSE] exactly for the path
    without contours, and then stores the zero rectangle; for a path with
    at least one contour it returns [TRUE] and stores the union of the
    bounds of its contours, so that its boolean result tells the empty
    path from any path that has a contour.  The boolean result of
    [gsk_path_get_stroke_bounds] is the same. *)
Theorem gsk_path_get_bounds_empty_or_union (self : GskPath) :
  (fst (gsk_path_get_bounds self) = false <-> contours self = []) /\
  (gsk_path_get_bounds self = (false, graphene_rect_zero) <-> contours self = []) /\
  (contours self = [] ->
     gsk_path_get_bounds self = (false, graphene_rect_zero)) /\
  (forall c0 others, contours self = c0 :: others ->
     gsk_path_get_bounds self =
       (true, gsk_bounding_box_to_rect (bounds_union c0 others))) /\
  (forall other : GskPath, contours self = [] -> contours other <> [] ->
     fst (gsk_path_get_bounds self) <> fst (gsk_path_get_bounds other)) /\
  (forall stroke : GskStroke,
     fst (gsk_path_get_stroke_bounds self stroke) = fst (gsk_path_get_bounds self)).
Proof.
  assert (Hempty : forall p : GskPath, contours p = [] ->
            gsk_path_get_bounds p = (false, graphene_rect_zero)).
  { intros p Hp. unfold gsk_path_get_bounds.
    apply n_contours_zero in Hp. rewrite Hp. reflexivity. }
  assert (Hcons : forall (p : GskPath) c0 others, contours p = c0 :: others ->
            gsk_path_get_bounds p =
              (true, gsk_bounding_box_to_rect (bounds_union c0 others))).
  { intros p c0 others Hp. unfold gsk_path_get_bounds, bounds_union.
    destruct (n_contours p =? 0) eqn:Hn.
    - apply n_contours_zero in Hn. congruence.
    - rewrite Hp, union_bounds_fold. reflexivity. }
  repeat split.
  - intros H. destruct (contours self) as [|c0 others] eqn:Hc; [reflexivity|].
    rewrite (Hcons _ _ _ Hc) in H. discriminate.
  - intros H. rewrite (Hempty _ H). reflexivity.
  - intros H. destruct (contours self) as [|c0 others] eqn:Hc; [reflexivity|].
    rewrite (Hcons _ _ _ Hc) in H. discriminate.
  - exact (Hempty self).
  - exact (Hempty self).
  - exact (Hcons self).
  - intros other Hs Ho. rewrite (Hempty _ Hs).
    destruct (contours other) as [|c0 others] eqn:Hc; [congruence|].
    rewrite (Hcons _ _ _ Hc). discriminate.
  - intros stroke.
    destruct (gsk_path_get_stroke_bounds_empty self stroke) as [Hs _].
    destruct (contours self) as [|c0 others] eqn:Hc.
    + rewrite (Hempty _ Hc). apply Hs. reflexivity.
    + rewrite (Hcons _ _ _ Hc). simpl.
      destruct (fst (gsk_path_get_stroke_bounds self stroke)); [reflexivity|].
      destruct Hs as [Hs _]. discriminate (Hs eq_refl).
Qed.

(** ** Filling *)

Lemma int_wrap_in_range (n : Z) : G_MININT <= n <= G_MAXINT -> int_wrap n = n.
Proof.
  unfold int_wrap, G_MININT, G_MAXINT. intros H.
  rewrite Z.mod_small; lia.
Qed.

Lemma int_wrap_add_l (a b : Z) : int_wrap (int_wrap a + b) = int_wrap (a + b).
Proof.
  unfold int_wrap.
  replace ((a + 2 ^ 31) mod 2 ^ 32 - 2 ^ 31 + b + 2 ^ 31)
    with ((a + 2 ^ 31) mod 2 ^ 32 + b) by ring.
  rewrite Z.add_mod_idemp_l by lia.
  f_equal. f_equal. ring.
Qed.

Lemma int_wrap_odd (n : Z) : Z.odd (int_wrap n) = Z.odd n.
Proof.
  unfold int_wrap.
  rewrite (Z.mod_eq (n + 2 ^ 31) (2 ^ 32)) by lia.
  replace (n + 2 ^ 31 - 2 ^ 32 * ((n + 2 ^ 31) / 2 ^ 32) - 2 ^ 31)
    with (n + 2 * (- 2 ^ 31 * ((n + 2 ^ 31) / 2 ^ 32))) by ring.
  apply Z.odd_add_mul_2.
Qed.

Lemma land_1_odd (w : Z) : negb (Z.land w 1 =? 0) = Z.odd w.
Proof.
  change 1 with (Z.ones 1) at 1. rewrite Z.land_ones by lia.
  change (2 ^ 1) with 2. rewrite Zmod_odd.
  destruct (Z.odd w); reflexivity.
Qed.

Lemma int_wrap_idem (a : Z) : int_wrap (int_wrap a) = int_wrap a.
Proof.
  rewrite <- (Z.add_0_r (int_wrap a)) at 1. rewrite int_wrap_add_l. f_equal. lia.
Qed.

Lemma int_wrap_add_congr (x y k : Z) :
  int_wrap x = int_wrap y -> int_wrap (x + k) = int_wrap (y + k).
Proof.
  intros H. rewrite <- (int_wrap_add_l x), <- (int_wrap_add_l y), H. reflexivity.
Qed.

Lemma fold_winding_congr (point : graphene_point_t) (l : list GskContour) (x y : Z) :
  int_wrap x = int_wrap y ->
  int_wrap (fold_left (fun acc c => acc + gsk_contour_get_winding c point) l x) =
  int_wrap (fold_left (fun acc c => acc + gsk_contour_get_winding c point) l y).
Proof.
  revert x y. induction l as [|c l IH]; intros x y H; simpl; [exact H|].
  apply IH, int_wrap_add_congr, H.
Qed.

(** The loop computes the sum of the winding numbers, as an [int]. *)
Lemma sum_winding_fold (point : graphene_point_t) (l : list GskContour) (w : Z) :
  int_wrap w = w ->
  sum_winding w point l =
  int_wrap (fold_left (fun acc c => acc + gsk_contour_get_winding c point) l w).
Proof.
  revert w. induction l as [|c l IH]; intros w Hw; simpl.
  - symmetry. exact Hw.
  - rewrite IH by apply int_wrap_idem.
    apply fold_winding_congr, int_wrap_idem.
Qed.



(** Parity survives the wrap-around of [int], so the even-odd rule needs
    no bound on the sum. *)
Lemma gsk_path_in_fill_even_odd (self : GskPath) (point : graphene_point_t) :
  gsk_path_in_fill self point GSK_FILL_RULE_EVEN_ODD =
  Z.odd (total_winding self point).
Proof.
  unfold gsk_path_in_fill. rewrite land_1_odd, sum_winding_fold by reflexivity.
  apply int_wrap_odd.
Qed.

(** ** Start and end point *)

Lemma nth_error_last (A : Type) (front : list A) (x : A) :
  nth_error (front ++ [x]) (List.length front) = Some x.
Proof.
  induction front as [|y front IH]; simpl; [reflexivity|exact IH].
Qed.

(** C8.  For a path whose number of contours is a [gsize]:
    [gsk_path_get_start_point] and [gsk_path_get_end_point] fail exactly
    on the path without contours; otherwise the start point is
    (contour 0, operation 1, t = 0) and the end point is (last contour,
    number of operations of that contour minus one, t = 1). *)
Theorem gsk_path_get_start_end_point (self : GskPath) :
  n_contours self <= G_MAXSIZE ->
  (gsk_path_get_start_point self = None <-> contours self = []) /\
  (gsk_path_get_end_point self = None <-> contours self = []) /\
  (contours self <> [] ->
     gsk_path_get_start_point self = Some {| contour := 0; idx := 1; t := 0 |}) /\
  (forall front last, contours self = front ++ [last] ->
     gsk_path_get_end_point self =
       Some {| contour := n_contours self - 1;
               idx := gsize_wrap (gsk_contour_get_n_ops last - 1);
               t := 1 |} /\
     (1 <= gsk_contour_get_n_ops last <= G_MAXSIZE ->
      gsk_path_get_end_point self =
        Some {| contour := n_contours self - 1;
                idx := gsk_contour_get_n_ops last - 1;
                t := 1 |})).
Proof.
  intros Hfit.
  assert (Hend : forall front last, contours self = front ++ [last] ->
            gsk_path_get_end_point self =
              Some {| contour := n_contours self - 1;
                      idx := gsize_wrap (gsk_contour_get_n_ops last - 1);
                      t := 1 |}).
  { intros front last Hc. unfold gsk_path_get_end_point, gsk_path_get_contour.
    destruct (n_contours self =? 0) eqn:Hn.
    - apply n_contours_zero in Hn. rewrite Hn in Hc.
      destruct front; discriminate.
    - assert (Hlen : n_contours self = Z.of_nat (List.length front) + 1).
      { unfold n_contours. rewrite Hc, length_app. simpl. lia. }
      assert (Hw : gsize_wrap (n_contours self - 1) = n_contours self - 1).
      { unfold gsize_wrap, G_MAXSIZE in *. apply Z.mod_small. lia. }
      rewrite Hw, Hc.
      replace (Z.to_nat (n_contours self - 1)) with (List.length front) by lia.
      rewrite nth_error_last. reflexivity. }
  unfold gsk_path_get_start_point.
  destruct (contours self) as [|c l] eqn:Hc.
  - assert (Hn : (n_contours self =? 0) = true) by (apply n_contours_zero; exact Hc).
    unfold gsk_path_get_end_point. rewrite Hn.
    split; [tauto|]. split; [tauto|]. split; [tauto|].
    intros front last H. destruct front; discriminate.
  - assert (Hn : (n_contours self =? 0) = false).
    { apply Bool.not_true_iff_false. rewrite n_contours_zero. congruence. }
    rewrite Hn.
    destruct (exists_last (l := c :: l)) as (front & last & Hfl); [discriminate|].
    split; [split; discriminate|].
    split; [rewrite (Hend front last Hfl); split; discriminate|].
    split; [reflexivity|].
    intros front' last' H.
    split; [exact (Hend _ _ H)|].
    intros Hops. rewrite (Hend _ _ H). do 2 f_equal.
    unfold gsize_wrap, G_MAXSIZE in *. apply Z.mod_small. lia.
Qed.

(** ** Printing *)

(** [gsk_path_print] appends the texts of the contours, with one space
    between two of them and none at either end. *)
Lemma print_contours_later (i : nat) (l : list GskContour) (string : list ascii) :
  print_contours (S i) l string =
  string ++ List.concat (map (fun c => " "%char :: gsk_contour_print c) l).
Proof.
  revert i string. induction l as [|c l IH]; intros i string; simpl.
  - rewrite app_nil_r. reflexivity.
  - rewrite IH, <- !app_assoc. reflexivity.
Qed.

Lemma gsk_path_print_spaces (self : GskPath) (string : list ascii) :
  gsk_path_print self string =
  match contours self with
  | [] => string
  | c0 :: others =>
      string ++ gsk_contour_print c0 ++
      List.concat (map (fun c => " "%char :: gsk_contour_print c) others)
  end.
Proof.
  unfold gsk_path_print. destruct (contours self) as [|c0 others]; simpl.
  - reflexivity.
  - rewrite print_contours_later, app_assoc. reflexivity.
Qed.

End PathFacts.

(* ================================================================== *)
(** * Properties of the parser *)

Unset Implicit Arguments.

Section ParserFacts.

Context {PE : ParserEnv}.

(** The number of characters left in front of the terminator. *)
Definition remaining (p : cursor) : nat := List.length (chars p).

(** ** The pointer only moves forward *)

Lemma next_remaining (p : cursor) : (remaining (next p) <= remaining p)%nat.
Proof.
  unfold next, remaining. destruct (chars p) eqn:E; simpl; rewrite ?E; simpl; lia.
Qed.

Lemma next_left_lt (p : cursor) : chars p <> [] -> (remaining (next p) < remaining p)%nat.
Proof.
  unfold next, remaining. destruct (chars p) eqn:E; simpl; [congruence|lia].
Qed.

Lemma peek_not_nul (p : cursor) : Ascii.eqb (peek p) NUL = false -> chars p <> [].
Proof. unfold peek. destruct (chars p); [discriminate|congruence]. Qed.

Lemma advance_remaining (n : nat) (p : cursor) : (remaining (advance n p) <= remaining p)%nat.
Proof.
  revert p. induction n as [|n IH]; intros p; simpl; [lia|].
  specialize (IH (next p)). assert (H := next_remaining p). lia.
Qed.

Lemma advance_left_lt (n : nat) (p : cursor) :
  (0 < n)%nat -> chars p <> [] -> (remaining (advance n p) < remaining p)%nat.
Proof.
  intros Hn Hp. destruct n as [|n]; [lia|]. simpl.
  assert (H := advance_remaining n (next p)). assert (H' := next_left_lt p Hp). lia.
Qed.

Lemma skip_whitespace_from_remaining (b : option ascii) (l : list ascii) :
  (remaining (skip_whitespace_from b l) <= List.length l)%nat.
Proof.
  revert b. induction l as [|c l IH]; intros b; simpl; [unfold remaining; simpl; lia|].
  destruct (g_ascii_isspace c).
  - specialize (IH (Some c)). lia.
  - unfold remaining. simpl. lia.
Qed.

Lemma skip_whitespace_remaining (p : cursor) : (remaining (skip_whitespace p) <= remaining p)%nat.
Proof. apply skip_whitespace_from_remaining. Qed.

Lemma skip_optional_comma_remaining (p : cursor) :
  (remaining (skip_optional_comma p) <= remaining p)%nat.
Proof.
  unfold skip_optional_comma. assert (H := skip_whitespace_remaining p).
  destruct (Ascii.eqb _ _); [|exact H].
  assert (H' := next_remaining (skip_whitespace p)). lia.
Qed.

Lemma parse_number_remaining (p p' : cursor) (r : option double) :
  parse_number p = (p', r) ->
  (remaining p' <= remaining p)%nat /\ (r <> None -> (remaining p' < remaining p)%nat).
Proof.
  unfold parse_number. assert (Hb := g_ascii_strtod_bound (chars p)).
  destruct (g_ascii_strtod (chars p)) as [c e]. simpl in Hb.
  destruct (Nat.eqb e 0) eqn:He; intros H; injection H as <- <-.
  - split; [lia|congruence].
  - apply Nat.eqb_neq in He.
    assert (Hp : chars p <> []) by (destruct (chars p); simpl in *; [lia|congruence]).
    assert (H1 : (remaining (advance e p) < remaining p)%nat) by (apply advance_left_lt; [lia|exact Hp]).
    assert (H2 := skip_optional_comma_remaining (advance e p)). lia.
Qed.

Lemma parse_number_some (p p' : cursor) (v : double) :
  parse_number p = (p', Some v) -> (remaining p' < remaining p)%nat.
Proof. intros H. apply (parse_number_remaining _ _ _ H). discriminate. Qed.

Lemma parse_coordinate_pair_some (p p' : cursor) (v : double * double) :
  parse_coordinate_pair p = (p', Some v) -> (remaining p' < remaining p)%nat.
Proof.
  unfold parse_coordinate_pair, parse_coordinate.
  destruct (parse_number p) as [p1 [xx|]] eqn:H1; [|discriminate].
  destruct (parse_number p1) as [p2 [yy|]] eqn:H2; [|discriminate].
  intros H. injection H as <- _.
  apply parse_number_some in H1, H2. lia.
Qed.

Lemma parse_nonnegative_number_some (p p' : cursor) (v : double) :
  parse_nonnegative_number p = (p', Some v) -> (remaining p' < remaining p)%nat.
Proof.
  unfold parse_nonnegative_number.
  destruct (parse_number p) as [p1 [n|]] eqn:H1; [|discriminate].
  destruct (d_ltb n d_zero); [discriminate|].
  intros H. injection H as <- _. exact (parse_number_some _ _ _ H1).
Qed.

Lemma parse_flag_some (p p' : cursor) (f : bool) :
  parse_flag p = (p', Some f) -> (remaining p' <= remaining p)%nat.
Proof.
  unfold parse_flag. destruct (_strchr "01" _); [|discriminate].
  intros H. injection H as <- _.
  assert (H1 := skip_whitespace_remaining p).
  assert (H2 := next_remaining (skip_whitespace p)).
  assert (H3 := skip_optional_comma_remaining (next (skip_whitespace p))). lia.
Qed.

Lemma _strchr_not_nul (str : string) (c : ascii) :
  _strchr str c = true -> Ascii.eqb c NUL = false.
Proof. unfold _strchr. destruct (Ascii.eqb c NUL); [discriminate|reflexivity]. Qed.

Lemma parse_command_remaining (p p' : cursor) (cmd cmd' : ascii) (found : bool) :
  parse_command p cmd = (found, p', cmd') ->
  (remaining p' <= remaining p)%nat /\
  (found = true -> (remaining p' < remaining p)%nat) /\
  (found = false -> cmd' = cmd).
Proof.
  unfold parse_command. assert (H1 := skip_whitespace_remaining p).
  destruct (_strchr _ (peek (skip_whitespace p))) eqn:Hs;
    intros H; injection H as <- <- <-.
  - apply _strchr_not_nul, peek_not_nul, next_left_lt in Hs.
    repeat split; try lia; discriminate.
  - repeat split; try lia; discriminate.
Qed.

(** ** Every iteration consumes a character *)

(** Splits the [switch] along the tests on the command and the results of
    the parsing functions. *)
Ltac break_switch H :=
  repeat match type of H with
  | context [if Ascii.eqb ?c ?k || Ascii.eqb ?c ?k' then _ else _] =>
      destruct (Ascii.eqb c k || Ascii.eqb c k') eqn:?
  | context [if Ascii.eqb ?c "X" then _ else _] =>
      destruct (Ascii.eqb c "X") eqn:?
  | context [match parse_coordinate_pair ?q with _ => _ end] =>
      let E := fresh "Epair" in
      destruct (parse_coordinate_pair q) as [? [[? ?]|]] eqn:E
  | context [match parse_coordinate ?q with _ => _ end] =>
      let E := fresh "Ecoord" in
      destruct (parse_coordinate q) as [? [?|]] eqn:E
  | context [match parse_nonnegative_number ?q with _ => _ end] =>
      let E := fresh "Enonneg" in
      destruct (parse_nonnegative_number q) as [? [?|]] eqn:E
  | context [match parse_number ?q with _ => _ end] =>
      let E := fresh "Enumber" in
      destruct (parse_number q) as [? [?|]] eqn:E
  | context [match parse_flag ?q with _ => _ end] =>
      let E := fresh "Eflag" in
      destruct (parse_flag q) as [? [?|]] eqn:E
  | context [reopen ?c ?st] =>
      destruct (reopen c st) as [[? ?] ?] eqn:?
  | context [if _strchr ?str ?c then _ else _] =>
      destruct (_strchr str c) eqn:?
  | context [if ?b then _ else _] =>
      is_var b; destruct b
  end.

Ltac remaining_facts :=
  repeat match goal with
  | H : parse_coordinate_pair _ = (_, Some _) |- _ =>
      apply parse_coordinate_pair_some in H
  | H : parse_coordinate _ = (_, Some _) |- _ =>
      apply parse_number_some in H
  | H : parse_number _ = (_, Some _) |- _ =>
      apply parse_number_some in H
  | H : parse_nonnegative_number _ = (_, Some _) |- _ =>
      apply parse_nonnegative_number_some in H
  | H : parse_flag _ = (_, Some _) |- _ =>
      apply parse_flag_some in H
  end.

Lemma gsk_path_parse_switch_remaining (prev_cmd : ascii) (repeat : bool)
    (st st' : parser_state) :
  gsk_path_parse_switch prev_cmd repeat st = Some st' ->
  (remaining (p st') <= remaining (p st))%nat /\
  (repeat = true -> (remaining (p st') < remaining (p st))%nat).
Proof.
  unfold gsk_path_parse_switch. intros H.
  break_switch H; try discriminate; injection H as <-; simpl;
    remaining_facts; split; intros; try discriminate; lia.
Qed.

Lemma gsk_path_parse_iteration_remaining (st st' : parser_state) :
  gsk_path_parse_iteration st = Some st' ->
  (remaining (p st') < remaining (p st))%nat.
Proof.
  unfold gsk_path_parse_iteration.
  destruct (parse_command (p st) (cmd st)) as [[found p1] cmd1] eqn:Hc.
  destruct (after_comma st && negb (negb found)); [discriminate|].
  destruct (gsk_path_parse_switch _ _ _) as [st1|] eqn:Hs; [|discriminate].
  intros H. injection H as <-. simpl.
  apply parse_command_remaining in Hc. destruct Hc as (H1 & H2 & _).
  apply gsk_path_parse_switch_remaining in Hs. simpl in Hs. destruct Hs as [H3 H4].
  destruct found; simpl in *.
  - specialize (H2 eq_refl). lia.
  - specialize (H4 eq_refl). lia.
Qed.

(** ** The loop *)

Lemma gsk_path_parse_loop_fuel (fuel : nat) (st : parser_state) :
  (remaining (p st) < fuel)%nat -> gsk_path_parse_loop fuel st <> OutOfFuel.
Proof.
  revert st. induction fuel as [|fuel IH]; intros st Hf; [lia|]. simpl.
  destruct (Ascii.eqb (peek (p st)) NUL).
  - destruct (after_comma st); discriminate.
  - destruct (gsk_path_parse_iteration st) as [st'|] eqn:Hi; [|discriminate].
    apply IH. apply gsk_path_parse_iteration_remaining in Hi. lia.
Qed.

(** With enough fuel the loop does in [st] what it does in any state that
    it reaches from [st]. *)
Lemma gsk_path_parse_loop_reaches (st st' : parser_state) :
  reaches st st' ->
  forall fuel, (remaining (p st) < fuel)%nat ->
  exists fuel', (remaining (p st') < fuel')%nat /\
    gsk_path_parse_loop fuel st = gsk_path_parse_loop fuel' st'.
Proof.
  induction 1 as [st|st st1 st2 Hp Hi Hr IH]; intros fuel Hf.
  - exists fuel. split; [exact Hf|reflexivity].
  - destruct fuel as [|fuel]; [lia|].
    assert (Hl := gsk_path_parse_iteration_remaining _ _ Hi).
    destruct (IH fuel) as (fuel' & Hf' & Heq); [lia|].
    exists fuel'. split; [exact Hf'|].
    simpl. rewrite Hp, Hi. exact Heq.
Qed.

Lemma gsk_path_parse_loop_parsed (fuel : nat) (st : parser_state)
    (b : GskPathBuilder) :
  gsk_path_parse_loop fuel st = Parsed b ->
  exists st', reaches st st' /\
    Ascii.eqb (peek (p st')) NUL = true /\
    after_comma st' = false /\ builder st' = b.
Proof.
  revert st. induction fuel as [|fuel IH]; intros st; simpl; [discriminate|].
  destruct (Ascii.eqb (peek (p st)) NUL) eqn:Hp.
  - destruct (after_comma st) eqn:Ha; [discriminate|].
    intros H. injection H as <-.
    exists st. repeat split; try assumption. constructor.
  - destruct (gsk_path_parse_iteration st) as [st1|] eqn:Hi; [|discriminate].
    intros H. destruct (IH _ H) as (st' & Hr & H').
    exists st'. split; [|exact H'].
    eapply reaches_iteration; eassumption.
Qed.

(** ** Syntax errors *)

Lemma _strchr_In (str : string) (c : ascii) :
  _strchr str c = true -> In c (list_ascii_of_string str).
Proof.
  unfold _strchr. destruct (Ascii.eqb c NUL) eqn:E; [discriminate|].
  induction str as [|a str IH]; simpl.
  - rewrite E. discriminate.
  - intros H. apply orb_true_iff in H. destruct H as [H|H].
    + left. apply Ascii.eqb_eq. exact H.
    + right. apply IH. exact H.
Qed.

(** Names the command that a membership test has found. *)
Ltac name_command E :=
  apply _strchr_In in E; simpl in E;
  repeat match type of E with
  | _ \/ _ => destruct E as [E|E]
  | False => destruct E
  end; subst.

Ltac break_arguments :=
  repeat match goal with
  | H : context [match parse_number ?q with _ => _ end] |- _ =>
      destruct (parse_number q) as [? [?|]] eqn:?
  | H : context [match parse_nonnegative_number ?q with _ => _ end] |- _ =>
      destruct (parse_nonnegative_number q) as [? [?|]] eqn:?
  | H : context [match parse_flag ?q with _ => _ end] |- _ =>
      destruct (parse_flag q) as [? [?|]] eqn:?
  end.

(** The [switch] fails when the arguments of the command are not there. *)
Lemma gsk_path_parse_switch_arguments (prev_cmd : ascii) (repeat : bool)
    (st : parser_state) (l : list argument) :
  arguments (cmd st) = Some l ->
  read_arguments l (p st) = None ->
  gsk_path_parse_switch prev_cmd repeat st = None.
Proof.
  destruct st as [b x0 y0 px py sx sy q c ac]. simpl. intros Ha Hr.
  unfold arguments in Ha.
  repeat match type of Ha with
  | context [if _strchr ?str c then _ else _] =>
      let E := fresh "E" in
      destruct (_strchr str c) eqn:E; [name_command E|]
  end; try discriminate; injection Ha as <-;
  unfold gsk_path_parse_switch, parse_coordinate_pair, parse_coordinate;
  cbn -[parse_number parse_nonnegative_number parse_flag reopen rel _strchr];
  cbn [read_arguments read_argument] in Hr;
  break_arguments; try discriminate; reflexivity.
Qed.

Lemma syntax_error_iteration (st : parser_state) :
  syntax_error st -> gsk_path_parse_iteration st = None.
Proof.
  unfold gsk_path_parse_iteration.
  intros [Hx Hm|p1 c Ha Hc|p1 c Hz Hc|found p1 c l Hc Ha Hr].
  - unfold parse_command. rewrite Hx. simpl Ascii.eqb. cbv iota.
    rewrite Hm. simpl. rewrite andb_false_r.
    unfold gsk_path_parse_switch. simpl cmd. reflexivity.
  - rewrite Hc, Ha. reflexivity.
  - rewrite Hc. simpl. rewrite andb_false_r.
    assert (Hcmd : c = cmd st).
    { apply parse_command_remaining in Hc. apply Hc. reflexivity. }
    subst c. name_command Hz.
    + unfold gsk_path_parse_switch. simpl cmd. rewrite <- Hz. reflexivity.
    + unfold gsk_path_parse_switch. simpl cmd. rewrite <- Hz. reflexivity.
  - rewrite Hc.
    destruct (after_comma st && negb (negb found)); [reflexivity|].
    rewrite (gsk_path_parse_switch_arguments _ _ _ l); [reflexivity| |]; assumption.
Qed.

(** C2.  Parsing is all or nothing.  The loop ends; when an iteration
    fails in a state that the loop reaches, or the string ends after a
    comma, the result is [NULL], whatever calls the builder has received
    by then; each of the syntax errors makes the iteration fail; and a
    result that is not [NULL] is the builder of a run that has gone through
    the whole string without an error. *)
Theorem gsk_path_parse_transactional (string : list ascii) :
  let start := gsk_path_parse_start string in
  gsk_path_parse_loop (S (List.length string)) start <> OutOfFuel /\
  (forall st, reaches start st ->
     Ascii.eqb (peek (p st)) NUL = false ->
     gsk_path_parse_iteration st = None ->
     gsk_path_parse string = None) /\
  (forall st, reaches start st ->
     Ascii.eqb (peek (p st)) NUL = false ->
     syntax_error st ->
     gsk_path_parse string = None) /\
  (forall st, reaches start st ->
     Ascii.eqb (peek (p st)) NUL = true ->
     after_comma st = true ->
     gsk_path_parse string = None) /\
  (forall b, gsk_path_parse string = Some b ->
     exists st, reaches start st /\
       Ascii.eqb (peek (p st)) NUL = true /\
       after_comma st = false /\ builder st = b).
Proof.
  intros start.
  assert (Hfuel : (remaining (p start) < S (List.length string))%nat)
    by (unfold remaining; simpl; lia).
  assert (Hiter : forall st, reaches start st ->
            Ascii.eqb (peek (p st)) NUL = false ->
            gsk_path_parse_iteration st = None ->
            gsk_path_parse string = None).
  { intros st Hr Hp Hi. unfold gsk_path_parse. fold start.
    destruct (gsk_path_parse_loop_reaches _ _ Hr _ Hfuel) as (fuel' & Hf & ->).
    destruct fuel' as [|fuel']; [lia|]. simpl. rewrite Hp, Hi. reflexivity. }
  split; [apply gsk_path_parse_loop_fuel; exact Hfuel|].
  split; [exact Hiter|].
  split; [|split].
  - intros st Hr Hp He. apply (Hiter st Hr Hp), syntax_error_iteration, He.
  - intros st Hr Hp Ha. unfold gsk_path_parse. fold start.
    destruct (gsk_path_parse_loop_reaches _ _ Hr _ Hfuel) as (fuel' & Hf & ->).
    destruct fuel' as [|fuel']; [lia|]. simpl. rewrite Hp, Ha. reflexivity.
  - intros b. unfold gsk_path_parse. fold start.
    destruct (gsk_path_parse_loop _ start) as [b'| |] eqn:Hl; try discriminate.
    intros H. injection H as <-.
    exact (gsk_path_parse_loop_parsed _ _ _ Hl).
Qed.

(** ** Commands without their letter *)

Lemma gsk_path_parse_iteration_switch (st : parser_state) :
  gsk_path_parse_iteration st =
  let '(found, p1, cmd1) := parse_command (p st) (cmd st) in
  if after_comma st && found then None
  else end_of_iteration
         (gsk_path_parse_switch (cmd st) (negb found)
            (mkState (builder st) (x st) (y st) (prev_x1 st) (prev_y1 st)
               (path_x st) (path_y st) p1 cmd1 (after_comma st))).
Proof.
  unfold gsk_path_parse_iteration, end_of_iteration.
  destruct (parse_command (p st) (cmd st)) as [[found p1] cmd1].
  rewrite negb_involutive. reflexivity.
Qed.

(** Two pointers to the same characters agree after a number has been
    read, whatever was in front of them. *)
Lemma parse_number_before (b1 b2 : option ascii) (l : list ascii) :
  (exists q v, parse_number (mkCursor b1 l) = (q, Some v) /\
               parse_number (mkCursor b2 l) = (q, Some v)) \/
  (parse_number (mkCursor b1 l) = (mkCursor b1 l, None) /\
   parse_number (mkCursor b2 l) = (mkCursor b2 l, None)).
Proof.
  unfold parse_number. simpl chars.
  assert (Hb := g_ascii_strtod_bound l).
  destruct (g_ascii_strtod l) as [v e]. simpl in Hb.
  destruct e as [|e]; simpl Nat.eqb; cbv iota.
  - right. split; reflexivity.
  - left. destruct l as [|a l]; [simpl in Hb; lia|].
    exists (skip_optional_comma (advance e (mkCursor (Some a) l))), v.
    split; reflexivity.
Qed.

Lemma parse_coordinate_pair_before (b1 b2 : option ascii) (l : list ascii) :
  (exists q v, parse_coordinate_pair (mkCursor b1 l) = (q, Some v) /\
               parse_coordinate_pair (mkCursor b2 l) = (q, Some v)) \/
  (parse_coordinate_pair (mkCursor b1 l) = (mkCursor b1 l, None) /\
   parse_coordinate_pair (mkCursor b2 l) = (mkCursor b2 l, None)).
Proof.
  unfold parse_coordinate_pair, parse_coordinate.
  destruct (parse_number_before b1 b2 l) as [(q & v & -> & ->)|[-> ->]].
  - destruct (parse_number q) as [q' [yy|]].
    + left. exists q', (v, yy). split; reflexivity.
    + right. split; reflexivity.
  - right. split; reflexivity.
Qed.

Lemma parse_nonnegative_number_before (b1 b2 : option ascii) (l : list ascii) :
  (exists q v, parse_nonnegative_number (mkCursor b1 l) = (q, Some v) /\
               parse_nonnegative_number (mkCursor b2 l) = (q, Some v)) \/
  (exists q1 q2, parse_nonnegative_number (mkCursor b1 l) = (q1, None) /\
                 parse_nonnegative_number (mkCursor b2 l) = (q2, None)).
Proof.
  unfold parse_nonnegative_number.
  destruct (parse_number_before b1 b2 l) as [(q & v & -> & ->)|[-> ->]].
  - destruct (d_ltb v d_zero).
    + right. eexists. eexists. split; reflexivity.
    + left. exists q, v. split; reflexivity.
  - right. eexists. eexists. split; reflexivity.
Qed.

Ltac break_goal :=
  repeat match goal with
  | |- context [match parse_coordinate_pair ?q with _ => _ end] =>
      destruct (parse_coordinate_pair q) as [? [[? ?]|]]
  | |- context [match parse_coordinate ?q with _ => _ end] =>
      destruct (parse_coordinate q) as [? [?|]]
  | |- context [match parse_nonnegative_number ?q with _ => _ end] =>
      destruct (parse_nonnegative_number q) as [? [?|]]
  | |- context [match parse_number ?q with _ => _ end] =>
      destruct (parse_number q) as [? [?|]]
  | |- context [match parse_flag ?q with _ => _ end] =>
      destruct (parse_flag q) as [? [?|]]
  | |- context [if _strchr ?str ?c then _ else _] =>
      destruct (_strchr str c)
  end.

(** A drawing command reads a number first, so that neither the character
    in front of the pointer, nor [repeat], nor the old [after_comma] has a
    part in what its iteration gives. *)
Lemma gsk_path_parse_switch_before (prev_cmd : ascii) (rep1 rep2 : bool)
    (b : GskPathBuilder) (x0 y0 px py sx sy : double)
    (b1 b2 : option ascii) (l : list ascii) (c : ascii) (ac1 ac2 : bool) :
  _strchr "ZzMm" c = false ->
  end_of_iteration
    (gsk_path_parse_switch prev_cmd rep1
       (mkState b x0 y0 px py sx sy (mkCursor b1 l) c ac1)) =
  end_of_iteration
    (gsk_path_parse_switch prev_cmd rep2
       (mkState b x0 y0 px py sx sy (mkCursor b2 l) c ac2)).
Proof.
  intros Hc. unfold gsk_path_parse_switch, reopen.
  cbn [cmd p after_comma builder x y prev_x1 prev_y1 path_x path_y].
  destruct (Ascii.eqb c "X"); [reflexivity|].
  destruct (Ascii.eqb_spec c "Z") as [->|_]; [discriminate Hc|].
  destruct (Ascii.eqb_spec c "z") as [->|_]; [discriminate Hc|].
  destruct (Ascii.eqb_spec c "M") as [->|_]; [discriminate Hc|].
  destruct (Ascii.eqb_spec c "m") as [->|_]; [discriminate Hc|].
  cbn [orb].
  repeat match goal with
  | |- context [if Ascii.eqb c ?k || Ascii.eqb c ?k' then _ else _] =>
      destruct (Ascii.eqb c k || Ascii.eqb c k')
  end; try reflexivity; unfold parse_coordinate.
  all: try (destruct (parse_coordinate_pair_before b1 b2 l)
              as [(q & [v1 v2] & -> & ->)|[-> ->]]; [|reflexivity]).
  all: try (destruct (parse_number_before b1 b2 l)
              as [(q & v & -> & ->)|[-> ->]]; [|reflexivity]).
  all: try (destruct (parse_nonnegative_number_before b1 b2 l)
              as [(q & v & -> & ->)|(q1 & q2 & -> & ->)]; [|reflexivity]).
  all: break_goal; reflexivity.
Qed.

(** The iteration of a state whose command is [M] or [m] and where no
    command letter is found. *)
Lemma gsk_path_parse_iteration_move_repeated (st st' : parser_state)
    (p1 : cursor) (c : ascii) :
  parse_command (p st) (cmd st) = (false, p1, c) ->
  _strchr "Mm" (cmd st) = true ->
  gsk_path_parse_iteration st = Some st' ->
  exists q x1 y1,
    parse_coordinate_pair p1 = (q, Some (x1, y1)) /\
    x st' = rel "m" (cmd st) x1 (x st) /\
    y st' = rel "m" (cmd st) y1 (y st) /\
    builder st' = builder st ++ [gsk_path_builder_line_to (x st') (y st')] /\
    path_x st' = path_x st /\ path_y st' = path_y st /\
    cmd st' = cmd st /\ p st' = q.
Proof.
  intros Hc Hm. rewrite gsk_path_parse_iteration_switch, Hc, andb_false_r.
  assert (Hcmd : c = cmd st).
  { apply parse_command_remaining in Hc. apply Hc. reflexivity. }
  subst c. unfold gsk_path_parse_switch.
  cbn [cmd p after_comma builder x y prev_x1 prev_y1 path_x path_y negb].
  name_command Hm; rewrite <- Hm; cbn [Ascii.eqb Bool.eqb orb andb];
    destruct (parse_coordinate_pair p1) as [q [[x1 y1]|]]; try discriminate;
    intros H; injection H as <-; exists q, x1, y1; simpl;
    repeat split; reflexivity.
Qed.

End ParserFacts.

(* ================================================================== *)
(** * The theorems at work *)

Module Examples.

Import PathPoint Sample.

#[local] Open Scope string_scope.

(** ** Paths *)






Example in_fill_triangle :
  gsk_path_in_fill triangle_path (5, 3)%Q GSK_FILL_RULE_EVEN_ODD = true /\
  gsk_path_in_fill triangle_path (20, 20)%Q GSK_FILL_RULE_EVEN_ODD = false /\
  gsk_path_in_fill two_triangles (5, 3)%Q GSK_FILL_RULE_EVEN_ODD = false /\
  gsk_path_in_fill two_triangles (5, 3)%Q GSK_FILL_RULE_WINDING = true.
Proof. repeat split; reflexivity. Qed.

Example is_closed_paths :
  gsk_path_is_closed triangle_path = true /\
  gsk_path_is_closed empty_path = false /\
  gsk_path_is_closed point_path = false /\
  gsk_path_is_closed two_triangles = false.
Proof. repeat split; reflexivity. Qed.

Example bounds_of_paths :
  gsk_path_get_bounds empty_path = (false, (0, 0, 0, 0)%Q) /\
  gsk_path_get_bounds point_path = (true, (0, 0, 0, 0)%Q) /\
  gsk_path_get_bounds triangle_path = (true, (0, 0, 10, 10)%Q).
Proof. repeat split; reflexivity. Qed.

Lemma gsk_path_get_start_end_point_witness :
  n_contours two_triangles <= G_MAXSIZE /\
  gsk_path_get_start_point two_triangles =
    Some {| contour := 0; idx := 1; t := 0 |} /\
  gsk_path_get_end_point two_triangles =
    Some {| contour := 1; idx := 3; t := 1 |}.
Proof.
  assert (H : n_contours two_triangles <= G_MAXSIZE) by (vm_compute; discriminate).
  split; [exact H|].
  destruct (gsk_path_get_start_end_point two_triangles H)
    as (_ & _ & Hstart & Hend).
  split.
  - apply Hstart. discriminate.
  - apply (proj2 (Hend [triangle] triangle eq_refl)).
    vm_compute. split; discriminate.
Defined.

(** ** Parsing *)

Example parse_triangle :
  parse "M 0 0 L 10 0 L 10 10 Z" =
  Some [gsk_path_builder_move_to 0 0; gsk_path_builder_line_to 10 0;
        gsk_path_builder_line_to 10 10; gsk_path_builder_close]%Q.
Proof. reflexivity. Qed.

Example parse_empty : parse "" = Some [].
Proof. reflexivity. Qed.

(** One input for each kind of syntax error; all of them come after
    calls that the builder has received. *)
Example parse_syntax_errors :
  parse "M 0 0 L 1 x" = None /\
  parse "M 0 0 L 1 1 L 2" = None /\
  parse "M 0 0 C 1 1 2 2 3" = None /\
  parse "M 0 0 A 1 1 0 2 0 5 5" = None /\
  parse "M 0 0 L 1 1 garbage" = None /\
  parse "M 0 0 L 1 1," = None /\
  parse "M 0 0, L 1 1" = None /\
  parse "L 1 1" = None /\
  parse "M 0 0 Z 1 1" = None.
Proof. repeat split; reflexivity. Qed.

(** The state of the loop after [M 0 0 L 1 1] in [M 0 0 L 1 1 L 2]. *)
Definition before_the_error : parser_state :=
  mkState [gsk_path_builder_move_to 0 0; gsk_path_builder_line_to 1 1]%Q
    1%Q 1%Q 0%Q 0%Q 0%Q 0%Q
    (mkCursor (Some " "%char) (list_ascii_of_string "L 2")) "L" false.

(** The state after [M 0 0] in the same string. *)
Definition after_the_move : parser_state :=
  mkState [gsk_path_builder_move_to 0 0]%Q
    0%Q 0%Q 0%Q 0%Q 0%Q 0%Q
    (mkCursor (Some " "%char) (list_ascii_of_string "L 1 1 L 2")) "M" false.

Lemma reaches_before_the_error :
  reaches (gsk_path_parse_start (list_ascii_of_string "M 0 0 L 1 1 L 2"))
    before_the_error.
Proof.
  apply (@reaches_iteration sample_env _ after_the_move before_the_error);
    [vm_compute; reflexivity|vm_compute; reflexivity|].
  apply (@reaches_iteration sample_env after_the_move before_the_error before_the_error);
    [vm_compute; reflexivity|vm_compute; reflexivity|].
  apply reaches_here.
Qed.

Lemma gsk_path_parse_transactional_witness :
  builder before_the_error =
    [gsk_path_builder_move_to 0 0; gsk_path_builder_line_to 1 1]%Q /\
  gsk_path_parse_iteration before_the_error = None /\
  parse "M 0 0 L 1 1 L 2" = None.
Proof.
  split; [reflexivity|]. split; [reflexivity|].
  destruct (gsk_path_parse_transactional (list_ascii_of_string "M 0 0 L 1 1 L 2"))
    as (_ & Hiter & _).
  apply (Hiter before_the_error).
  - exact reaches_before_the_error.
  - reflexivity.
  - reflexivity.
Defined.



Example parse_repeated_commands :
  parse "M 0 0 L 1 1 2 2" = parse "M 0 0 L 1 1 L 2 2" /\
  parse "M 0 0 1 1 2 2" =
    Some [gsk_path_builder_move_to 0 0; gsk_path_builder_line_to 1 1;
          gsk_path_builder_line_to 2 2]%Q /\
  parse "m 1 1 2 2" =
    Some [gsk_path_builder_move_to 1 1; gsk_path_builder_line_to 3 3]%Q /\
  parse "M 0 0 Z 1 1" = None /\
  parse "M 0 0 Z L 1 1" =
    Some [gsk_path_builder_move_to 0 0; gsk_path_builder_close;
          gsk_path_builder_move_to 0 0; gsk_path_builder_line_to 1 1]%Q.
Proof. repeat split; reflexivity. Qed.

End Examples.

(* ================================================================== *)
(** * More on the parser *)

Section ParserMore.

Context {PE : ParserEnv}.

(** ** The helpers *)

Lemma strchr_terminator (str : string) : strchr str NUL = true.
Proof.
  induction str as [|a str IH]; simpl; [reflexivity|].
  rewrite IH. apply orb_true_r.
Qed.

Lemma strchr_In (str : string) (c : ascii) :
  c <> NUL -> (strchr str c = true <-> In c (list_ascii_of_string str)).
Proof.
  intros Hc. induction str as [|a str IH]; simpl.
  - split; [|tauto]. intros H. apply Ascii.eqb_eq in H. tauto.
  - rewrite orb_true_iff, Ascii.eqb_eq, IH. tauto.
Qed.

(** X1.  [strchr] finds the terminator in every string, and [_strchr]
    never does; on any other character the two agree and tell whether the
    character is in the string.  So the functions that test [*p] with
    [_strchr] only step over a character that is there: when
    [parse_command] finds a command, it is the character under the pointer,
    it is not the terminator, and the pointer moves past it alone. *)
Theorem _strchr_stops_at_terminator (str : string) (c : ascii) (p p1 : cursor)
    (cmd c1 : ascii) :
  strchr str NUL = true /\
  _strchr str NUL = false /\
  (c <> NUL -> _strchr str c = strchr str c) /\
  (_strchr str c = true <-> c <> NUL /\ In c (list_ascii_of_string str)) /\
  (parse_command p cmd = (true, p1, c1) ->
     c1 <> NUL /\
     chars (skip_whitespace p) = c1 :: chars p1 /\ before p1 = Some c1) /\
  (chars (skip_whitespace p) = [] ->
     parse_command p cmd = (false, skip_whitespace p, cmd) /\
     parse_flag p = (skip_whitespace p, None)).
Proof.
  split; [apply strchr_terminator|].
  split; [reflexivity|].
  assert (Hagree : c <> NUL -> _strchr str c = strchr str c).
  { intros Hc. unfold _strchr. apply Ascii.eqb_neq in Hc. rewrite Hc. reflexivity. }
  split; [exact Hagree|].
  split; [|split].
  - split.
    + intros H. assert (Hc : c <> NUL).
      { apply _strchr_not_nul in H. apply Ascii.eqb_neq. exact H. }
      split; [exact Hc|]. apply _strchr_In. exact H.
    + intros [Hc Hin]. rewrite (Hagree Hc). apply strchr_In; assumption.
  - unfold parse_command.
    destruct (_strchr _ (peek (skip_whitespace p))) eqn:Hs; [|discriminate].
    intros H. injection H as <- <-.
    apply _strchr_not_nul in Hs. unfold peek, next in *.
    destruct (chars (skip_whitespace p)) as [|a l]; [discriminate|].
    simpl. split; [|split; reflexivity].
    apply Ascii.eqb_neq. exact Hs.
  - intros He. unfold parse_command, parse_flag, peek. rewrite He.
    split; [|reflexivity].
    destruct (Ascii.eqb cmd "X"); reflexivity.
Qed.

(** X2.  A function that reads numbers leaves the pointer where it was
    when it fails, also when it has read a part of what it wants: the
    first coordinate of a pair, or a number that is negative. *)
Theorem parse_number_failure_restores (p p' : cursor) :
  (parse_number p = (p', None) -> p' = p) /\
  (parse_coordinate p = (p', None) -> p' = p) /\
  (parse_coordinate_pair p = (p', None) -> p' = p) /\
  (parse_nonnegative_number p = (p', None) -> p' = p).
Proof.
  assert (Hn : forall q q', parse_number q = (q', None) -> q' = q).
  { intros q q'. unfold parse_number.
    destruct (g_ascii_strtod (chars q)) as [v e].
    destruct (Nat.eqb e 0); intros H; [|discriminate].
    injection H as <-. reflexivity. }
  split; [apply Hn|]. split; [apply Hn|]. split.
  - unfold parse_coordinate_pair, parse_coordinate.
    destruct (parse_number p) as [q [xx|]].
    + destruct (parse_number q) as [q' [yy|]]; intros H; [discriminate|].
      injection H as <-. reflexivity.
    + intros H. injection H as <-. reflexivity.
  - unfold parse_nonnegative_number.
    destruct (parse_number p) as [q [n|]] eqn:Hq.
    + destruct (d_ltb n d_zero); intros H; [|discriminate].
      injection H as <-. reflexivity.
    + intros H. injection H as <-. exact (Hn _ _ Hq).
Qed.

(** ** The calls of one iteration *)

Ltac split_switch H :=
  repeat match type of H with
  | context [if Ascii.eqb ?c ?k || Ascii.eqb ?c ?k' then _ else _] =>
      let E := fresh "Ecmd" in
      destruct (Ascii.eqb c k || Ascii.eqb c k') eqn:E
  | context [if Ascii.eqb ?c "X" then _ else _] =>
      destruct (Ascii.eqb c "X") eqn:?
  | context [match parse_coordinate_pair ?q with _ => _ end] =>
      destruct (parse_coordinate_pair q) as [? [[? ?]|]] eqn:?
  | context [match parse_coordinate ?q with _ => _ end] =>
      destruct (parse_coordinate q) as [? [?|]] eqn:?
  | context [match parse_nonnegative_number ?q with _ => _ end] =>
      destruct (parse_nonnegative_number q) as [? [?|]] eqn:?
  | context [match parse_number ?q with _ => _ end] =>
      destruct (parse_number q) as [? [?|]] eqn:?
  | context [match parse_flag ?q with _ => _ end] =>
      destruct (parse_flag q) as [? [?|]] eqn:?
  | context [reopen ?c ?st] =>
      let R := fresh "Ereopen" in
      destruct (reopen c st) as [[? ?] ?] eqn:R
  | context [if _strchr ?str ?c then _ else _] =>
      let E := fresh "Echr" in
      destruct (_strchr str c) eqn:E
  | context [if ?b then _ else _] =>
      is_var b; destruct b
  end.

(** Names the letter that a test of the [switch] has found. *)
Ltac name_letter :=
  match goal with
  | E : (Ascii.eqb ?c _ || Ascii.eqb ?c _) = true |- _ =>
      apply orb_true_iff in E; destruct E as [E|E];
      apply Ascii.eqb_eq in E; rewrite E in *
  end.

(** What an iteration sends to the builder, by the command that it runs. *)
Lemma gsk_path_parse_switch_calls (prev_cmd : ascii) (repeat : bool)
    (st st' : parser_state) :
  gsk_path_parse_switch prev_cmd repeat st = Some st' ->
  cmd st' = cmd st /\
  ((_strchr "Zz" (cmd st) = true /\ repeat = false /\ p st' = p st /\
    builder st' = builder st ++ [gsk_path_builder_close] /\
    x st' = path_x st /\ y st' = path_y st /\
    path_x st' = path_x st /\ path_y st' = path_y st) \/
   (_strchr "Mm" (cmd st) = true /\ repeat = true /\
    builder st' = builder st ++ [gsk_path_builder_line_to (x st') (y st')] /\
    path_x st' = path_x st /\ path_y st' = path_y st) \/
   (_strchr "Mm" (cmd st) = true /\ repeat = false /\
    builder st' = builder st ++ [gsk_path_builder_move_to (x st') (y st')]) \/
   (_strchr drawing_commands (cmd st) = true /\
    exists call, is_draw call = true /\
      builder st' = fst (fst (reopen prev_cmd st)) ++ [call] /\
      path_x st' = snd (fst (reopen prev_cmd st)) /\
      path_y st' = snd (reopen prev_cmd st))).
Proof.
  unfold gsk_path_parse_switch. intros H.
  split_switch H; try discriminate; injection H as <-;
    (split; [reflexivity|]); name_letter; cbn [builder x y path_x path_y p cmd].
  all: first
    [ left; repeat split; reflexivity
    | right; left; repeat split; reflexivity
    | right; right; left; repeat split; reflexivity
    | right; right; right; split; [reflexivity|];
      eexists; cbn [fst snd]; repeat split; reflexivity ].
Qed.

Ltac name_in E :=
  apply _strchr_In in E; simpl in E;
  repeat match type of E with
  | _ \/ _ => destruct E as [E|E]
  | False => destruct E
  end.

Lemma parse_command_found (q q1 : cursor) (c c1 : ascii) :
  parse_command q c = (true, q1, c1) ->
  _strchr "mMhHvVzZlLcCsStTqQaAeE" c1 = true /\
  (c = "X"%char -> _strchr "mM" c1 = true).
Proof.
  unfold parse_command.
  destruct (Ascii.eqb_spec c "X") as [->|Hx].
  - destruct (_strchr "mM" _) eqn:Hs; [|discriminate].
    intros H. injection H as _ <-. split; [|intros _; exact Hs].
    name_in Hs; rewrite <- Hs; reflexivity.
  - destruct (_strchr "mMhHvVzZlLcCsStTqQaAeE" _) eqn:Hs; [|discriminate].
    intros H. injection H as _ <-. split; [exact Hs|]. intros Hc. contradiction.
Qed.

Lemma parse_command_not_found (q q1 : cursor) (c c1 : ascii) :
  parse_command q c = (false, q1, c1) -> c1 = c /\ q1 = skip_whitespace q.
Proof.
  unfold parse_command. destruct (_strchr _ _); [discriminate|].
  intros H. injection H as <- <-. split; reflexivity.
Qed.

(** One iteration, by the command that it runs: the command is the
    letter found or, when none is found, the command of the iteration
    before. *)
Lemma gsk_path_parse_iteration_calls (st st' : parser_state) :
  gsk_path_parse_iteration st = Some st' ->
  exists found p1,
    parse_command (p st) (cmd st) = (found, p1, cmd st') /\
    ((_strchr "Zz" (cmd st') = true /\ found = true /\
      builder st' = builder st ++ [gsk_path_builder_close] /\
      x st' = path_x st /\ y st' = path_y st /\
      path_x st' = path_x st /\ path_y st' = path_y st) \/
     (_strchr "Mm" (cmd st') = true /\ found = false /\
      builder st' = builder st ++ [gsk_path_builder_line_to (x st') (y st')] /\
      path_x st' = path_x st /\ path_y st' = path_y st) \/
     (_strchr "Mm" (cmd st') = true /\ found = true /\
      builder st' = builder st ++ [gsk_path_builder_move_to (x st') (y st')]) \/
     (_strchr drawing_commands (cmd st') = true /\
      exists call, is_draw call = true /\
        builder st' = fst (fst (reopen (cmd st) st)) ++ [call] /\
        path_x st' = snd (fst (reopen (cmd st) st)) /\
        path_y st' = snd (reopen (cmd st) st))).
Proof.
  rewrite gsk_path_parse_iteration_switch.
  destruct (parse_command (p st) (cmd st)) as [[found p1] c1] eqn:Hc.
  destruct (after_comma st && found); [discriminate|].
  destruct (gsk_path_parse_switch _ _ _) as [st1|] eqn:Hs; [|discriminate].
  intros H. injection H as <-. cbn [cmd builder x y path_x path_y].
  apply gsk_path_parse_switch_calls in Hs.
  cbn [cmd builder x y path_x path_y p] in Hs. destruct Hs as [Hcmd Hs].
  exists found, p1. rewrite Hcmd. split; [reflexivity|].
  unfold reopen in *. cbn [cmd builder x y path_x path_y p] in Hs.
  destruct Hs as [Hz|[Hm|[Hm|Hd]]].
  - left. destruct Hz as (? & Hr & _ & ? & ? & ? & ? & ?).
    apply negb_false_iff in Hr. tauto.
  - right; left. destruct Hm as (? & Hr & ? & ? & ?).
    apply negb_true_iff in Hr. tauto.
  - right; right; left. destruct Hm as (? & Hr & ?).
    apply negb_false_iff in Hr. tauto.
  - right; right; right. exact Hd.
Qed.

(** ** The order of the calls *)

Lemma adjacent_snoc (a b x : builder_call) (l : GskPathBuilder) :
  adjacent a b (l ++ [x]) ->
  adjacent a b l \/ (b = x /\ exists l', l = l' ++ [a]).
Proof.
  intros (l1 & l2 & H).
  destruct l2 as [|c l2].
  - right.
    assert (E : l1 ++ [a; b] = (l1 ++ [a]) ++ [b])
      by (rewrite <- app_assoc; reflexivity).
    rewrite E in H. apply app_inj_tail in H. destruct H as [-> ->].
    split; [reflexivity|]. exists l1. reflexivity.
  - left. destruct (exists_last (l := c :: l2)) as (mid & z & Hm); [discriminate|].
    rewrite Hm in H.
    assert (E : l1 ++ a :: b :: mid ++ [z] = (l1 ++ a :: b :: mid) ++ [z])
      by (rewrite <- app_assoc; reflexivity).
    rewrite E in H. apply app_inj_tail in H. destruct H as [-> _].
    exists l1, mid. reflexivity.
Qed.

Lemma _strchr_zZ (c : ascii) : _strchr "Zz" c = _strchr "zZ" c.
Proof.
  unfold _strchr, strchr.
  destruct (Ascii.eqb c NUL), (Ascii.eqb "Z" c), (Ascii.eqb "z" c); reflexivity.
Qed.

(** A letter belongs to one kind of command. *)
Lemma command_kinds (c : ascii) :
  (_strchr "Zz" c = true -> _strchr "Mm" c = false /\ _strchr drawing_commands c = false /\ c <> "X"%char /\ _strchr "mMhHvVzZlLcCsStTqQaAeE" c = true) /\
  (_strchr "Mm" c = true -> _strchr "Zz" c = false /\ _strchr drawing_commands c = false /\ c <> "X"%char /\ _strchr "mMhHvVzZlLcCsStTqQaAeE" c = true /\ _strchr "mM" c = true) /\
  (_strchr drawing_commands c = true -> _strchr "Zz" c = false /\ _strchr "Mm" c = false /\ _strchr "mM" c = false /\ c <> "X"%char /\ _strchr "mMhHvVzZlLcCsStTqQaAeE" c = true) /\
  (_strchr "mM" c = true -> _strchr "Mm" c = true).
Proof.
  split; [|split; [|split]]; intros H; name_in H; subst c;
    repeat split; try reflexivity; discriminate.
Qed.

Lemma ends_with_close_snoc (l : GskPathBuilder) (c : builder_call) :
  ends_with_close (l ++ [c]) -> c = gsk_path_builder_close.
Proof.
  intros (l' & H). apply app_inj_tail in H. apply H.
Qed.

Lemma starts_with_move_to_app (l l' : GskPathBuilder) :
  l <> [] -> starts_with_move_to l -> starts_with_move_to (l ++ l').
Proof. destruct l; [congruence|]. intros _ H. exact H. Qed.

Lemma no_draw_after_close_snoc (l : GskPathBuilder) (c : builder_call) :
  no_draw_after_close l ->
  (is_draw c = true -> ~ ends_with_close l) ->
  no_draw_after_close (l ++ [c]).
Proof.
  intros Hl Hc a b Hab Ha.
  apply adjacent_snoc in Hab. destruct Hab as [Hab|[-> (l' & ->)]].
  - exact (Hl a b Hab Ha).
  - destruct (is_draw c) eqn:Hd; [|reflexivity].
    exfalso. apply (Hc eq_refl). exists l'.
    destruct a; try discriminate. reflexivity.
Qed.

Lemma parser_invariant_start (string : list ascii) :
  parser_invariant (gsk_path_parse_start string).
Proof.
  unfold parser_invariant, gsk_path_parse_start. cbn [cmd builder].
  split; [left; reflexivity|]. split; [tauto|]. split; [exact I|]. split.
  - intros (l' & H). destruct l'; discriminate.
  - intros a b (l1 & l2 & H). destruct l1; discriminate.
Qed.

Lemma parser_invariant_iteration (st st' : parser_state) :
  parser_invariant st ->
  gsk_path_parse_iteration st = Some st' ->
  parser_invariant st' /\ cmd st' <> "X"%char.
Proof.
  intros (Hcs & Hx & Hmv & Hend & Hadj) Hi.
  destruct (gsk_path_parse_iteration_calls _ _ Hi) as (found & p1 & Hpc & Hk).
  assert (Hfound : found = true ->
            _strchr "mMhHvVzZlLcCsStTqQaAeE" (cmd st') = true /\
            (cmd st = "X"%char -> _strchr "mM" (cmd st') = true)).
  { intros ->. exact (parse_command_found _ _ _ _ Hpc). }
  assert (Hrepeat : found = false -> cmd st' = cmd st).
  { intros ->. apply (parse_command_not_found _ _ _ _ Hpc). }
  destruct (command_kinds (cmd st')) as (Kz & Km & Kd & KmM).
  assert (Hnx : cmd st' <> "X"%char).
  { destruct Hk as [Hz|[Hm|[Hm|Hd]]].
    - apply Kz, Hz.
    - apply Km, Hm.
    - apply Km, Hm.
    - apply Kd, Hd. }
  assert (Hletter : _strchr "mMhHvVzZlLcCsStTqQaAeE" (cmd st') = true).
  { destruct Hk as [Hz|[Hm|[Hm|Hd]]].
    - apply Kz, Hz.
    - apply Km, Hm.
    - apply Km, Hm.
    - apply Kd, Hd. }
  (* the builder is empty only in front of the first M *)
  assert (Hfirst : builder st = [] -> found = true /\ _strchr "Mm" (cmd st') = true).
  { intros Hb. apply Hx in Hb.
    destruct found.
    - split; [reflexivity|]. apply KmM, Hfound; [reflexivity|exact Hb].
    - exfalso. apply Hnx. rewrite (Hrepeat eq_refl). exact Hb. }
  split; [|exact Hnx].
  unfold parser_invariant. split; [right; exact Hletter|].
  destruct Hk as [Hz|[Hm|[Hm|Hd]]].
  - (* Z *)
    destruct Hz as (Hz & Hf & Hb & _).
    assert (Hne : builder st <> []).
    { intros Hb0. destruct (Hfirst Hb0) as [_ Hmm].
      destruct (Kz Hz) as (Hmf & _). congruence. }
    rewrite Hb. split; [|split; [|split]].
    + split; [intros H; destruct (builder st); discriminate|tauto].
    + apply starts_with_move_to_app; assumption.
    + intros _. rewrite <- _strchr_zZ. exact Hz.
    + apply no_draw_after_close_snoc; [exact Hadj|discriminate].
  - (* M, no letter *)
    destruct Hm as (Hm & Hf & Hb & _).
    assert (Hcmd : cmd st' = cmd st) by exact (Hrepeat Hf).
    assert (Hne : builder st <> []).
    { intros Hb0. destruct (Hfirst Hb0) as [Hf' _]. congruence. }
    rewrite Hb. split; [|split; [|split]].
    + split; [intros H; destruct (builder st); discriminate|tauto].
    + apply starts_with_move_to_app; assumption.
    + intros H. apply ends_with_close_snoc in H. discriminate.
    + apply no_draw_after_close_snoc; [exact Hadj|].
      intros _ He. apply Hend in He. rewrite <- _strchr_zZ, <- Hcmd in He.
      destruct (Km Hm) as (Hzf & _). congruence.
  - (* M *)
    destruct Hm as (Hm & Hf & Hb).
    rewrite Hb. split; [|split; [|split]].
    + split; [intros H; destruct (builder st); discriminate|tauto].
    + destruct (builder st) as [|c0 l0] eqn:Hb0; [reflexivity|exact Hmv].
    + intros H. apply ends_with_close_snoc in H. discriminate.
    + apply no_draw_after_close_snoc; [exact Hadj|discriminate].
  - (* drawing *)
    destruct Hd as (Hd & call & Hcall & Hb & _).
    assert (Hne : builder st <> []).
    { intros Hb0. destruct (Hfirst Hb0) as [_ Hmm].
      destruct (Kd Hd) as (_ & Hmf & _). congruence. }
    assert (Hnc : call <> gsk_path_builder_close)
      by (intros ->; discriminate).
    unfold reopen in Hb.
    destruct (_strchr "zZ" (cmd st)) eqn:Hprev; cbn [fst snd] in Hb; rewrite Hb.
    + split; [|split; [|split]].
      * split; [intros H; destruct (builder st); discriminate|tauto].
      * rewrite <- app_assoc. apply starts_with_move_to_app; assumption.
      * intros H. apply ends_with_close_snoc in H. contradiction.
      * apply no_draw_after_close_snoc.
        -- apply no_draw_after_close_snoc; [exact Hadj|discriminate].
        -- intros _ He. apply ends_with_close_snoc in He. discriminate.
    + split; [|split; [|split]].
      * split; [intros H; destruct (builder st); discriminate|tauto].
      * apply starts_with_move_to_app; assumption.
      * intros H. apply ends_with_close_snoc in H. contradiction.
      * apply no_draw_after_close_snoc; [exact Hadj|].
        intros _ He. apply Hend in He. congruence.
Qed.

Lemma parser_invariant_reaches (st st' : parser_state) :
  reaches st st' -> parser_invariant st ->
  parser_invariant st' /\ (st' = st \/ cmd st' <> "X"%char).
Proof.
  induction 1 as [st|st st1 st2 Hp Hi Hr IH]; intros Hinv.
  - split; [exact Hinv|left; reflexivity].
  - destruct (parser_invariant_iteration _ _ Hinv Hi) as [Hinv1 Hx1].
    destruct (IH Hinv1) as [Hinv2 [->|Hx2]]; split; auto.
Qed.

(** X3.  The calls of a string that parses.  The first call is a
    [gsk_path_builder_move_to]; a call that draws never follows a
    [gsk_path_builder_close] directly (the parser puts a move in between);
    and no call at all is made exactly for the empty string. *)
Theorem gsk_path_parse_calls_shape (string : list ascii) (calls : GskPathBuilder) :
  gsk_path_parse string = Some calls ->
  starts_with_move_to calls /\
  no_draw_after_close calls /\
  (calls = [] <-> hd NUL string = NUL).
Proof.
  unfold gsk_path_parse.
  destruct (gsk_path_parse_loop _ _) as [b| |] eqn:Hl; try discriminate.
  intros H. injection H as <-.
  destruct (gsk_path_parse_loop_parsed _ _ _ Hl) as (st & Hr & Hp & _ & <-).
  destruct (parser_invariant_reaches _ _ Hr (parser_invariant_start string))
    as [(_ & Hx & Hmv & _ & Hadj) Hst].
  split; [exact Hmv|]. split; [exact Hadj|].
  assert (Hpeek : forall l, peek (mkCursor None l) = hd NUL l)
    by (intros [|? ?]; reflexivity).
  split.
  - intros Hb. apply Hx in Hb. destruct Hst as [->|Hne]; [|contradiction].
    cbn [gsk_path_parse_start p] in Hp. rewrite Hpeek in Hp.
    apply Ascii.eqb_eq. exact Hp.
  - intros Hs. inversion Hr as [st0 E1 E2|st0 st1 st2 Hp0 Hi0 Hr0 E1 E2].
    + reflexivity.
    + cbn [gsk_path_parse_start p] in Hp0. rewrite Hpeek, Hs in Hp0. discriminate.
Qed.

(** X4.  Closing and what follows.  An iteration that runs [Z] or [z]
    adds one [gsk_path_builder_close] and moves the current point back to
    the start of the contour.  An iteration that runs a drawing command
    adds one call that draws; when the command before was [Z] or [z] it
    first adds a [gsk_path_builder_move_to] to the current point, which
    becomes the start of the new contour. *)
Theorem gsk_path_parse_close_and_reopen (st st' : parser_state) :
  gsk_path_parse_iteration st = Some st' ->
  (_strchr "Zz" (cmd st') = true ->
     builder st' = builder st ++ [gsk_path_builder_close] /\
     x st' = path_x st /\ y st' = path_y st /\
     path_x st' = path_x st /\ path_y st' = path_y st) /\
  (_strchr drawing_commands (cmd st') = true ->
     exists call, is_draw call = true /\
       if _strchr "zZ" (cmd st)
       then builder st' =
              builder st ++ [gsk_path_builder_move_to (x st) (y st); call] /\
            path_x st' = x st /\ path_y st' = y st
       else builder st' = builder st ++ [call] /\
            path_x st' = path_x st /\ path_y st' = path_y st).
Proof.
  intros Hi.
  destruct (gsk_path_parse_iteration_calls _ _ Hi) as (found & p1 & Hpc & Hk).
  destruct (command_kinds (cmd st')) as (Kz & Km & Kd & _).
  split.
  - intros Hz. destruct Hk as [H|[H|[H|H]]].
    + tauto.
    + destruct H as [Hm _]. destruct (Kz Hz). congruence.
    + destruct H as [Hm _]. destruct (Kz Hz). congruence.
    + destruct H as [Hd _]. destruct (Kz Hz) as (_ & ? & _). congruence.
  - intros Hd. destruct Hk as [H|[H|[H|H]]].
    + destruct H as [Hz _]. destruct (Kd Hd). congruence.
    + destruct H as [Hm _]. destruct (Kd Hd) as (_ & ? & _). congruence.
    + destruct H as [Hm _]. destruct (Kd Hd) as (_ & ? & _). congruence.
    + destruct H as (_ & call & Hcall & Hb & Hx & Hy). exists call.
      split; [exact Hcall|]. unfold reopen in *.
      destruct (_strchr "zZ" (cmd st)); cbn [fst snd] in *.
      * rewrite Hb, <- app_assoc. auto.
      * auto.
Qed.

(** ** When the parser gives up *)

Ltac split_arguments H :=
  repeat match type of H with
  | context [match parse_number ?q with _ => _ end] =>
      destruct (parse_number q) as [? [?|]] eqn:?
  | context [match parse_nonnegative_number ?q with _ => _ end] =>
      destruct (parse_nonnegative_number q) as [? [?|]] eqn:?
  | context [match parse_flag ?q with _ => _ end] =>
      destruct (parse_flag q) as [? [?|]] eqn:?
  | context [reopen ?c ?st] => destruct (reopen c st) as [[? ?] ?]
  | context [if _strchr ?str ?c then _ else _] => destruct (_strchr str c)
  | context [if ?b then _ else _] => is_var b; destruct b
  end.

Ltac use_equations :=
  repeat match goal with
  | E : ?f ?q = _ |- context [?f ?q] => rewrite E
  end.

Lemma gsk_path_parse_switch_fails (prev_cmd : ascii) (repeat : bool)
    (st : parser_state) :
  command_or_start (cmd st) ->
  gsk_path_parse_switch prev_cmd repeat st = None ->
  cmd st = "X"%char \/
  (_strchr "Zz" (cmd st) = true /\ repeat = true) \/
  exists l, arguments (cmd st) = Some l /\ read_arguments l (p st) = None.
Proof.
  destruct st as [b x0 y0 px py sx sy q c ac]. cbn [cmd p].
  intros [->|Hc] H; [left; reflexivity|right].
  name_in Hc; subst c;
    unfold gsk_path_parse_switch, parse_coordinate_pair, parse_coordinate in H;
    cbn -[parse_number parse_nonnegative_number parse_flag reopen rel _strchr] in H;
    try (destruct repeat; [left; split; reflexivity|discriminate]);
    right; (eexists; split; [reflexivity|]);
    cbn [read_arguments read_argument];
    split_arguments H; try discriminate; use_equations; reflexivity.
Qed.

Lemma gsk_path_parse_iteration_fails (st : parser_state) :
  command_or_start (cmd st) ->
  (gsk_path_parse_iteration st = None <-> syntax_error st).
Proof.
  intros Hcs. split; [|apply syntax_error_iteration].
  rewrite gsk_path_parse_iteration_switch.
  destruct (parse_command (p st) (cmd st)) as [[found p1] c1] eqn:Hc.
  destruct (after_comma st && found) eqn:Ha.
  - intros _. apply andb_true_iff in Ha. destruct Ha as [Ha ->].
    eapply error_stray_comma; eassumption.
  - destruct (gsk_path_parse_switch _ _ _) as [st1|] eqn:Hs; [discriminate|].
    intros _.
    assert (Hc1 : command_or_start c1).
    { destruct found.
      - right. apply (parse_command_found _ _ _ _ Hc).
      - destruct (parse_command_not_found _ _ _ _ Hc) as [-> _]. exact Hcs. }
    apply gsk_path_parse_switch_fails in Hs; [|exact Hc1].
    cbn [cmd p] in Hs. destruct Hs as [->|[[Hz Hr]|(l & Hl & Hread)]].
    + destruct found.
      * destruct (parse_command_found _ _ _ _ Hc) as [H _]. discriminate H.
      * destruct (parse_command_not_found _ _ _ _ Hc) as [Hx _].
        apply error_before_move; [congruence|].
        unfold parse_command in Hc. rewrite <- Hx in Hc. cbn [Ascii.eqb Bool.eqb] in Hc.
        cbv iota in Hc. destruct (_strchr "mM" _); [discriminate|reflexivity].
    + apply negb_true_iff in Hr. subst found.
      destruct (parse_command_not_found _ _ _ _ Hc) as [-> _].
      eapply error_after_close; eassumption.
    + eapply error_arguments; eassumption.
Qed.

Lemma gsk_path_parse_loop_failed (fuel : nat) (st : parser_state) :
  gsk_path_parse_loop fuel st = Failed ->
  exists st', reaches st st' /\
    ((Ascii.eqb (peek (p st')) NUL = false /\ gsk_path_parse_iteration st' = None) \/
     (Ascii.eqb (peek (p st')) NUL = true /\ after_comma st' = true)).
Proof.
  revert st. induction fuel as [|fuel IH]; intros st; simpl; [discriminate|].
  destruct (Ascii.eqb (peek (p st)) NUL) eqn:Hp.
  - destruct (after_comma st) eqn:Ha; [|discriminate].
    intros _. exists st. split; [constructor|]. right. split; assumption.
  - destruct (gsk_path_parse_iteration st) as [st1|] eqn:Hi.
    + intros H. destruct (IH _ H) as (st' & Hr & H').
      exists st'. split; [|exact H'].
      eapply reaches_iteration; eassumption.
    + intros _. exists st. split; [constructor|]. left. split; assumption.
Qed.

(** X5.  [gsk_path_parse] returns [NULL] in these cases and no other:
    an iteration begins, with characters left, in a state with a syntax
    error (a letter after a comma, no [M] at the start, a [Z] without its
    letter, or arguments that cannot be read); or the string ends after a
    comma. *)
Theorem gsk_path_parse_null (string : list ascii) :
  gsk_path_parse string = None <->
  exists st, reaches (gsk_path_parse_start string) st /\
    ((Ascii.eqb (peek (p st)) NUL = false /\ syntax_error st) \/
     (Ascii.eqb (peek (p st)) NUL = true /\ after_comma st = true)).
Proof.
  assert (Hfuel : (remaining (p (gsk_path_parse_start string)) <
                   S (List.length string))%nat)
    by (unfold remaining; simpl; lia).
  unfold gsk_path_parse. split.
  - destruct (gsk_path_parse_loop _ _) as [b| |] eqn:Hl; try discriminate; intros _.
    + destruct (gsk_path_parse_loop_failed _ _ Hl) as (st & Hr & H).
      exists st. split; [exact Hr|].
      destruct H as [[Hp Hi]|H]; [left|right; exact H].
      split; [exact Hp|].
      apply gsk_path_parse_iteration_fails; [|exact Hi].
      apply (parser_invariant_reaches _ _ Hr (parser_invariant_start string)).
    + exfalso. exact (gsk_path_parse_loop_fuel _ _ Hfuel Hl).
  - intros (st & Hr & H).
    destruct (gsk_path_parse_loop_reaches _ _ Hr _ Hfuel) as (fuel' & Hf & ->).
    destruct fuel' as [|fuel']; [lia|]. simpl.
    destruct H as [[Hp He]|[Hp Ha]]; rewrite Hp.
    + rewrite (syntax_error_iteration _ He). reflexivity.
    + rewrite Ha. reflexivity.
Qed.

(** ** White space *)

Lemma gsk_path_parse_loop_any_fuel (fuel fuel' : nat) (st : parser_state) :
  (remaining (p st) < fuel)%nat -> (remaining (p st) < fuel')%nat ->
  gsk_path_parse_loop fuel st = gsk_path_parse_loop fuel' st.
Proof.
  revert fuel' st. induction fuel as [|fuel IH]; intros fuel' st Hf Hf'; [lia|].
  destruct fuel' as [|fuel']; [lia|]. simpl.
  destruct (Ascii.eqb (peek (p st)) NUL); [reflexivity|].
  destruct (gsk_path_parse_iteration st) as [st1|] eqn:Hi; [|reflexivity].
  apply gsk_path_parse_iteration_remaining in Hi. apply IH; lia.
Qed.

Lemma skip_whitespace_from_spaces (b : option ascii) (ws l : list ascii) :
  all_spaces ws ->
  exists b', skip_whitespace_from b (ws ++ l) = skip_whitespace_from b' l.
Proof.
  intros H. revert b. induction H as [|c ws Hc Hws IH]; intros b; simpl.
  - exists b. reflexivity.
  - rewrite Hc. apply IH.
Qed.

Lemma skip_whitespace_from_chars (b1 b2 : option ascii) (l : list ascii) :
  chars (skip_whitespace_from b1 l) = chars (skip_whitespace_from b2 l).
Proof.
  revert b1 b2. induction l as [|c l IH]; intros b1 b2; simpl; [reflexivity|].
  destruct (g_ascii_isspace c); [apply IH|reflexivity].
Qed.

Lemma gsk_path_parse_switch_before_repeat (prev_cmd : ascii)
    (b : GskPathBuilder) (x0 y0 px py sx sy : double)
    (b1 b2 : option ascii) (l : list ascii) (c : ascii) (ac : bool) :
  end_of_iteration
    (gsk_path_parse_switch prev_cmd true
       (mkState b x0 y0 px py sx sy (mkCursor b1 l) c ac)) =
  end_of_iteration
    (gsk_path_parse_switch prev_cmd true
       (mkState b x0 y0 px py sx sy (mkCursor b2 l) c ac)).
Proof.
  destruct (_strchr "ZzMm" c) eqn:Hc.
  - name_in Hc; subst c; unfold gsk_path_parse_switch;
      cbn -[parse_coordinate_pair rel]; try reflexivity;
      (destruct (parse_coordinate_pair_before b1 b2 l)
         as [(q & [v1 v2] & -> & ->)|[-> ->]]; reflexivity).
  - apply gsk_path_parse_switch_before. exact Hc.
Qed.

(** White space in front of what an iteration reads changes nothing. *)
Lemma gsk_path_parse_iteration_spaces (b : GskPathBuilder)
    (x0 y0 px py sx sy : double) (b1 b2 : option ascii) (ws l : list ascii)
    (c : ascii) (ac : bool) :
  all_spaces ws ->
  gsk_path_parse_iteration
    (mkState b x0 y0 px py sx sy (mkCursor b1 (ws ++ l)) c ac) =
  gsk_path_parse_iteration
    (mkState b x0 y0 px py sx sy (mkCursor b2 l) c ac).
Proof.
  intros Hws. rewrite !gsk_path_parse_iteration_switch.
  cbn [p cmd after_comma builder x y prev_x1 prev_y1 path_x path_y].
  unfold parse_command, skip_whitespace. cbn [before chars].
  destruct (skip_whitespace_from_spaces b1 ws l Hws) as (b1' & ->).
  assert (Hch := skip_whitespace_from_chars b1' b2 l).
  destruct (skip_whitespace_from b1' l) as [c1 l1].
  destruct (skip_whitespace_from b2 l) as [c2 l2].
  cbn [chars] in Hch. subst l2. unfold peek, next. cbn [chars].
  destruct (_strchr _ _) eqn:Hs.
  - destruct l1 as [|a l1]; [|reflexivity].
    apply _strchr_not_nul in Hs. discriminate.
  - rewrite !andb_false_r. cbn [negb].
    apply gsk_path_parse_switch_before_repeat.
Qed.

Lemma space_not_nul (c : ascii) : g_ascii_isspace c = true -> Ascii.eqb c NUL = false.
Proof.
  intros H. apply Ascii.eqb_neq. intros ->.
  rewrite g_ascii_isspace_nul in H. discriminate.
Qed.

(** X6.  White space in front of a string that is not empty does not
    change what [gsk_path_parse] returns. *)
Theorem gsk_path_parse_leading_spaces (ws string : list ascii) :
  all_spaces ws ->
  hd NUL string <> NUL ->
  gsk_path_parse (ws ++ string) = gsk_path_parse string.
Proof.
  intros Hws Hs. unfold gsk_path_parse. f_equal.
  destruct string as [|a string]; [contradiction|]. cbn [hd] in Hs.
  apply Ascii.eqb_neq in Hs.
  destruct ws as [|w ws]; [reflexivity|].
  assert (Hw : Ascii.eqb w NUL = false)
    by (apply space_not_nul; inversion Hws; assumption).
  cbn [gsk_path_parse_loop gsk_path_parse_start p peek chars app]. rewrite Hw, Hs.
  change (w :: ws ++ a :: string) with ((w :: ws) ++ a :: string).
  unfold gsk_path_parse_start.
  rewrite (gsk_path_parse_iteration_spaces _ _ _ _ _ _ _ None None _ _ _ _ Hws).
  destruct (gsk_path_parse_iteration _) as [st1|] eqn:Hi; [|reflexivity].
  apply gsk_path_parse_iteration_remaining in Hi.
  unfold remaining in Hi at 2. cbn [p chars] in Hi.
  rewrite (gsk_path_parse_loop_any_fuel _ (List.length (a :: string)) st1);
    [reflexivity| |exact Hi].
  rewrite length_app. lia.
Qed.

(** A failing iteration ends the parse. *)
Lemma gsk_path_parse_fails_at (string : list ascii) (st : parser_state) :
  reaches (gsk_path_parse_start string) st ->
  Ascii.eqb (peek (p st)) NUL = false ->
  gsk_path_parse_iteration st = None ->
  gsk_path_parse string = None.
Proof.
  intros Hr Hp Hi. unfold gsk_path_parse.
  assert (Hfuel : (remaining (p (gsk_path_parse_start string)) <
                   S (List.length string))%nat)
    by (unfold remaining; simpl; lia).
  destruct (gsk_path_parse_loop_reaches _ _ Hr _ Hfuel) as (fuel' & Hf & ->).
  destruct fuel' as [|fuel']; [lia|]. simpl. rewrite Hp, Hi. reflexivity.
Qed.

Lemma skip_whitespace_from_all (b : option ascii) (ws : list ascii) :
  all_spaces ws -> chars (skip_whitespace_from b ws) = [].
Proof.
  intros H. revert b. induction H as [|c ws Hc Hws IH]; intros b; simpl.
  - reflexivity.
  - rewrite Hc. apply IH.
Qed.

(** X7.  White space at the end is an error where a letter is needed:
    when only white space is left, and not nothing, before the first
    command or after a [Z] or [z], [gsk_path_parse] returns [NULL].  A
    string of white space alone is the first case. *)
Theorem gsk_path_parse_spaces_at_the_end (string : list ascii) (st : parser_state) :
  reaches (gsk_path_parse_start string) st ->
  cmd st = "X"%char \/ _strchr "Zz" (cmd st) = true ->
  chars (p st) <> [] ->
  all_spaces (chars (p st)) ->
  gsk_path_parse string = None.
Proof.
  intros Hr Hcmd Hne Hws.
  assert (Hskip : chars (skip_whitespace (p st)) = [])
    by (apply skip_whitespace_from_all; exact Hws).
  assert (Hpc : parse_command (p st) (cmd st) = (false, skip_whitespace (p st), cmd st)).
  { unfold parse_command, peek. rewrite Hskip.
    destruct (Ascii.eqb (cmd st) "X"); reflexivity. }
  apply (gsk_path_parse_fails_at _ st Hr).
  - unfold peek. destruct (chars (p st)) as [|c l]; [contradiction|].
    apply space_not_nul. inversion Hws; assumption.
  - apply syntax_error_iteration. destruct Hcmd as [Hx|Hz].
    + apply error_before_move; [exact Hx|]. unfold peek. rewrite Hskip. reflexivity.
    + eapply error_after_close; eassumption.
Qed.

(** ** Commands without their letter, run *)




End ParserMore.

(* ================================================================== *)
(** * More on the path aggregate *)

Section PathMoreFacts.

Context {CC : GskContourClass} {CP : GskContourPointClass}.

Import PathPoint.

(** ** Reference counting *)

Lemma guint_wrap_small (n : Z) : 0 <= n <= G_MAXUINT -> guint_wrap n = n.
Proof. unfold guint_wrap, G_MAXUINT. intros H. apply Z.mod_small. lia. Qed.

(** X8.  Reference counting.  Take a live path and any sequence of
    [gsk_path_ref] and [gsk_path_unref] calls during which the count stays
    between 1 and [G_MAXUINT].  The count ends as the count at the start plus
    the references taken minus the references dropped; the path is freed
    exactly when that is zero, which only the last call can bring about;
    and the flags and the contours are never touched. *)
Theorem gsk_path_ref_count_balance (calls : list ref_call) (self : GskPath) :
  0 < ref_count self <= G_MAXUINT ->
  (forall i, (i < List.length calls)%nat ->
     0 < ref_count self + balance (firstn i calls) <= G_MAXUINT) ->
  0 <= ref_count self + balance calls <= G_MAXUINT ->
  run_ref_calls calls self =
    if ref_count self + balance calls =? 0 then None
    else Some {| ref_count := ref_count self + balance calls;
                 flags := flags self;
                 contours := contours self |}.
Proof.
  revert self. induction calls as [|call calls IH]; intros self H0 Hpre Hend.
  - simpl in *. rewrite Z.add_0_r in *.
    destruct self as [n f l]. simpl in *.
    destruct (Z.eqb_spec n 0); [lia|reflexivity].
  - assert (Hnext : calls <> [] ->
              0 < ref_count self + balance [call] <= G_MAXUINT).
    { intros Hne. apply (Hpre 1%nat). destruct calls; [contradiction|simpl; lia]. }
    assert (Hlater : forall i, (i < List.length calls)%nat ->
              0 < ref_count self + balance (call :: firstn i calls) <= G_MAXUINT).
    { intros i Hi. apply (Hpre (S i)). simpl. lia. }
    destruct call; cbn [run_ref_calls balance] in *.
    + assert (Hup : ref_count self + 1 <= G_MAXUINT).
      { destruct calls as [|c calls]; [simpl in Hend; lia|].
        assert (H := Hnext ltac:(discriminate)). lia. }
      rewrite IH; unfold gsk_path_ref; cbn [ref_count flags contours];
        rewrite guint_wrap_small by lia.
      * replace (ref_count self + 1 + balance calls)
          with (ref_count self + (1 + balance calls)) by ring.
        reflexivity.
      * lia.
      * intros i Hi. specialize (Hlater i Hi). lia.
      * lia.
    + unfold gsk_path_unref.
      assert (Hpos : (ref_count self >? 0) = true) by (apply Z.gtb_lt; lia).
      rewrite Hpos. cbn [negb ref_count].
      rewrite guint_wrap_small by lia.
      destruct (Z.gtb_spec (ref_count self - 1) 0) as [Hgt|Hle].
      * rewrite IH; cbn [ref_count flags contours].
        -- replace (ref_count self - 1 + balance calls)
             with (ref_count self + (balance calls - 1)) by ring.
           reflexivity.
        -- lia.
        -- intros i Hi. specialize (Hlater i Hi). lia.
        -- lia.
      * destruct calls as [|c calls].
        -- cbn [run_ref_calls balance].
           destruct (Z.eqb_spec (ref_count self + (0 - 1)) 0); [reflexivity|lia].
        -- assert (H := Hnext ltac:(discriminate)). simpl in H. lia.
Qed.

(** ** Printing *)

(** X9.  The text of a path made of the contours of two paths is the text
    of the first, one space when neither is empty, and the text of the
    second, which is what [test_create] builds with [gsk_path_print]. *)
Theorem gsk_path_to_string_union (l1 l2 : list GskContour) :
  let path1 := gsk_path_new_from_contours l1 in
  let path2 := gsk_path_new_from_contours l2 in
  gsk_path_to_string (gsk_path_new_from_contours (l1 ++ l2)) =
  gsk_path_print path2
    (let str := gsk_path_print path1 [] in
     if negb (gsk_path_is_empty path1) && negb (gsk_path_is_empty path2)
     then str ++ [" "%char] else str).
Proof.
  cbv zeta. unfold gsk_path_to_string, gsk_path_is_empty.
  rewrite !gsk_path_print_spaces.
  unfold gsk_path_new_from_contours, n_contours. cbn [contours].
  rewrite !copy_contours_id.
  destruct l1 as [|c1 l1]; [destruct l2; reflexivity|].
  destruct l2 as [|c2 l2].
  - simpl. rewrite !app_nil_r. reflexivity.
  - replace (Z.of_nat (List.length (c1 :: l1)) =? 0) with false
      by (symmetry; apply Z.eqb_neq; simpl List.length; lia).
    replace (Z.of_nat (List.length (c2 :: l2)) =? 0) with false
      by (symmetry; apply Z.eqb_neq; simpl List.length; lia).
    cbn [negb andb app]. rewrite map_app, concat_app. cbn [map List.concat].
    rewrite <- !app_assoc. reflexivity.
Qed.

(** ** Filling *)

Lemma fold_winding_acc (point : graphene_point_t) (l : list GskContour) (a : Z) :
  fold_left (fun acc c => acc + gsk_contour_get_winding c point) l a =
  a + fold_left (fun acc c => acc + gsk_contour_get_winding c point) l 0.
Proof.
  revert a. induction l as [|c l IH]; intros a; simpl; [lia|].
  rewrite IH, (IH (gsk_contour_get_winding c point)). lia.
Qed.

Lemma total_winding_app (l1 l2 : list GskContour) (point : graphene_point_t) :
  total_winding (gsk_path_new_from_contours (l1 ++ l2)) point =
  total_winding (gsk_path_new_from_contours l1) point +
  total_winding (gsk_path_new_from_contours l2) point.
Proof.
  unfold total_winding, gsk_path_new_from_contours. cbn [contours].
  rewrite !copy_contours_id, fold_left_app. apply fold_winding_acc.
Qed.

Lemma total_winding_contours (self : GskPath) (point : graphene_point_t) :
  total_winding (gsk_path_new_from_contours (contours self)) point =
  total_winding self point.
Proof.
  unfold total_winding, gsk_path_new_from_contours. cbn [contours].
  rewrite copy_contours_id. reflexivity.
Qed.

Lemma gsk_path_in_fill_even_odd_winding (self : GskPath) (point : graphene_point_t) :
  gsk_path_in_fill self point GSK_FILL_RULE_EVEN_ODD = true ->
  gsk_path_in_fill self point GSK_FILL_RULE_WINDING = true.
Proof.
  unfold gsk_path_in_fill. intros H.
  destruct (Z.eqb_spec (sum_winding 0 point (contours self)) 0) as [E|E];
    [|reflexivity].
  rewrite E in H. discriminate.
Qed.

(** X10.  Even-odd filling of a union.  A point is inside the path made of
    the contours of several paths, by the even-odd rule, exactly when it is
    inside an odd number of them by that rule; so it is outside when it is
    in none and inside when it is in one, as [test_in_fill_union] checks.
    When the number is odd the point is also inside by the winding rule. *)
Theorem gsk_path_in_fill_union (paths : list GskPath) (point : graphene_point_t) :
  gsk_path_in_fill (union_of paths) point GSK_FILL_RULE_EVEN_ODD =
    Nat.odd (n_in_fill paths point) /\
  (n_in_fill paths point = 0%nat ->
     gsk_path_in_fill (union_of paths) point GSK_FILL_RULE_EVEN_ODD = false) /\
  (n_in_fill paths point = 1%nat ->
     gsk_path_in_fill (union_of paths) point GSK_FILL_RULE_EVEN_ODD = true) /\
  (Nat.odd (n_in_fill paths point) = true ->
     gsk_path_in_fill (union_of paths) point GSK_FILL_RULE_WINDING = true).
Proof.
  assert (Hodd : gsk_path_in_fill (union_of paths) point GSK_FILL_RULE_EVEN_ODD =
                 Nat.odd (n_in_fill paths point)).
  { rewrite gsk_path_in_fill_even_odd. unfold union_of, n_in_fill.
    induction paths as [|q paths IH]; [reflexivity|].
    cbn [flat_map filter]. rewrite total_winding_app, total_winding_contours.
    rewrite Z.odd_add, IH, gsk_path_in_fill_even_odd.
    destruct (Z.odd (total_winding q point)); cbn [List.length xorb].
    - rewrite Nat.odd_succ, <- Nat.negb_odd. reflexivity.
    - reflexivity. }
  split; [exact Hodd|]. split; [|split].
  - intros H. rewrite Hodd, H. reflexivity.
  - intros H. rewrite Hodd, H. reflexivity.
  - intros H. apply gsk_path_in_fill_even_odd_winding. rewrite Hodd. exact H.
Qed.

Lemma total_winding_sum (l : list GskContour) (point : graphene_point_t) :
  fold_left (fun acc c => acc + gsk_contour_get_winding c point) l 0 =
  fold_right Z.add 0 (map (fun c => gsk_contour_get_winding c point) l).
Proof.
  induction l as [|c l IH]; simpl; [reflexivity|].
  rewrite fold_winding_acc, IH. reflexivity.
Qed.

(** X11.  [gsk_path_in_fill] does not depend on the order of the contours,
    for either fill rule, also when the sum wraps around. *)
Theorem gsk_path_in_fill_order (self other : GskPath) (point : graphene_point_t)
    (fill_rule : GskFillRule) :
  Permutation (contours self) (contours other) ->
  gsk_path_in_fill self point fill_rule = gsk_path_in_fill other point fill_rule.
Proof.
  intros H.
  assert (Hw : sum_winding 0 point (contours self) =
               sum_winding 0 point (contours other)).
  { rewrite !sum_winding_fold by reflexivity. f_equal.
    rewrite !total_winding_sum.
    induction H as [|c l l' H IH|c d l|l l' l'' H IH H' IH']; simpl; lia. }
  unfold gsk_path_in_fill. rewrite Hw. reflexivity.
Qed.

(** ** The path without contours *)

Lemma gsk_path_get_end_point_last (self : GskPath) (front : list GskContour)
    (last : GskContour) :
  n_contours self <= G_MAXSIZE ->
  contours self = front ++ [last] ->
  gsk_path_get_end_point self =
    Some {| contour := n_contours self - 1;
            idx := gsize_wrap (gsk_contour_get_n_ops last - 1);
            t := 1 |}.
Proof.
  intros Hfit Hc. unfold gsk_path_get_end_point, gsk_path_get_contour.
  destruct (n_contours self =? 0) eqn:Hn.
  - apply n_contours_zero in Hn. rewrite Hn in Hc. destruct front; discriminate.
  - assert (Hlen : n_contours self = Z.of_nat (List.length front) + 1).
    { unfold n_contours. rewrite Hc, length_app. simpl. lia. }
    assert (Hw : gsize_wrap (n_contours self - 1) = n_contours self - 1).
    { unfold gsize_wrap, G_MAXSIZE in *. apply Z.mod_small. lia. }
    rewrite Hw, Hc.
    replace (Z.to_nat (n_contours self - 1)) with (List.length front) by lia.
    rewrite nth_error_last. reflexivity.
Qed.

(** X12.  The queries agree on which path is empty.  [gsk_path_is_empty]
    holds exactly when the path has no contour, when [gsk_path_get_bounds]
    and [gsk_path_get_stroke_bounds] return [FALSE], and when
    [gsk_path_get_start_point] and [gsk_path_get_end_point] return [FALSE];
    an empty path is not closed, holds no point by either fill rule and
    prints nothing. *)
Theorem gsk_path_is_empty_queries (self : GskPath) :
  n_contours self <= G_MAXSIZE ->
  (gsk_path_is_empty self = true <-> gsk_path_get_n_contours self = 0) /\
  (gsk_path_is_empty self = negb (fst (gsk_path_get_bounds self))) /\
  (forall stroke,
     gsk_path_is_empty self = negb (fst (gsk_path_get_stroke_bounds self stroke))) /\
  (gsk_path_is_empty self = true <-> gsk_path_get_start_point self = None) /\
  (gsk_path_is_empty self = true <-> gsk_path_get_end_point self = None) /\
  (gsk_path_is_empty self = true ->
     gsk_path_is_closed self = false /\
     (forall point fill_rule, gsk_path_in_fill self point fill_rule = false) /\
     (forall string, gsk_path_print self string = string) /\
     gsk_path_to_string self = []).
Proof.
  intros Hfit. unfold gsk_path_is_empty, gsk_path_get_n_contours.
  split; [apply Z.eqb_eq|].
  unfold gsk_path_get_bounds, gsk_path_get_stroke_bounds, gsk_path_get_start_point,
    gsk_path_is_closed, gsk_path_to_string, gsk_path_print,
    gsk_path_in_fill, gsk_path_get_contour.
  destruct (n_contours self =? 0) eqn:Hn.
  - unfold gsk_path_get_end_point. rewrite Hn.
    apply n_contours_zero in Hn. unfold n_contours. rewrite Hn. cbn.
    repeat split; try reflexivity.
    intros point []; reflexivity.
  - assert (Hne : contours self <> []).
    { intros H. apply n_contours_zero in H. congruence. }
    destruct (exists_last Hne) as (front & last & Hc).
    rewrite (gsk_path_get_end_point_last self front last Hfit Hc).
    destruct (contours self) as [|c0 others]; [contradiction|]. cbn [fst negb].
    repeat split; try discriminate; reflexivity.
Qed.

(** ** Stroke bounds *)

Lemma union_stroke_bounds_boxes (stroke : GskStroke) (l : list GskContour)
    (b : GskBoundingBox) :
  union_stroke_bounds stroke b l =
  fold_left gsk_bounding_box_union (stroke_boxes stroke l) b.
Proof.
  unfold stroke_boxes. revert b. induction l as [|c l IH]; intros b; simpl;
    [reflexivity|].
  destruct (gsk_contour_get_stroke_bounds c stroke) as [[|] tmp]; simpl; apply IH.
Qed.

(** X13.  [gsk_path_get_stroke_bounds] of a path with a contour joins the
    box that [gsk_contour_get_stroke_bounds] stores for the first contour,
    whatever it returns for it, with the boxes of the later contours for
    which it returns [TRUE].  A later contour for which it returns [FALSE]
    can be taken out of the path without changing the result. *)
Theorem gsk_path_get_stroke_bounds_union (self : GskPath) (stroke : GskStroke)
    (c0 : GskContour) (others : list GskContour) :
  contours self = c0 :: others ->
  gsk_path_get_stroke_bounds self stroke =
    (true,
     gsk_bounding_box_to_rect
       (fold_left gsk_bounding_box_union (stroke_boxes stroke others)
          (snd (gsk_contour_get_stroke_bounds c0 stroke)))) /\
  (forall front back c,
     others = front ++ c :: back ->
     fst (gsk_contour_get_stroke_bounds c stroke) = false ->
     forall other : GskPath, contours other = c0 :: front ++ back ->
     gsk_path_get_stroke_bounds other stroke = gsk_path_get_stroke_bounds self stroke).
Proof.
  intros Hc.
  assert (Hb : forall (p : GskPath) l, contours p = c0 :: l ->
            gsk_path_get_stroke_bounds p stroke =
              (true,
               gsk_bounding_box_to_rect
                 (fold_left gsk_bounding_box_union (stroke_boxes stroke l)
                    (snd (gsk_contour_get_stroke_bounds c0 stroke))))).
  { intros p l Hp. unfold gsk_path_get_stroke_bounds.
    destruct (n_contours p =? 0) eqn:Hn.
    - apply n_contours_zero in Hn. congruence.
    - rewrite Hp, union_stroke_bounds_boxes. reflexivity. }
  split; [exact (Hb _ _ Hc)|].
  intros front back c -> Hfalse other Ho.
  rewrite (Hb _ _ Hc), (Hb _ _ Ho). do 3 f_equal.
  unfold stroke_boxes. rewrite !map_app, !filter_app. cbn [map filter].
  rewrite Hfalse. reflexivity.
Qed.

(** ** The closest point *)

Lemma closest_point_loop_none (i : Z) (l : list GskContour)
    (point : graphene_point_t) (threshold : Q) (res : option GskRealPathPoint) :
  (forall c, In c l -> gsk_contour_get_closest_point c point threshold = None) ->
  closest_point_loop i l point threshold res = (threshold, res).
Proof.
  revert i. induction l as [|c l IH]; intros i H; simpl; [reflexivity|].
  rewrite (H c) by (left; reflexivity). apply IH.
  intros d Hd. apply H. right. exact Hd.
Qed.

(** The threshold that the loop ends with depends on the contours and on
    the threshold that it starts with, and on nothing else. *)
Lemma closest_point_loop_threshold (i i' : Z) (l : list GskContour)
    (point : graphene_point_t) (threshold : Q) (res res' : option GskRealPathPoint) :
  fst (closest_point_loop i l point threshold res) =
  fst (closest_point_loop i' l point threshold res').
Proof.
  revert i i' threshold res res'.
  induction l as [|c l IH]; intros i i' threshold res res'; simpl; [reflexivity|].
  destruct (gsk_contour_get_closest_point c point threshold) as [[r d]|]; apply IH.
Qed.

(** One more contour: the threshold becomes the distance that the contour
    reports, when it reports a point. *)
Lemma closest_point_loop_threshold_last (i : Z) (l : list GskContour) (c : GskContour)
    (point : graphene_point_t) (threshold : Q) (res : option GskRealPathPoint) :
  fst (closest_point_loop i (l ++ [c]) point threshold res) =
  match gsk_contour_get_closest_point c point
          (fst (closest_point_loop i l point threshold res)) with
  | Some (_, distance) => distance
  | None => fst (closest_point_loop i l point threshold res)
  end.
Proof.
  revert i threshold res. induction l as [|c' l IH]; intros i threshold res; simpl.
  - destruct (gsk_contour_get_closest_point c point threshold) as [[r d]|]; reflexivity.
  - destruct (gsk_contour_get_closest_point c' point threshold) as [[r d]|]; apply IH.
Qed.

(** The loop returns what it was given, and then no contour has a point
    within the threshold, or the last point that a contour has reported,
    at the threshold in force when the loop came to that contour. *)
Lemma closest_point_loop_last (l : list GskContour) (k : nat)
    (point : graphene_point_t) (threshold : Q) (res : option GskRealPathPoint) :
  Z.of_nat k + Z.of_nat (List.length l) <= G_MAXINT + 1 ->
  (snd (closest_point_loop (Z.of_nat k) l point threshold res) = res /\
   forall c, In c l -> gsk_contour_get_closest_point c point threshold = None) \/
  (exists j c r0 d,
     nth_error l j = Some c /\
     gsk_contour_get_closest_point c point
       (fst (closest_point_loop (Z.of_nat k) (firstn j l) point threshold res)) =
       Some (r0, d) /\
     snd (closest_point_loop (Z.of_nat k) l point threshold res) =
       Some {| contour := Z.of_nat (k + j); idx := idx r0; t := t r0 |} /\
     forall j' c', (j < j')%nat -> nth_error l j' = Some c' ->
       gsk_contour_get_closest_point c' point d = None).
Proof.
  revert k threshold res. induction l as [|c l IH]; intros k threshold res Hk.
  - left. split; [reflexivity|]. intros c [].
  - cbn [List.length] in Hk.
    assert (Hi : int_wrap (Z.of_nat k + 1) = Z.of_nat (S k) \/ l = []).
    { destruct l as [|c' l']; [right; reflexivity|left].
      cbn [List.length] in Hk. rewrite int_wrap_in_range;
        unfold G_MININT, G_MAXINT in *; lia. }
    assert (Hloop : forall l' th r, (List.length l' <= List.length l)%nat ->
              closest_point_loop (int_wrap (Z.of_nat k + 1)) l' point th r =
              closest_point_loop (Z.of_nat (S k)) l' point th r).
    { intros l' th r Hl'. destruct Hi as [->| ->]; [reflexivity|].
      destruct l'; [reflexivity|simpl in Hl'; lia]. }
    assert (Hfirst : forall j th r,
              closest_point_loop (int_wrap (Z.of_nat k + 1)) (firstn j l) point th r =
              closest_point_loop (Z.of_nat (S k)) (firstn j l) point th r).
    { intros j th r. apply Hloop. rewrite length_firstn. lia. }
    cbn [closest_point_loop].
    destruct (gsk_contour_get_closest_point c point threshold) as [[r distance]|] eqn:Hc;
      rewrite Hloop by lia.
    + right.
      destruct (IH (S k) distance
                  (Some {| contour := gsize_wrap (Z.of_nat k); idx := idx r; t := t r |}))
        as [[Hsame Hnone]|(j & c' & r0 & d & Hj & Hhit & Hres & Hafter)]; [lia| |].
      * exists 0%nat, c, r, distance.
        split; [reflexivity|]. split; [exact Hc|]. split.
        -- rewrite Hsame. do 2 f_equal. rewrite Nat.add_0_r.
           unfold gsize_wrap, G_MAXINT in *. apply Z.mod_small. lia.
        -- intros j' c' Hj' Hn. destruct j' as [|j']; [lia|].
           apply Hnone. eapply nth_error_In. exact Hn.
      * exists (S j), c', r0, d.
        split; [exact Hj|]. split.
        { cbn [firstn closest_point_loop]. rewrite Hc, Hfirst. exact Hhit. }
        split.
        -- rewrite Hres. do 2 f_equal. lia.
        -- intros j' c'' Hj' Hn. destruct j' as [|j']; [lia|].
           apply (Hafter j' c''); [lia|exact Hn].
    + destruct (IH (S k) threshold res)
        as [[Hsame Hnone]|(j & c' & r0 & d & Hj & Hhit & Hres & Hafter)]; [lia| |].
      * left. split; [exact Hsame|]. intros d [<-|Hd]; [exact Hc|apply Hnone, Hd].
      * right. exists (S j), c', r0, d.
        split; [exact Hj|]. split.
        { cbn [firstn closest_point_loop]. rewrite Hc, Hfirst. exact Hhit. }
        split.
        -- rewrite Hres. do 2 f_equal. lia.
        -- intros j' c'' Hj' Hn. destruct j' as [|j']; [lia|].
           apply (Hafter j' c''); [lia|exact Hn].
Qed.

(** X14.  [gsk_path_get_closest_point], for a path whose contours can be
    counted by an [int].  A negative threshold gives [FALSE].  Otherwise the
    result is [FALSE] exactly when no contour has a point within the
    threshold.  A point that is returned has the index of a contour of the
    path, so it passes the check of [gsk_path_point_get_position]; its
    operation and parameter are what that contour has reported at the
    threshold in force when the loop came to it; and no later contour has a
    point within the distance found.  The threshold in force is the one
    given at the first contour, and after a contour that reports a point
    it is the distance reported. *)
Theorem gsk_path_get_closest_point_last (self : GskPath)
    (point : graphene_point_t) (threshold : Q) :
  n_contours self <= G_MAXINT ->
  ((threshold < 0)%Q -> gsk_path_get_closest_point self point threshold = None) /\
  ((0 <= threshold)%Q ->
     (gsk_path_get_closest_point self point threshold = None <->
      forall c, In c (contours self) ->
        gsk_contour_get_closest_point c point threshold = None)) /\
  (forall r, gsk_path_get_closest_point self point threshold = Some r ->
     0 <= contour r < gsk_path_get_n_contours self /\
     exists c r0 d,
       gsk_path_get_contour self (Z.to_nat (contour r)) = Some c /\
       gsk_contour_get_closest_point c point
         (threshold_at self point threshold (Z.to_nat (contour r))) = Some (r0, d) /\
       idx r = idx r0 /\ t r = t r0 /\
       forall j c', (Z.to_nat (contour r) < j)%nat ->
         gsk_path_get_contour self j = Some c' ->
         gsk_contour_get_closest_point c' point d = None) /\
  threshold_at self point threshold 0 = threshold /\
  (forall j c, gsk_path_get_contour self j = Some c ->
     threshold_at self point threshold (S j) =
       match gsk_contour_get_closest_point c point
               (threshold_at self point threshold j) with
       | Some (_, distance) => distance
       | None => threshold_at self point threshold j
       end).
Proof.
  intros Hfit. unfold gsk_path_get_closest_point, gsk_path_get_n_contours,
    gsk_path_get_contour, threshold_at.
  assert (Hk : Z.of_nat 0 + Z.of_nat (List.length (contours self)) <= G_MAXINT + 1)
    by (unfold n_contours in Hfit; lia).
  assert (Hspec := closest_point_loop_last (contours self) 0 point threshold None Hk).
  change (Z.of_nat 0) with 0 in Hspec.
  split; [|split; [|split; [|split]]].
  - intros Hneg. destruct (Qle_bool 0 threshold) eqn:Hle; [|reflexivity].
    apply Qle_bool_iff in Hle. exfalso. exact (Qlt_not_le _ _ Hneg Hle).
  - intros Hpos. apply Qle_bool_iff in Hpos. rewrite Hpos. cbn [negb]. split.
    + intros Hnone. destruct Hspec as [[_ H]|(j & c & r0 & d & _ & _ & Hres & _)];
        [exact H|congruence].
    + intros H. rewrite closest_point_loop_none by exact H. reflexivity.
  - intros r. destruct (Qle_bool 0 threshold); [|discriminate]. cbn [negb].
    intros Hr.
    destruct Hspec as [[Hsame _]|(j & c & r0 & d & Hj & Hhit & Hres & Hafter)];
      [congruence|].
    rewrite Hres in Hr. injection Hr as <-. cbn [contour idx t].
    assert (Hlt : (j < List.length (contours self))%nat).
    { apply nth_error_Some. congruence. }
    split; [unfold n_contours; lia|].
    rewrite Nat2Z.id. exists c, r0, d. auto.
  - reflexivity.
  - intros j c Hj.
    assert (Hsplit : firstn (S j) (contours self) = firstn j (contours self) ++ [c]).
    { clear -Hj. revert j Hj. induction (contours self) as [|c0 l IH]; intros j Hj.
      - destruct j; discriminate.
      - destruct j as [|j]; simpl in *.
        + injection Hj as ->. reflexivity.
        + f_equal. apply IH. exact Hj. }
    rewrite Hsplit. apply closest_point_loop_threshold_last.
Qed.

(** ** Start and end *)

(** X15.  The start point of a path is never after its end point.  For a
    path that is not empty and whose last contour has an operation, both
    points exist, are valid, have the index of a contour of the path, and
    [gsk_path_point_compare] of start and end is not positive; the two are
    equal exactly when the path is a single contour of one operation. *)
Theorem gsk_path_start_before_end (self : GskPath) (front : list GskContour)
    (last : GskContour) :
  n_contours self <= G_MAXSIZE ->
  contours self = front ++ [last] ->
  1 <= gsk_contour_get_n_ops last <= G_MAXSIZE ->
  exists s e,
    gsk_path_get_start_point self = Some s /\
    gsk_path_get_end_point self = Some e /\
    valid_point s /\ valid_point e /\
    contour s < gsk_path_get_n_contours self /\
    contour e < gsk_path_get_n_contours self /\
    gsk_path_point_compare s e <= 0 /\
    (gsk_path_point_equal s e = true <->
     front = [] /\ gsk_contour_get_n_ops last = 1).
Proof.
  intros Hfit Hc Hops.
  assert (Hlen : n_contours self = Z.of_nat (List.length front) + 1).
  { unfold n_contours. rewrite Hc, length_app. simpl. lia. }
  assert (Hfront : front = [] <-> n_contours self - 1 = 0).
  { rewrite Hlen. destruct front as [|c front]; cbn [List.length]; split;
      intros H; try reflexivity; try discriminate; lia. }
  eexists. eexists.
  split.
  { unfold gsk_path_get_start_point.
    replace (n_contours self =? 0) with false by (symmetry; apply Z.eqb_neq; lia).
    reflexivity. }
  split; [apply (gsk_path_get_end_point_last self front last Hfit Hc)|].
  assert (Hw : gsize_wrap (gsk_contour_get_n_ops last - 1) =
               gsk_contour_get_n_ops last - 1).
  { unfold gsize_wrap, G_MAXSIZE in *. apply Z.mod_small. lia. }
  rewrite Hw.
  set (s := {| contour := 0; idx := 1; t := 0 |}).
  set (e := {| contour := n_contours self - 1;
               idx := gsk_contour_get_n_ops last - 1; t := 1 |}).
  assert (Hs : valid_point s).
  { unfold valid_point, s, G_MAXSIZE. cbn [contour idx t]. split; [lia|].
    split; [lia|]. split; [apply Qle_refl|discriminate]. }
  assert (He : valid_point e).
  { unfold valid_point, e. cbn [contour idx t]. split; [lia|].
    split; [lia|]. split; [discriminate|apply Qle_refl]. }
  split; [exact Hs|]. split; [exact He|].
  unfold gsk_path_get_n_contours.
  split; [unfold s; cbn [contour]; lia|]. split; [unfold e; cbn [contour]; lia|].
  assert (Heq : gsk_path_point_equal s e = true <->
                front = [] /\ gsk_contour_get_n_ops last = 1).
  { rewrite (PathPointFacts.gsk_path_point_equal_position Hs He), Hfront.
    unfold position, s, e. cbn [contour idx t]. split.
    - intros [H0 Hp]. split; [lia|].
      assert (Hq : (inject_Z (gsk_contour_get_n_ops last - 1) == inject_Z 0)%Q).
      { change (inject_Z 1) with 1%Q in Hp. change (inject_Z 0) with 0%Q. lra. }
      unfold Qeq in Hq. simpl in Hq. lia.
    - intros [H0 H1]. split; [lia|]. rewrite H1. reflexivity. }
  split; [|exact Heq].
  apply (PathPointFacts.gsk_path_point_compare_le Hs He).
  unfold position, s, e. cbn [contour idx t].
  destruct (Z.eq_dec (n_contours self - 1) 0) as [E|E]; [right|left; lia].
  split; [lia|].
  assert (Hle : (inject_Z 1 <= inject_Z (gsk_contour_get_n_ops last - 1 + 1))%Q)
    by (rewrite <- Zle_Qle; lia).
  rewrite inject_Z_plus in Hle. change (inject_Z 1) with 1%Q in *. lra.
Qed.

End PathMoreFacts.

(* ================================================================== *)
(** * More on path points *)

Section PathPointMore.

Import PathPoint PathPointFacts.

Lemma gsize_wrap_succ_inj (a b : Z) :
  0 <= a <= G_MAXSIZE -> 0 <= b <= G_MAXSIZE ->
  gsize_wrap (a + 1) = gsize_wrap (b + 1) -> a = b.
Proof.
  unfold gsize_wrap, G_MAXSIZE. intros Ha Hb H.
  destruct (Z.eq_dec a (2 ^ 64 - 1)) as [Ea|Ea];
    destruct (Z.eq_dec b (2 ^ 64 - 1)) as [Eb|Eb].
  - lia.
  - subst a. rewrite (Z.mod_small (b + 1)) in H by lia.
    replace (2 ^ 64 - 1 + 1) with (2 ^ 64) in H by lia.
    rewrite Z.mod_same in H by lia. lia.
  - subst b. rewrite (Z.mod_small (a + 1)) in H by lia.
    replace (2 ^ 64 - 1 + 1) with (2 ^ 64) in H by lia.
    rewrite Z.mod_same in H by lia. lia.
  - rewrite !Z.mod_small in H by lia. lia.
Qed.

(** X16.  On valid path points (indices in range, parameter a number of
    [[0, 1]]) [gsk_path_point_equal] is an equivalence: it is reflexive,
    symmetric and transitive.  [gsk_path_point_compare] does not tell
    equal points apart: equal points compare alike with every third
    point, on either side. *)
Theorem gsk_path_point_equal_equivalence (p q r : GskRealPathPoint) :
  valid_point p -> valid_point q -> valid_point r ->
  gsk_path_point_equal p p = true /\
  gsk_path_point_equal p q = gsk_path_point_equal q p /\
  (gsk_path_point_equal p q = true -> gsk_path_point_equal q r = true ->
     gsk_path_point_equal p r = true) /\
  (gsk_path_point_equal p q = true ->
     gsk_path_point_compare p r = gsk_path_point_compare q r /\
     gsk_path_point_compare r p = gsk_path_point_compare r q).
Proof.
  intros Hp Hq Hr.
  assert (Hip : 0 <= idx p <= G_MAXSIZE) by (destruct Hp as (_ & H & _); lia).
  assert (Hir : 0 <= idx r <= G_MAXSIZE) by (destruct Hr as (_ & H & _); lia).
  split.
  { apply gsk_path_point_equal_true. split; [reflexivity|]. left.
    split; reflexivity. }
  split; [apply gsk_path_point_equal_sym|].
  split.
  - rewrite !gsk_path_point_equal_true.
    intros (Hc1 & H1) (Hc2 & H2). split; [congruence|].
    destruct H1 as [(Hi1 & Ht1)|[(Hi1 & Ha1 & Hb1)|(Hi1 & Ha1 & Hb1)]];
      destruct H2 as [(Hi2 & Ht2)|[(Hi2 & Ha2 & Hb2)|(Hi2 & Ha2 & Hb2)]].
    + left. split; [congruence|]. rewrite Ht1. exact Ht2.
    + right; left. rewrite Hi1. repeat split; try assumption.
      rewrite Ht1. exact Ha2.
    + right; right. rewrite Hi1. repeat split; try assumption.
      rewrite Ht1. exact Ha2.
    + right; left. rewrite <- Hi2. repeat split; try assumption.
      rewrite <- Ht2. exact Hb1.
    + exfalso. rewrite Hb1 in Ha2. discriminate Ha2.
    + left. split.
      * apply gsize_wrap_succ_inj; [assumption|assumption|congruence].
      * rewrite Ha1, Hb2. reflexivity.
    + right; right. rewrite <- Hi2. repeat split; try assumption.
      rewrite <- Ht2. exact Hb1.
    + left. split; [congruence|]. rewrite Ha1, Hb2. reflexivity.
    + exfalso. rewrite Hb1 in Ha2. discriminate Ha2.
  - intros He.
    apply (gsk_path_point_equal_position Hp Hq) in He. destruct He as [Hc Hpos].
    assert (H1 := gsk_path_point_compare_le Hp Hr).
    assert (H2 := gsk_path_point_compare_le Hq Hr).
    assert (H3 := gsk_path_point_compare_le Hr Hp).
    assert (H4 := gsk_path_point_compare_le Hr Hq).
    rewrite Hc, Hpos in H1. rewrite <- Hc, <- Hpos in H4.
    assert (Ha := gsk_path_point_compare_antisym p r).
    assert (Hb := gsk_path_point_compare_antisym q r).
    assert (V1 := gsk_path_point_compare_values p r).
    assert (V2 := gsk_path_point_compare_values q r).
    assert (E : gsk_path_point_compare p r = gsk_path_point_compare q r).
    { assert (L1 : gsk_path_point_compare p r <= 0 <-> gsk_path_point_compare q r <= 0)
        by (rewrite H1, H2; reflexivity).
      assert (L2 : gsk_path_point_compare r p <= 0 <-> gsk_path_point_compare r q <= 0)
        by (rewrite H3, H4; reflexivity).
      lia. }
    split; [exact E|]. lia.
Qed.

End PathPointMore.

(* ================================================================== *)
(** * Properties of gsk_path_foreach *)

Section ForeachFacts.

Context {CC : GskContourClass} {GC : GskCurveClass}.

Variable S : Type.

Hypothesis contour_calls :
  forall c tolerance, calls_only (fun _ => true) (@gsk_contour_foreach _ _ S c tolerance).
Hypothesis decompose_lines :
  forall curve tolerance, adds_lines_only (@gsk_curve_decompose _ _ S curve tolerance).
Hypothesis decompose_curve_flags :
  forall curve flags tolerance,
    calls_only (allowed flags) (@gsk_curve_decompose_curve _ _ S curve flags tolerance).

Lemma flag_allowed_any (flags : Z) :
  Z.land flags ALLOW_ANY = ALLOW_ANY ->
  forall op, allowed flags op = true.
Proof.
  intros H.
  assert (Hbit : forall n, 0 <= n < 3 -> Z.testbit flags n = true).
  { intros n Hn. apply (f_equal (fun z => Z.testbit z n)) in H.
    rewrite Z.land_spec in H.
    assert (Hany : Z.testbit ALLOW_ANY n = true).
    { assert (n = 0 \/ n = 1 \/ n = 2) as [->|[->| ->]] by lia; reflexivity. }
    rewrite Hany, andb_true_r in H. exact H. }
  assert (Hflag : forall n, 0 <= n < 3 -> flag_allowed flags (Z.shiftl 1 n) = true).
  { intros n Hn. unfold flag_allowed. apply negb_true_iff, Z.eqb_neq. intros E.
    apply (f_equal (fun z => Z.testbit z n)) in E.
    rewrite Z.land_spec, (Hbit n Hn), Z.bits_0 in E.
    rewrite Z.shiftl_1_l, Z.pow2_bits_true in E by lia. discriminate. }
  intros []; simpl; try reflexivity; apply Hflag; lia.
Qed.

Lemma gsk_path_foreach_trampoline_calls (flags : Z) (tolerance : gdouble)
    (op : GskPathOperation) (pts : list graphene_point_t) :
  calls_only (allowed flags)
    (fun func : GskPathForeachFunc S =>
       gsk_path_foreach_trampoline flags tolerance func op pts).
Proof.
  intros I func Hfunc s Hs.
  assert (Hline : forall from to p1 p2 reason s',
            I s' -> I (snd (gsk_path_foreach_trampoline_add_line func from to p1 p2 reason s'))).
  { intros. apply Hfunc; [reflexivity|assumption]. }
  assert (Hcurve : forall op' pts' s', allowed flags op' = true ->
            I s' -> I (snd (gsk_path_foreach_trampoline_add_curve func op' pts' s'))).
  { intros. apply Hfunc; assumption. }
  unfold gsk_path_foreach_trampoline.
  destruct op; try (apply Hfunc; [reflexivity|exact Hs]).
  - destruct (flag_allowed flags GSK_PATH_FOREACH_ALLOW_QUAD) eqn:Hq;
      [apply Hfunc; [exact Hq|exact Hs]|].
    destruct (flag_allowed flags GSK_PATH_FOREACH_ALLOW_CUBIC) eqn:Hc;
      [apply Hfunc; [exact Hc|exact Hs]|].
    apply decompose_lines; assumption.
  - destruct (flag_allowed flags GSK_PATH_FOREACH_ALLOW_CUBIC) eqn:Hc;
      [apply Hfunc; [exact Hc|exact Hs]|].
    cbv zeta. destruct (flag_allowed flags GSK_PATH_FOREACH_ALLOW_QUAD).
    + apply (decompose_curve_flags _ flags); assumption.
    + apply decompose_lines; assumption.
  - destruct (flag_allowed flags GSK_PATH_FOREACH_ALLOW_ARC) eqn:Ha;
      [apply Hfunc; [exact Ha|exact Hs]|].
    cbv zeta. destruct (flag_allowed flags (Z.lor _ _)).
    + apply (decompose_curve_flags _ flags); assumption.
    + apply decompose_lines; assumption.
Qed.

Lemma foreach_contours_calls (l : list GskContour) (tolerance : gdouble) :
  calls_only (fun _ => true)
    (fun func : GskPathForeachFunc S => foreach_contours l tolerance func).
Proof.
  intros I func Hfunc. induction l as [|c l IH]; intros s Hs; simpl; [exact Hs|].
  assert (H := contour_calls c tolerance I func Hfunc s Hs).
  destruct (gsk_contour_foreach c tolerance func s) as [ok s']. simpl in H.
  destruct ok; simpl; [apply IH|]; exact H.
Qed.

Lemma gsk_path_foreach_with_tolerance_calls (self : GskPath) (flags : Z)
    (tolerance : gdouble) :
  calls_only (allowed flags)
    (fun func : GskPathForeachFunc S =>
       gsk_path_foreach_with_tolerance self flags tolerance func).
Proof.
  intros I func Hfunc s Hs. unfold gsk_path_foreach_with_tolerance.
  apply foreach_contours_calls; [|exact Hs].
  intros op pts s' _ Hs'.
  destruct (Z.eqb_spec (Z.land flags ALLOW_ANY) ALLOW_ANY) as [E|E]; cbn [negb].
  - apply Hfunc; [|exact Hs']. apply flag_allowed_any. exact E.
  - apply gsk_path_foreach_trampoline_calls; assumption.
Qed.

(** X17.  [gsk_path_foreach] keeps to its flags.  Suppose that
    [gsk_contour_foreach] and [gsk_curve_decompose] reach the user data
    through their callback alone, and that [gsk_curve_decompose_curve] does
    so with operations that the flags it gets allow.  Then [func] gets
    moves, lines, closes and the curves that [flags] allows, and nothing
    else: whatever such calls keep true of the user data is true when
    [gsk_path_foreach] returns. *)
Theorem gsk_path_foreach_allowed (self : GskPath) (flags : Z) :
  calls_only (allowed flags)
    (fun func : GskPathForeachFunc S => gsk_path_foreach self flags func).
Proof.
  apply gsk_path_foreach_with_tolerance_calls.
Qed.

End ForeachFacts.

Section CairoFacts.

Context {CC : GskContourClass} {GC : GskCurveClass}.

Hypothesis cairo_contour_calls :
  forall c tolerance,
    calls_only (fun _ => true) (@gsk_contour_foreach _ _ cairo_t c tolerance).
Hypothesis cairo_decompose_lines :
  forall curve tolerance,
    adds_lines_only (@gsk_curve_decompose _ _ cairo_t curve tolerance).
Hypothesis cairo_decompose_curve_flags :
  forall curve flags tolerance,
    calls_only (allowed flags)
      (@gsk_curve_decompose_curve _ _ cairo_t curve flags tolerance).

(** X18.  Under the same suppositions [gsk_path_to_cairo] never reaches the
    [g_assert_not_reached ()] of [gsk_path_to_cairo_add_op]: the callback
    gets no quadratic curve and no arc.  The tolerance of the context is
    not changed and the calls made on it before are kept. *)
Theorem gsk_path_to_cairo_reaches_no_assert (self : GskPath) (cr : cairo_t) :
  not_reached cr = false ->
  not_reached (gsk_path_to_cairo self cr) = false /\
  cairo_get_tolerance (gsk_path_to_cairo self cr) = cairo_get_tolerance cr /\
  exists calls,
    cairo_calls (gsk_path_to_cairo self cr) = cairo_calls cr ++ calls.
Proof.
  intros Hcr. unfold gsk_path_to_cairo.
  set (I := fun s : cairo_t =>
    not_reached s = false /\
    cairo_get_tolerance s = cairo_get_tolerance cr /\
    exists calls, cairo_calls s = cairo_calls cr ++ calls).
  apply (gsk_path_foreach_with_tolerance_calls cairo_t cairo_contour_calls cairo_decompose_lines
           cairo_decompose_curve_flags self GSK_PATH_FOREACH_ALLOW_CUBIC
           (cairo_get_tolerance cr) I).
  - intros op pts s Hop (Hn & Ht & calls & Hcalls).
    destruct op; try discriminate Hop; unfold I; cbn;
      (split; [exact Hn|]); (split; [exact Ht|]);
      rewrite Hcalls, <- app_assoc; eexists; reflexivity.
  - split; [exact Hcr|]. split; [reflexivity|].
    exists []. rewrite app_nil_r. reflexivity.
Qed.

End CairoFacts.

(* ================================================================== *)
(** * More examples *)

Module MoreExamples.

Import PathPoint Sample SampleMore.

(** ** Parsing *)

Definition closed_and_reopened : list ascii :=
  list_ascii_of_string "M 1 2 L 3 4 Z L 5 6".

Lemma gsk_path_parse_calls_shape_witness :
  let calls :=
    [gsk_path_builder_move_to 1 2; gsk_path_builder_line_to 3 4;
     gsk_path_builder_close; gsk_path_builder_move_to 1 2;
     gsk_path_builder_line_to 5 6]%Q in
  gsk_path_parse closed_and_reopened = Some calls /\
  starts_with_move_to calls /\
  no_draw_after_close calls /\
  (calls = [] <-> hd NUL closed_and_reopened = NUL).
Proof.
  intros calls.
  assert (H : gsk_path_parse closed_and_reopened = Some calls)
    by (vm_compute; reflexivity).
  split; [exact H|].
  exact (gsk_path_parse_calls_shape closed_and_reopened calls H).
Defined.


(** The states of the parser on [M 1 2 Z L 5 6 ]: after [M 1 2], after
    [Z] and at the end. *)
Definition after_the_point : parser_state :=
  mkState [gsk_path_builder_move_to 1 2]%Q 1%Q 2%Q 0%Q 0%Q 1%Q 2%Q
    (mkCursor (Some " "%char) (list_ascii_of_string "Z L 5 6 ")) "M" false.

Definition after_the_close : parser_state :=
  mkState [gsk_path_builder_move_to 1 2; gsk_path_builder_close]%Q
    1%Q 2%Q 0%Q 0%Q 1%Q 2%Q
    (mkCursor (Some "Z"%char) (list_ascii_of_string " L 5 6 ")) "Z" false.

Definition after_the_line : parser_state :=
  mkState [gsk_path_builder_move_to 1 2; gsk_path_builder_close;
           gsk_path_builder_move_to 1 2; gsk_path_builder_line_to 5 6]%Q
    5%Q 6%Q 0%Q 0%Q 1%Q 2%Q
    (mkCursor (Some " "%char) []) "L" false.

Lemma gsk_path_parse_close_and_reopen_witness :
  gsk_path_parse_iteration after_the_close = Some after_the_line /\
  (_strchr drawing_commands (cmd after_the_line) = true ->
   exists call, is_draw call = true /\
     if _strchr "zZ" (cmd after_the_close)
     then builder after_the_line =
            builder after_the_close ++
              [gsk_path_builder_move_to (x after_the_close) (y after_the_close); call] /\
          path_x after_the_line = x after_the_close /\
          path_y after_the_line = y after_the_close
     else builder after_the_line = builder after_the_close ++ [call] /\
          path_x after_the_line = path_x after_the_close /\
          path_y after_the_line = path_y after_the_close).
Proof.
  assert (H : gsk_path_parse_iteration after_the_close = Some after_the_line)
    by (vm_compute; reflexivity).
  split; [exact H|].
  exact (proj2 (gsk_path_parse_close_and_reopen after_the_close after_the_line H)).
Defined.

Lemma gsk_path_parse_leading_spaces_witness :
  let ws := list_ascii_of_string "  " in
  let string := list_ascii_of_string "M 1 2 Z" in
  all_spaces ws /\ hd NUL string <> NUL /\
  gsk_path_parse (ws ++ string) = gsk_path_parse string.
Proof.
  intros ws string.
  assert (Hws : all_spaces ws) by (repeat constructor).
  assert (Hs : hd NUL string <> NUL) by discriminate.
  split; [exact Hws|]. split; [exact Hs|].
  exact (gsk_path_parse_leading_spaces ws string Hws Hs).
Defined.

(** [M 1 2 Z] with a space after it: the parser is left with the space
    after the [Z]. *)
Definition space_after_close : list ascii := list_ascii_of_string "M 1 2 Z ".

Definition at_the_space : parser_state :=
  mkState [gsk_path_builder_move_to 1 2; gsk_path_builder_close]%Q
    1%Q 2%Q 0%Q 0%Q 1%Q 2%Q
    (mkCursor (Some "Z"%char) [" "%char]) "Z" false.

Definition before_the_close : parser_state :=
  mkState [gsk_path_builder_move_to 1 2]%Q 1%Q 2%Q 0%Q 0%Q 1%Q 2%Q
    (mkCursor (Some " "%char) (list_ascii_of_string "Z ")) "M" false.

Lemma reaches_at_the_space :
  reaches (gsk_path_parse_start space_after_close) at_the_space.
Proof.
  apply (@reaches_iteration sample_env _ before_the_close at_the_space);
    [vm_compute; reflexivity|vm_compute; reflexivity|].
  apply (@reaches_iteration sample_env before_the_close at_the_space at_the_space);
    [vm_compute; reflexivity|vm_compute; reflexivity|].
  apply reaches_here.
Qed.

Lemma gsk_path_parse_spaces_at_the_end_witness :
  reaches (gsk_path_parse_start space_after_close) at_the_space /\
  (cmd at_the_space = "X"%char \/ _strchr "Zz" (cmd at_the_space) = true) /\
  chars (p at_the_space) <> [] /\
  all_spaces (chars (p at_the_space)) /\
  gsk_path_parse space_after_close = None.
Proof.
  assert (Hc : cmd at_the_space = "X"%char \/ _strchr "Zz" (cmd at_the_space) = true)
    by (right; reflexivity).
  assert (Hne : chars (p at_the_space) <> []) by discriminate.
  assert (Hws : all_spaces (chars (p at_the_space))) by (repeat constructor).
  split; [exact reaches_at_the_space|]. split; [exact Hc|].
  split; [exact Hne|]. split; [exact Hws|].
  exact (gsk_path_parse_spaces_at_the_end space_after_close at_the_space
           reaches_at_the_space Hc Hne Hws).
Defined.

(** ** Paths *)

Lemma gsk_path_ref_count_balance_witness :
  let calls := [Ref; Ref; Unref; Unref; Unref] in
  0 < ref_count triangle_path <= G_MAXUINT /\
  (forall i, (i < List.length calls)%nat ->
     0 < ref_count triangle_path + balance (firstn i calls) <= G_MAXUINT) /\
  0 <= ref_count triangle_path + balance calls <= G_MAXUINT /\
  run_ref_calls calls triangle_path = None.
Proof.
  intros calls.
  assert (H0 : 0 < ref_count triangle_path <= G_MAXUINT) by (vm_compute; split; congruence).
  assert (Hpre : forall i, (i < List.length calls)%nat ->
            0 < ref_count triangle_path + balance (firstn i calls) <= G_MAXUINT).
  { intros i Hi.
    do 5 (destruct i as [|i]; [vm_compute; split; congruence|]).
    simpl in Hi. lia. }
  assert (Hend : 0 <= ref_count triangle_path + balance calls <= G_MAXUINT)
    by (vm_compute; split; congruence).
  split; [exact H0|]. split; [exact Hpre|]. split; [exact Hend|].
  exact (gsk_path_ref_count_balance calls triangle_path H0 Hpre Hend).
Defined.

Definition point_and_triangle : GskPath := gsk_path_new_from_contours [point; triangle].
Definition triangle_and_point : GskPath := gsk_path_new_from_contours [triangle; point].

Lemma gsk_path_in_fill_order_witness :
  Permutation (contours point_and_triangle) (contours triangle_and_point) /\
  gsk_path_in_fill point_and_triangle (5, 1)%Q GSK_FILL_RULE_WINDING =
  gsk_path_in_fill triangle_and_point (5, 1)%Q GSK_FILL_RULE_WINDING.
Proof.
  assert (H : Permutation (contours point_and_triangle) (contours triangle_and_point))
    by apply perm_swap.
  split; [exact H|].
  exact (gsk_path_in_fill_order point_and_triangle triangle_and_point (5, 1)%Q
           GSK_FILL_RULE_WINDING H).
Defined.

Lemma gsk_path_is_empty_queries_witness :
  n_contours triangle_path <= G_MAXSIZE /\
  (gsk_path_is_empty triangle_path = true <-> gsk_path_get_start_point triangle_path = None) /\
  (gsk_path_is_empty triangle_path = true <-> gsk_path_get_end_point triangle_path = None).
Proof.
  assert (H : n_contours triangle_path <= G_MAXSIZE) by (vm_compute; congruence).
  split; [exact H|].
  destruct (gsk_path_is_empty_queries triangle_path H) as (_ & _ & _ & Hs & He & _).
  exact (conj Hs He).
Defined.

Lemma gsk_path_get_stroke_bounds_union_witness :
  contours point_and_triangle = [point; triangle] /\
  gsk_path_get_stroke_bounds point_and_triangle 1%Q =
    (true,
     gsk_bounding_box_to_rect
       (fold_left gsk_bounding_box_union (stroke_boxes 1%Q [triangle])
          (snd (gsk_contour_get_stroke_bounds point 1%Q)))).
Proof.
  assert (H : contours point_and_triangle = [point; triangle]) by reflexivity.
  split; [exact H|].
  exact (proj1 (gsk_path_get_stroke_bounds_union point_and_triangle 1%Q
                  point [triangle] H)).
Defined.

Lemma gsk_path_get_closest_point_last_witness :
  let pt := (1, 1)%Q in
  n_contours point_and_triangle <= G_MAXINT /\
  (forall r, gsk_path_get_closest_point point_and_triangle pt 3%Q = Some r ->
     0 <= contour r < gsk_path_get_n_contours point_and_triangle /\
     exists c r0 d,
       gsk_path_get_contour point_and_triangle (Z.to_nat (contour r)) = Some c /\
       gsk_contour_get_closest_point c pt
         (threshold_at point_and_triangle pt 3%Q (Z.to_nat (contour r))) =
         Some (r0, d) /\
       idx r = idx r0 /\ t r = t r0 /\
       forall j c', (Z.to_nat (contour r) < j)%nat ->
         gsk_path_get_contour point_and_triangle j = Some c' ->
         gsk_contour_get_closest_point c' pt d = None) /\
  threshold_at point_and_triangle pt 3%Q 0 = 3%Q.
Proof.
  intros pt.
  assert (H : n_contours point_and_triangle <= G_MAXINT) by (vm_compute; congruence).
  split; [exact H|].
  destruct (gsk_path_get_closest_point_last point_and_triangle pt 3%Q H)
    as (_ & _ & Hr & H0 & _).
  exact (conj Hr H0).
Defined.

Lemma gsk_path_start_before_end_witness :
  n_contours point_and_triangle <= G_MAXSIZE /\
  contours point_and_triangle = [point] ++ [triangle] /\
  1 <= gsk_contour_get_n_ops triangle <= G_MAXSIZE /\
  exists s e,
    gsk_path_get_start_point point_and_triangle = Some s /\
    gsk_path_get_end_point point_and_triangle = Some e /\
    valid_point s /\ valid_point e /\
    contour s < gsk_path_get_n_contours point_and_triangle /\
    contour e < gsk_path_get_n_contours point_and_triangle /\
    gsk_path_point_compare s e <= 0 /\
    (gsk_path_point_equal s e = true <->
     [point] = [] /\ gsk_contour_get_n_ops triangle = 1).
Proof.
  assert (H1 : n_contours point_and_triangle <= G_MAXSIZE) by (vm_compute; congruence).
  assert (H2 : contours point_and_triangle = [point] ++ [triangle]) by reflexivity.
  assert (H3 : 1 <= gsk_contour_get_n_ops triangle <= G_MAXSIZE)
    by (vm_compute; split; congruence).
  split; [exact H1|]. split; [exact H2|]. split; [exact H3|].
  exact (gsk_path_start_before_end point_and_triangle [point] triangle H1 H2 H3).
Defined.

Lemma gsk_path_point_equal_equivalence_witness :
  let p := mkPoint 0 1 1 in
  let q := mkPoint 0 2 0 in
  let r := mkPoint 0 2 (1 # 2) in
  valid_point p /\ valid_point q /\ valid_point r /\
  gsk_path_point_equal p p = true /\
  gsk_path_point_equal p q = gsk_path_point_equal q p /\
  (gsk_path_point_equal p q = true -> gsk_path_point_equal q r = true ->
     gsk_path_point_equal p r = true) /\
  (gsk_path_point_equal p q = true ->
     gsk_path_point_compare p r = gsk_path_point_compare q r /\
     gsk_path_point_compare r p = gsk_path_point_compare r q).
Proof.
  intros p q r.
  assert (Hp : valid_point p) by (vm_compute; intuition discriminate).
  assert (Hq : valid_point q) by (vm_compute; intuition discriminate).
  assert (Hr : valid_point r) by (vm_compute; intuition discriminate).
  split; [exact Hp|]. split; [exact Hq|]. split; [exact Hr|].
  exact (gsk_path_point_equal_equivalence p q r Hp Hq Hr).
Defined.

(** The closest point of the point and the triangle to (1, 1): the two
    corners are equally far, the first contour is found and the second,
    which is not closer than the first, as well. *)
Example gsk_path_get_closest_point_corner :
  gsk_path_get_closest_point point_and_triangle (1, 1)%Q 3%Q =
    Some (mkPoint 1 1 0) /\
  threshold_at point_and_triangle (1, 1)%Q 3%Q 1 = 2%Q /\
  gsk_path_get_closest_point point_and_triangle (1, 1)%Q 1%Q = None /\
  gsk_path_get_closest_point point_and_triangle (1, 1)%Q (- (1))%Q = None.
Proof. vm_compute. repeat split. Qed.

Example gsk_path_to_string_point_and_triangle :
  string_of_list_ascii (gsk_path_to_string point_and_triangle) =
  "M 0 0 M 0 0 L 10 0 L 10 10 Z"%string.
Proof. vm_compute. reflexivity. Qed.

(** ** Walking a path *)

Lemma gsk_path_foreach_allowed_witness :
  (forall c tolerance,
     calls_only (fun _ => true)
       (@gsk_contour_foreach _ _ (list GskPathOperation) c tolerance)) /\
  (forall curve tolerance,
     adds_lines_only (@gsk_curve_decompose _ _ (list GskPathOperation) curve tolerance)) /\
  (forall curve flags tolerance,
     calls_only (allowed flags)
       (@gsk_curve_decompose_curve _ _ (list GskPathOperation) curve flags tolerance)) /\
  calls_only (allowed GSK_PATH_FOREACH_ALLOW_CUBIC)
    (fun func : GskPathForeachFunc (list GskPathOperation) =>
       gsk_path_foreach triangle_path GSK_PATH_FOREACH_ALLOW_CUBIC func).
Proof.
  split; [exact (sample_contour_calls (S := list GskPathOperation))|].
  split; [exact (sample_decompose_lines (S := list GskPathOperation))|].
  split; [exact (sample_decompose_curve_flags (S := list GskPathOperation))|].
  exact (gsk_path_foreach_allowed (list GskPathOperation)
           (sample_contour_calls (S := list GskPathOperation))
           (sample_decompose_lines (S := list GskPathOperation))
           (sample_decompose_curve_flags (S := list GskPathOperation))
           triangle_path GSK_PATH_FOREACH_ALLOW_CUBIC).
Defined.

Definition new_context : cairo_t :=
  {| cairo_get_tolerance := (1 # 10)%Q; cairo_calls := []; not_reached := false |}.

Lemma gsk_path_to_cairo_reaches_no_assert_witness :
  (forall c tolerance,
     calls_only (fun _ => true) (@gsk_contour_foreach _ _ cairo_t c tolerance)) /\
  (forall curve tolerance,
     adds_lines_only (@gsk_curve_decompose _ _ cairo_t curve tolerance)) /\
  (forall curve flags tolerance,
     calls_only (allowed flags)
       (@gsk_curve_decompose_curve _ _ cairo_t curve flags tolerance)) /\
  not_reached new_context = false /\
  not_reached (gsk_path_to_cairo triangle_path new_context) = false.
Proof.
  assert (H : not_reached new_context = false) by reflexivity.
  split; [exact (sample_contour_calls (S := cairo_t))|].
  split; [exact (sample_decompose_lines (S := cairo_t))|].
  split; [exact (sample_decompose_curve_flags (S := cairo_t))|].
  split; [exact H|].
  exact (proj1 (gsk_path_to_cairo_reaches_no_assert
                  (sample_contour_calls (S := cairo_t))
                  (sample_decompose_lines (S := cairo_t))
                  (sample_decompose_curve_flags (S := cairo_t))
                  triangle_path new_context H)).
Defined.

(** The operations that a callback gets from the triangle: all of them
    with every flag, lines alone without flags. *)
Example gsk_path_foreach_every_flag :
  gsk_path_foreach triangle_path (-1) collect_operation [] =
  (true, [GSK_PATH_MOVE; GSK_PATH_LINE; GSK_PATH_QUAD; GSK_PATH_CUBIC;
          GSK_PATH_ARC; GSK_PATH_CLOSE]).
Proof. vm_compute. reflexivity. Qed.

Example gsk_path_foreach_only_lines :
  gsk_path_foreach triangle_path GSK_PATH_FOREACH_ALLOW_ONLY_LINES collect_operation [] =
  (true, [GSK_PATH_MOVE; GSK_PATH_LINE; GSK_PATH_LINE; GSK_PATH_LINE;
          GSK_PATH_LINE; GSK_PATH_CLOSE]).
Proof. vm_compute. reflexivity. Qed.

Example gsk_path_to_cairo_triangle :
  cairo_calls (gsk_path_to_cairo triangle_path new_context) =
  [cairo_move_to 0 0; cairo_line_to 10 0; cairo_curve_to 10 (20 # 3) (20 # 3) 10 0 10;
   cairo_curve_to 10 10 10 0 0 0; cairo_line_to 10 10; cairo_close_path]%Q.
Proof. reflexivity. Qed.

End MoreExamples.
